(** * Broad-phase collision detection: AABB overlap, brute force and spatial grid

    A shallow embedding of [src/aabb.ts], [src/types.ts], [src/brute-force.ts]
    and [src/spatial-grid.ts], and the properties of the two detectors;
    then of the helpers of the benchmark script and of the simulation behind
    the web page ([web/main.ts]), without their output and drawing.

    Modelling conventions.
    - A JavaScript [number] is a finite double, which is a rational:
      numbers are in [Q] and comparisons are exact.  [NaN] and the
      infinities are not modelled.  [Math.floor] and [Math.ceil] are
      [Qfloor] and [Qceiling]; the integer results (cell indices, grid
      dimensions) live in [Z], the counters in [nat].
    - The arithmetic on numbers is read in two ways.  [Double] has the
      constructor, [worldToGrid] and [update] of the grid, and [DoubleWeb]
      the move of an entity, with every sum, difference and quotient
      followed by [round], the rounding of the machine to the nearest
      double: the dimensions of a grid, and what depends on them, are
      settled there.  The other definitions take sums, differences,
      products and quotients without rounding; they stand for the code in
      properties that do not depend on how a result is rounded.
    - An entity id is [number | string]; a numeric id is an integer, which a
      template literal prints in decimal (as JavaScript does below 10^21).
    - An entity is a value: nobody changes an entity between the [update]
      that stores it and the [queryPairs] that reads it.
    - An array is a [list].  Reading a missing slot and then a property of
      the [undefined] it yields raises a [TypeError]; that and an assignment
      that would leave a hole in an array are outcomes of the [Result] type,
      next to the errors the code throws itself.
    - The [checked] object of [queryPairs] is a finite map with string keys.
      Every key holds a colon, so none is a property that a JavaScript
      object inherits.
    - [Math.random()] is a function from the number of the call to its
      result; the functions that draw take the number of the next call and
      return it advanced.  [Math.sin] is a variable.
    - The web page moves its entities in place, and the detectors hold these
      very objects.  The state of the page keeps, for a detector, the boxes
      it was given at its last [update]: the same as the objects for the
      grid detector, which every frame updates after the move, and for the
      brute-force detector after the frames that update it; nothing reads
      its entities in between. *)

From Stdlib Require Import QArith Qminmax Qround Qpower ZArith Lia Lqa Ascii.
From stdpp Require Import base list strings gmap pretty sorting.

Local Open Scope Z_scope.

(** ** Numbers *)

(** [p < q] on numbers, as a boolean. *)
Definition Qltb (p q : Q) : bool := negb (Qle_bool q p).

(** [p <= q] on numbers, as a boolean. *)
Definition Qleb (p q : Q) : bool := Qle_bool p q.

(** ** types.ts *)

Record Vec2 := mkVec2 { x : Q; y : Q }.

Record AABB := mkAABB { min : Vec2; max : Vec2 }.

Inductive Id :=
| IdNum (n : Z)
| IdStr (s : string).

Record Entity := mkEntity { id : Id; aabb : AABB }.

#[global] Instance Id_eq_dec : EqDecision Id.
Proof. solve_decision. Defined.

(** ** aabb.ts *)

Definition aabbIntersects (a b : AABB) : bool :=
  if Qltb a.(max).(x) b.(min).(x) || Qltb b.(max).(x) a.(min).(x) then false
  else if Qltb a.(max).(y) b.(min).(y) || Qltb b.(max).(y) a.(min).(y) then false
  else true.

(** ** Control flow shared by the two detectors *)

(** What a call can end in besides a value: an error thrown by the code
    ([throw new Error(message)]), the [TypeError] JavaScript raises when a
    property of [undefined] is read, and an assignment outside
    [0 .. length] of an array, which would leave the dense arrays modelled
    here. *)
Inductive Error :=
| ThrownError (message : string)
| TypeError
| SparseAssignment.

Definition Result (A : Type) : Type := Error + A.

Definition ret {A} (a : A) : Result A := inr a.

Definition throw {A} (e : Error) : Result A := inl e.

Definition bind {A B} (m : Result A) (k : A -> Result B) : Result B :=
  match m with
  | inl e => inl e
  | inr a => k a
  end.

Notation "'let*' v ':=' m 'in' k" := (bind m (fun v => k))
  (at level 10, v name, m at level 100, k at level 200,
   format "'[v' 'let*'  v  ':='  m  'in' '/' k ']'").

(** [for (const i of items) body(i)], threading the state [s]. *)
Fixpoint forEach {I S} (body : I -> S -> Result S) (items : list I) (s : S)
  : Result S :=
  match items with
  | [] => ret s
  | i :: items' => let* s' := body i s in forEach body items' s'
  end.

(** [for (let i = lo; i < hi; i++) body(i)]. *)
Definition forRange {S} (lo hi : Z) (body : Z -> S -> Result S) (s : S)
  : Result S :=
  forEach body (seqZ lo (hi - lo)) s.

(** [l[i]]: [None] stands for [undefined]. *)
Definition arrayGet {A} (l : list A) (i : Z) : option A :=
  if i <? 0 then None else l !! Z.to_nat i.

(** [l[i] = v], for [0 <= i <= l.length]. *)
Definition arraySet {A} (l : list A) (i : Z) (v : A) : Result (list A) :=
  if (0 <=? i) && (i <? Z.of_nat (length l)) then ret (<[Z.to_nat i := v]> l)
  else if i =? Z.of_nat (length l) then ret (l ++ [v])
  else throw SparseAssignment.

(** A property read on [o], which throws when [o] is [undefined]. *)
Definition deref {A} (o : option A) : Result A :=
  match o with
  | Some a => ret a
  | None => throw TypeError
  end.

(** [String(id)], as template literals apply it. *)
Definition idToString (i : Id) : string :=
  match i with
  | IdNum n => pretty n
  | IdStr s => s
  end.

(** ** brute-force.ts *)

Module BruteForceBroadPhase.

Record t := mk { _entities : list Entity; _collisionTests : nat }.

Definition new : t := {| _entities := []; _collisionTests := 0 |}.

Definition update (entities : list Entity) (this : t) : t :=
  {| _entities := entities; _collisionTests := this.(_collisionTests) |}.

(** The locals of [queryPairs] together with the counter field. *)
Record Locals := mkLocals { pairs : list (Entity * Entity); tests : nat }.

(** The body of the inner loop. *)
Definition testPair (entityA entityB : Entity) (st : Locals) : Locals :=
  let tests' := S st.(tests) in
  if aabbIntersects entityA.(aabb) entityB.(aabb)
  then {| pairs := st.(pairs) ++ [(entityA, entityB)]; tests := tests' |}
  else {| pairs := st.(pairs); tests := tests' |}.

Definition queryPairs (this : t) : Result (list (Entity * Entity) * t) :=
  let entities := this.(_entities) in
  let n := Z.of_nat (length entities) in
  let* st := forRange 0 n (fun i st =>
          let* entityA := deref (arrayGet entities i) in
          forRange (i + 1) n (fun j st =>
            let* entityB := deref (arrayGet entities j) in
            ret (testPair entityA entityB st)) st)
        {| pairs := []; tests := 0 |} in
  ret (st.(pairs), {| _entities := entities; _collisionTests := st.(tests) |}).

Definition collisionTests (this : t) : nat := this.(_collisionTests).

End BruteForceBroadPhase.

(** ** spatial-grid.ts *)

(** The class with its quotients taken exactly; [Double], further down, has
    the constructor, [worldToGrid] and [update] with the rounding of the
    machine. *)

Module SpatialGridOptions.

Record t := mk {
  cellSize : Q;
  minX : option Q;
  minY : option Q;
  maxX : Q;
  maxY : Q
}.

End SpatialGridOptions.

Record Cell := mkCell { col : Z; row : Z }.

Module SpatialGridBroadPhase.

Record t := mk {
  cellSize : Q;
  minX : Q;
  minY : Q;
  maxX : Q;
  maxY : Q;
  numCols : Z;
  numRows : Z;
  grid : list (list (list Entity));
  _collisionTests : nat
}.

(** [grid[col][row] = v]. *)
Definition setCell (grid : list (list (list Entity))) (col row : Z)
  (v : list Entity) : Result (list (list (list Entity))) :=
  let* column := deref (arrayGet grid col) in
  let* column' := arraySet column row v in
  arraySet grid col column'.

(** [grid[col][row].push(entity)]. *)
Definition pushCell (grid : list (list (list Entity))) (col row : Z)
  (entity : Entity) : Result (list (list (list Entity))) :=
  let* column := deref (arrayGet grid col) in
  let* cell := deref (arrayGet column row) in
  setCell grid col row (cell ++ [entity]).

(** [x ?? 0]. *)
Definition orZero (o : option Q) : Q := default 0%Q o.

Definition new (options : SpatialGridOptions.t) : Result t :=
  if Qleb options.(SpatialGridOptions.cellSize) 0
  then throw (ThrownError "cellSize must be greater than 0")
  else if Qleb options.(SpatialGridOptions.maxX)
               (orZero options.(SpatialGridOptions.minX))
  then throw (ThrownError "maxX must be greater than minX")
  else if Qleb options.(SpatialGridOptions.maxY)
               (orZero options.(SpatialGridOptions.minY))
  then throw (ThrownError "maxY must be greater than minY")
  else
    let cellSize := options.(SpatialGridOptions.cellSize) in
    let minX := orZero options.(SpatialGridOptions.minX) in
    let minY := orZero options.(SpatialGridOptions.minY) in
    let maxX := options.(SpatialGridOptions.maxX) in
    let maxY := options.(SpatialGridOptions.maxY) in
    let numCols := Qceiling ((maxX - minX) / cellSize) in
    let numRows := Qceiling ((maxY - minY) / cellSize) in
    let* grid := forRange 0 numCols (fun col grid =>
              let* grid := arraySet grid col [] in
              forRange 0 numRows (fun row grid => setCell grid col row [])
                grid) [] in
    ret {| cellSize := cellSize; minX := minX; minY := minY;
           maxX := maxX; maxY := maxY;
           numCols := numCols; numRows := numRows;
           grid := grid; _collisionTests := 0 |}.

Definition worldToGrid (this : t) (x y : Q) : Cell :=
  let col := Qfloor ((x - this.(minX)) / this.(cellSize)) in
  let row := Qfloor ((y - this.(minY)) / this.(cellSize)) in
  {| col := Z.max 0 (Z.min col (this.(numCols) - 1));
     row := Z.max 0 (Z.min row (this.(numRows) - 1)) |}.

(** The body of the population loop of [update], for one entity. *)
Definition insertEntity (this : t) (entity : Entity)
  (grid : list (list (list Entity))) : Result (list (list (list Entity))) :=
  let aabb := entity.(aabb) in
  let minCell := worldToGrid this aabb.(min).(x) aabb.(min).(y) in
  let maxCell := worldToGrid this aabb.(max).(x) aabb.(max).(y) in
  forRange minCell.(col) (maxCell.(col) + 1) (fun col grid =>
    forRange minCell.(row) (maxCell.(row) + 1) (fun row grid =>
      pushCell grid col row entity) grid) grid.

(** The clearing loop of [update]. *)
Definition clearGrid (this : t) (grid : list (list (list Entity)))
  : Result (list (list (list Entity))) :=
  forRange 0 this.(numCols) (fun col grid =>
    forRange 0 this.(numRows) (fun row grid => setCell grid col row [])
      grid) grid.

Definition update (entities : list Entity) (this : t) : Result t :=
  let* grid := clearGrid this this.(grid) in
  let* grid := forEach (insertEntity this) entities grid in
  ret {| cellSize := this.(cellSize); minX := this.(minX);
         minY := this.(minY); maxX := this.(maxX); maxY := this.(maxY);
         numCols := this.(numCols); numRows := this.(numRows);
         grid := grid; _collisionTests := this.(_collisionTests) |}.

(** The locals of [queryPairs] together with the counter field. *)
Record Locals := mkLocals {
  pairs : list (Entity * Entity);
  checked : gmap string unit;
  tests : nat
}.

(** [`${a.id}:${b.id}`]. *)
Definition pairKey (a b : Entity) : string :=
  idToString a.(id) +:+ ":" +:+ idToString b.(id).

(** [checked[key]] as a condition. *)
Definition isChecked (checked : gmap string unit) (key : string) : bool :=
  match checked !! key with
  | Some _ => true
  | None => false
  end.

(** The body of the innermost loop. *)
Definition testPair (entityA entityB : Entity) (st : Locals) : Locals :=
  let hashA := pairKey entityA entityB in
  let hashB := pairKey entityB entityA in
  if isChecked st.(checked) hashA || isChecked st.(checked) hashB then st
  else
    let checked' := <[hashB := ()]> (<[hashA := ()]> st.(checked)) in
    let tests' := S st.(tests) in
    if aabbIntersects entityA.(aabb) entityB.(aabb)
    then {| pairs := st.(pairs) ++ [(entityA, entityB)];
            checked := checked'; tests := tests' |}
    else {| pairs := st.(pairs); checked := checked'; tests := tests' |}.

(** The body of the loop over the cells. *)
Definition queryCell (grid : list (list (list Entity))) (col row : Z)
  (st : Locals) : Result Locals :=
  let* column := deref (arrayGet grid col) in
  let* entitiesInCell := deref (arrayGet column row) in
  let n := Z.of_nat (length entitiesInCell) in
  if n <? 2 then ret st
  else
    forRange 0 n (fun i st =>
      let* entityA := deref (arrayGet entitiesInCell i) in
      forRange (i + 1) n (fun j st =>
        let* entityB := deref (arrayGet entitiesInCell j) in
        ret (testPair entityA entityB st)) st) st.

Definition queryPairs (this : t) : Result (list (Entity * Entity) * t) :=
  let* st := forRange 0 this.(numCols) (fun col st =>
          forRange 0 this.(numRows) (fun row st =>
            queryCell this.(grid) col row st) st)
        {| pairs := []; checked := ∅; tests := 0 |} in
  ret (st.(pairs),
       {| cellSize := this.(cellSize); minX := this.(minX);
          minY := this.(minY); maxX := this.(maxX); maxY := this.(maxY);
          numCols := this.(numCols); numRows := this.(numRows);
          grid := this.(grid); _collisionTests := st.(tests) |}).

Definition collisionTests (this : t) : nat := this.(_collisionTests).

End SpatialGridBroadPhase.

(** ** The states a grid detector can be in *)

(** The states of a detector built from [options]: the result of the
    constructor, and whatever [update] and [queryPairs] turn it into. *)
Inductive Reachable (options : SpatialGridOptions.t)
  : SpatialGridBroadPhase.t -> Prop :=
| Reachable_new this :
    SpatialGridBroadPhase.new options = inr this ->
    Reachable options this
| Reachable_update this entities this' :
    Reachable options this ->
    SpatialGridBroadPhase.update entities this = inr this' ->
    Reachable options this'
| Reachable_queryPairs this pairs this' :
    Reachable options this ->
    SpatialGridBroadPhase.queryPairs this = inr (pairs, this') ->
    Reachable options this'.

(** ** Vocabulary of the properties *)

(** The four strict separations tested by [aabbIntersects]. *)
Definition separated (a b : AABB) : Prop :=
  (a.(max).(x) < b.(min).(x))%Q \/ (b.(max).(x) < a.(min).(x))%Q \/
  (a.(max).(y) < b.(min).(y))%Q \/ (b.(max).(y) < a.(min).(y))%Q.

(** Two boxes touch along an edge: a boundary coordinate is shared and no
    axis separates them strictly. *)
Definition touching (a b : AABB) : Prop :=
  ((a.(max).(x) == b.(min).(x))%Q \/ (b.(max).(x) == a.(min).(x))%Q \/
   (a.(max).(y) == b.(min).(y))%Q \/ (b.(max).(y) == a.(min).(y))%Q) /\
  ~ separated a b.

(** The invariant of the data model: [min] is below [max] on both axes. *)
Definition wellFormed (a : AABB) : Prop :=
  (a.(min).(x) <= a.(max).(x))%Q /\ (a.(min).(y) <= a.(max).(y))%Q.

(** The configurations the constructor is meant for. *)
Definition validOptions (options : SpatialGridOptions.t) : Prop :=
  (0 < options.(SpatialGridOptions.cellSize))%Q /\
  (SpatialGridBroadPhase.orZero options.(SpatialGridOptions.minX)
     < options.(SpatialGridOptions.maxX))%Q /\
  (SpatialGridBroadPhase.orZero options.(SpatialGridOptions.minY)
     < options.(SpatialGridOptions.maxY))%Q.

(** The error taxonomy: [InvalidCellSize] and [InvalidBounds] name the
    errors the constructor throws. *)
Definition InvalidCellSize (e : Error) : Prop :=
  e = ThrownError "cellSize must be greater than 0".

Definition InvalidBounds (e : Error) : Prop :=
  e = ThrownError "maxX must be greater than minX" \/
  e = ThrownError "maxY must be greater than minY".

(** [clamp v lo hi] as usually defined: [v] brought back into [lo .. hi]. *)
Definition clamp (v lo hi : Z) : Z :=
  if v <? lo then lo else if hi <? v then hi else v.

(** The pairs [(l[i], l[j])] with [i < j], in the order of the nested
    loops. *)
Fixpoint orderedPairs {A} (l : list A) : list (A * A) :=
  match l with
  | [] => []
  | a :: l' => (pair a <$> l') ++ orderedPairs l'
  end.

(** The boxes of a pair of entities pass the overlap test. *)
Definition overlapping (p : Entity * Entity) : Prop :=
  aabbIntersects (aabb p.1) (aabb p.2) = true.

#[global] Instance overlapping_dec p : Decision (overlapping p).
Proof. unfold overlapping. apply _. Defined.

(** The ids of a pair of entities. *)
Definition idPair (p : Entity * Entity) : Id * Id := (id p.1, id p.2).

(** Two id pairs are the same unordered pair. *)
Definition sameUnordered (p q : Id * Id) : Prop :=
  p = q \/ p = (q.2, q.1).

(** The unordered id pair [q] is among the pairs [ps]. *)
Definition inPairSet (q : Id * Id) (ps : list (Entity * Entity)) : Prop :=
  Exists (fun p => sameUnordered (idPair p) q) ps.

(** Two results hold the same set of unordered id pairs. *)
Definition samePairSet (ps1 ps2 : list (Entity * Entity)) : Prop :=
  forall q, inPairSet q ps1 <-> inPairSet q ps2.

(** No unordered id pair occurs twice in [ps]. *)
Fixpoint noDuplicatePairs (ps : list (Entity * Entity)) : Prop :=
  match ps with
  | [] => True
  | p :: ps' => ~ inPairSet (idPair p) ps' /\ noDuplicatePairs ps'
  end.

(** The ids of a snapshot are unique. *)
Definition uniqueIds (entities : list Entity) : Prop :=
  NoDup (id <$> entities).

(** The textual keys of [queryPairs] tell the pairs of a snapshot apart:
    two pairs with the same key have the same ids, in the same order. *)
Definition keysUnambiguous (entities : list Entity) : Prop :=
  forall a b c d, a ∈ entities -> b ∈ entities -> c ∈ entities ->
    d ∈ entities ->
    SpatialGridBroadPhase.pairKey a b = SpatialGridBroadPhase.pairKey c d ->
    id a = id c /\ id b = id d.

(** A string without the separator of the keys. *)
Fixpoint noColon (s : string) : bool :=
  match s with
  | EmptyString => true
  | String c s' => negb (Ascii.eqb c ":"%char) && noColon s'
  end.

(** Every id of the snapshot is a number. *)
Definition numericIds (entities : list Entity) : Prop :=
  Forall (fun e => exists n, id e = IdNum n) entities.

(** A grid of [nc] columns and [nr] rows whose cell [(c, r)] is [f c r]. *)
Definition gridOf (nc nr : Z) (f : Z -> Z -> list Entity)
  : list (list (list Entity)) :=
  (fun c => f c <$> seqZ 0 nr) <$> seqZ 0 nc.

(** The cell [(c, r)] lies in the rectangle of cells [update] gives to
    [entity]. *)
Definition covers (this : SpatialGridBroadPhase.t) (c r : Z)
  (entity : Entity) : Prop :=
  let a := entity.(aabb) in
  let minCell := SpatialGridBroadPhase.worldToGrid this a.(min).(x) a.(min).(y) in
  let maxCell := SpatialGridBroadPhase.worldToGrid this a.(max).(x) a.(max).(y) in
  (minCell.(col) <= c <= maxCell.(col)) /\ (minCell.(row) <= r <= maxCell.(row)).

#[global] Instance covers_dec this c r entity : Decision (covers this c r entity).
Proof. unfold covers. apply _. Defined.

(** The pairs [queryPairs] comes across, cell after cell, in the order of
    its loops. *)
Definition candidates (grid : list (list (list Entity)))
  : list (Entity * Entity) :=
  mjoin grid ≫= orderedPairs.

(** The innermost loop body of [queryPairs] run on a list of pairs. *)
Definition runCandidates (cands : list (Entity * Entity))
  (st : SpatialGridBroadPhase.Locals) : SpatialGridBroadPhase.Locals :=
  foldl (fun st p => SpatialGridBroadPhase.testPair p.1 p.2 st) st cands.

(** The grid [update] leaves for a snapshot. *)
Definition populatedGrid (this : SpatialGridBroadPhase.t)
  (entities : list Entity) : list (list (list Entity)) :=
  gridOf this.(SpatialGridBroadPhase.numCols) this.(SpatialGridBroadPhase.numRows)
    (fun c r => filter (covers this c r) entities).

(** The locals of [queryPairs] at its end, on the grid [update] leaves for
    a snapshot. *)
Definition gridResult (this : SpatialGridBroadPhase.t)
  (entities : list Entity) : SpatialGridBroadPhase.Locals :=
  runCandidates (candidates (populatedGrid this entities))
    {| SpatialGridBroadPhase.pairs := [];
       SpatialGridBroadPhase.checked := ∅;
       SpatialGridBroadPhase.tests := 0 |}.

(** What holds after [testPair] has run on the pairs [done], from an empty
    cache: the cache holds keys of pairs of [done] only, the result holds
    overlapping pairs of [done] whose two keys are in the cache, and no
    unordered id pair is in the result twice. *)
Definition cacheInvariant (done : list (Entity * Entity)) (st : SpatialGridBroadPhase.Locals)
  : Prop :=
  (forall k, SpatialGridBroadPhase.isChecked (SpatialGridBroadPhase.checked st) k = true ->
     exists p, p ∈ done /\ (k = SpatialGridBroadPhase.pairKey p.1 p.2 \/ k = SpatialGridBroadPhase.pairKey p.2 p.1)) /\
  (forall p, p ∈ SpatialGridBroadPhase.pairs st ->
     p ∈ done /\ overlapping p /\
     SpatialGridBroadPhase.isChecked (SpatialGridBroadPhase.checked st) (SpatialGridBroadPhase.pairKey p.1 p.2) = true /\
     SpatialGridBroadPhase.isChecked (SpatialGridBroadPhase.checked st) (SpatialGridBroadPhase.pairKey p.2 p.1) = true) /\
  noDuplicatePairs (SpatialGridBroadPhase.pairs st).

(** What holds of every state of a detector built from [options]. *)
Definition gridInvariant (options : SpatialGridOptions.t)
  (this : SpatialGridBroadPhase.t) : Prop :=
  this.(SpatialGridBroadPhase.cellSize) = options.(SpatialGridOptions.cellSize) /\
  this.(SpatialGridBroadPhase.minX)
    = SpatialGridBroadPhase.orZero options.(SpatialGridOptions.minX) /\
  this.(SpatialGridBroadPhase.minY)
    = SpatialGridBroadPhase.orZero options.(SpatialGridOptions.minY) /\
  this.(SpatialGridBroadPhase.maxX) = options.(SpatialGridOptions.maxX) /\
  this.(SpatialGridBroadPhase.maxY) = options.(SpatialGridOptions.maxY) /\
  this.(SpatialGridBroadPhase.numCols)
    = Qceiling ((this.(SpatialGridBroadPhase.maxX) - this.(SpatialGridBroadPhase.minX))
                / this.(SpatialGridBroadPhase.cellSize)) /\
  this.(SpatialGridBroadPhase.numRows)
    = Qceiling ((this.(SpatialGridBroadPhase.maxY) - this.(SpatialGridBroadPhase.minY))
                / this.(SpatialGridBroadPhase.cellSize)) /\
  validOptions options /\
  exists f, this.(SpatialGridBroadPhase.grid)
            = gridOf this.(SpatialGridBroadPhase.numCols)
                     this.(SpatialGridBroadPhase.numRows) f.

(** The grid has [numCols] columns of [numRows] cells each. *)
Definition gridShape (this : SpatialGridBroadPhase.t) : Prop :=
  length this.(SpatialGridBroadPhase.grid)
    = Z.to_nat this.(SpatialGridBroadPhase.numCols) /\
  Forall (fun column : list (list Entity) =>
            length column = Z.to_nat this.(SpatialGridBroadPhase.numRows))
    this.(SpatialGridBroadPhase.grid).

#[global] Instance sameUnordered_dec p q : Decision (sameUnordered p q).
Proof. unfold sameUnordered. apply _. Defined.

#[global] Instance inPairSet_dec q ps : Decision (inPairSet q ps).
Proof. unfold inPairSet. apply _. Defined.

(** ** Scenarios *)

Definition box (x0 y0 x1 y1 : Q) : AABB :=
  {| min := {| x := x0; y := y0 |}; max := {| x := x1; y := y1 |} |}.

(** Two overlapping boxes with numeric ids. *)
Definition scenarioA : list Entity :=
  [ {| id := IdNum 1; aabb := box 0 0 32 32 |};
    {| id := IdNum 2; aabb := box 30 30 62 62 |} ].

(** A world of 64 by 64 units in cells of 32. *)
Definition exampleOptions : SpatialGridOptions.t :=
  {| SpatialGridOptions.cellSize := 32;
     SpatialGridOptions.minX := Some 0%Q;
     SpatialGridOptions.minY := Some 0%Q;
     SpatialGridOptions.maxX := 64;
     SpatialGridOptions.maxY := 64 |}.

(** The detector the constructor builds from [exampleOptions]. *)
Definition exampleGrid : SpatialGridBroadPhase.t :=
  {| SpatialGridBroadPhase.cellSize := 32;
     SpatialGridBroadPhase.minX := 0;
     SpatialGridBroadPhase.minY := 0;
     SpatialGridBroadPhase.maxX := 64;
     SpatialGridBroadPhase.maxY := 64;
     SpatialGridBroadPhase.numCols := 2;
     SpatialGridBroadPhase.numRows := 2;
     SpatialGridBroadPhase.grid := [[[]; []]; [[]; []]];
     SpatialGridBroadPhase._collisionTests := 0 |}.


(** Four entities at the same place, with distinct string ids two pairs of
    which give the key [a:b:c]. *)
Definition ambiguousIds : list Entity :=
  [ {| id := IdStr "a"; aabb := box 0 0 10 10 |};
    {| id := IdStr "b:c"; aabb := box 0 0 10 10 |};
    {| id := IdStr "a:b"; aabb := box 0 0 10 10 |};
    {| id := IdStr "c"; aabb := box 0 0 10 10 |} ].

(** A configuration with both a bad cell size and bad bounds. *)
Definition doublyInvalidOptions : SpatialGridOptions.t :=
  {| SpatialGridOptions.cellSize := 0;
     SpatialGridOptions.minX := None;
     SpatialGridOptions.minY := None;
     SpatialGridOptions.maxX := 0;
     SpatialGridOptions.maxY := 10 |}.

(** The ids of the pairs the two detectors return for a snapshot, with the
    number of tests, on the example grid. *)
Definition bruteForceRun (entities : list Entity)
  : Result (list (Id * Id) * nat) :=
  let* r := BruteForceBroadPhase.queryPairs
              (BruteForceBroadPhase.update entities BruteForceBroadPhase.new) in
  ret (idPair <$> r.1, BruteForceBroadPhase.collisionTests r.2).

Definition gridRun (entities : list Entity) : Result (list (Id * Id) * nat) :=
  let* this := SpatialGridBroadPhase.new exampleOptions in
  let* this := SpatialGridBroadPhase.update entities this in
  let* r := SpatialGridBroadPhase.queryPairs this in
  ret (idPair <$> r.1, SpatialGridBroadPhase.collisionTests r.2).

(** ** Further vocabulary *)

(** The point [(px, py)] lies in the closed box [a]. *)
Definition inBox (px py : Q) (a : AABB) : Prop :=
  (a.(min).(x) <= px)%Q /\ (px <= a.(max).(x))%Q /\
  (a.(min).(y) <= py)%Q /\ (py <= a.(max).(y))%Q.

(** The box [outer] contains the box [inner]. *)
Definition containsBox (outer inner : AABB) : Prop :=
  (outer.(min).(x) <= inner.(min).(x))%Q /\
  (inner.(max).(x) <= outer.(max).(x))%Q /\
  (outer.(min).(y) <= inner.(min).(y))%Q /\
  (inner.(max).(y) <= outer.(max).(y))%Q.

(** What holds of the counter after [testPair] has run on the pairs [done],
    from an empty cache: it counts a list of tested pairs, all from [done]
    and with both keys in the cache, no unordered id pair twice, and the
    result is made of the overlapping ones among them. *)
Definition testedInvariant (done : list (Entity * Entity))
  (st : SpatialGridBroadPhase.Locals) : Prop :=
  exists tested : list (Entity * Entity),
    SpatialGridBroadPhase.tests st = length tested /\
    SpatialGridBroadPhase.pairs st = filter overlapping tested /\
    (forall p, p ∈ tested ->
       p ∈ done /\
       SpatialGridBroadPhase.isChecked (SpatialGridBroadPhase.checked st)
         (SpatialGridBroadPhase.pairKey p.1 p.2) = true /\
       SpatialGridBroadPhase.isChecked (SpatialGridBroadPhase.checked st)
         (SpatialGridBroadPhase.pairKey p.2 p.1) = true) /\
    noDuplicatePairs tested.

(** ** The demo script (third part of index.ts) *)

(** The order of [Array.prototype.sort()] on strings: character by
    character, by character code. A string here is the UTF-8 text and is
    compared byte by byte, where [sort()] compares UTF-16 code units: the
    two orders agree unless a character beyond U+FFFF meets one from U+E000
    to U+FFFF. *)
Definition stringLe (s t : string) : Prop := String.leb s t = true.

#[global] Instance stringLe_dec s t : Decision (stringLe s t).
Proof. unfold stringLe. apply _. Defined.

(** [strings.sort()]: the strings in the order [stringLe], which leaves one
    result only. *)
Definition sortStrings (strings : list string) : list string :=
  merge_sort stringLe strings.

(** An array element in a template literal. *)
Definition templateElement (o : option string) : string :=
  default "undefined" o.

(** The body of the [map] of [normalizePairs]. *)
Definition normalizePair (p : Entity * Entity) : string :=
  let ids := sortStrings [idToString (id p.1); idToString (id p.2)] in
  templateElement (ids !! 0%nat) +:+ ":" +:+ templateElement (ids !! 1%nat).

Definition normalizePairs (pairs : list (Entity * Entity)) : list string :=
  sortStrings (normalizePair <$> pairs).

(** The loop of [comparePairSets]; the second component holds the lines
    written with [console.error]. *)
Fixpoint compareElements (normalized1 normalized2 : list string)
  (label1 label2 : string) (indices : list nat) : bool * list string :=
  match indices with
  | [] => (true, [])
  | i :: indices' =>
      if decide (normalized1 !! i = normalized2 !! i)
      then compareElements normalized1 normalized2 label1 label2 indices'
      else (false,
            ["❌ Pair mismatch at index " +:+ pretty i +:+ ": " +:+ label1
             +:+ " has " +:+ templateElement (normalized1 !! i) +:+ ", "
             +:+ label2 +:+ " has " +:+ templateElement (normalized2 !! i)])
  end.

Definition comparePairSets (pairs1 pairs2 : list (Entity * Entity))
  (label1 label2 : string) : bool * list string :=
  let normalized1 := normalizePairs pairs1 in
  let normalized2 := normalizePairs pairs2 in
  if decide (length normalized1 = length normalized2)
  then compareElements normalized1 normalized2 label1 label2
         (seq 0 (length normalized1))
  else (false,
        ["❌ Pair count mismatch: " +:+ label1 +:+ " found "
         +:+ pretty (length normalized1) +:+ ", " +:+ label2 +:+ " found "
         +:+ pretty (length normalized2)]).

Section RandomEntities.

(** [random n] is what the call number [n] of [Math.random()] returns; the
    functions below take the number of the next call and return it
    advanced. *)
Variable random : nat -> Q.

Definition createRandomAABB (minX minY maxX maxY : Q)
  (minSize maxSize : option Q) (n : nat) : AABB * nat :=
  let minSize := default 10%Q minSize in
  let maxSize := default 50%Q maxSize in
  let width := (minSize + random n * (maxSize - minSize))%Q in
  let height := (minSize + random (n + 1) * (maxSize - minSize))%Q in
  let x := (minX + random (n + 2) * (maxX - minX - width))%Q in
  let y := (minY + random (n + 3) * (maxY - minY - height))%Q in
  ({| min := {| x := x; y := y |};
      max := {| x := (x + width)%Q; y := (y + height)%Q |} |},
   (n + 4)%nat).

Definition createRandomEntities (count : Z) (worldWidth worldHeight : Q)
  (n : nat) : list Entity * nat :=
  foldl (fun (st : list Entity * nat) (i : Z) =>
           let (box, n') :=
             createRandomAABB 0 0 worldWidth worldHeight None None st.2 in
           (st.1 ++ [ {| id := IdNum i; aabb := box |} ], n'))
    ([], n) (seqZ 0 count).

End RandomEntities.

(** The draws of [Math.random()] lie in [0, 1). *)
Definition unitRandom (random : nat -> Q) : Prop :=
  forall n, (0 <= random n)%Q /\ (random n < 1)%Q.

(** The box lies in the world [0 .. worldWidth] by [0 .. worldHeight]. *)
Definition inWorld (worldWidth worldHeight : Q) (a : AABB) : Prop :=
  (0 <= a.(min).(x))%Q /\ (a.(max).(x) <= worldWidth)%Q /\
  (0 <= a.(min).(y))%Q /\ (a.(max).(y) <= worldHeight)%Q.


(** The detector the constructor builds from [demoOptions]. *)
Definition demoGrid : SpatialGridBroadPhase.t :=
  {| SpatialGridBroadPhase.cellSize := 64;
     SpatialGridBroadPhase.minX := 0;
     SpatialGridBroadPhase.minY := 0;
     SpatialGridBroadPhase.maxX := 1024;
     SpatialGridBroadPhase.maxY := 768;
     SpatialGridBroadPhase.numCols := 16;
     SpatialGridBroadPhase.numRows := 12;
     SpatialGridBroadPhase.grid := gridOf 16 12 (fun _ _ => []);
     SpatialGridBroadPhase._collisionTests := 0 |}.

(** A sequence of draws in [0, 1): 0, 0.1, ..., 0.9, 0, 0.1, ... *)
Definition tenths (n : nat) : Q := (Z.of_nat n mod 10) # 10.

(** ** web/main.ts: the simulation behind the animation *)

Module SimEntity.

(** An [Entity] with a velocity. *)
Record t := mk { id : Id; aabb : AABB; vx : Q; vy : Q }.

(** The entity as the detectors see it. *)
Definition toEntity (entity : t) : Entity :=
  mkEntity entity.(id) entity.(aabb).

End SimEntity.

Module Star.

Record t := mk {
  x : Q;
  y : Q;
  radius : Q;
  twinklePhase : Q;
  depth : Q;
  alpha : Q
}.

End Star.

Module Asteroid.

Record t := mk {
  radius : Q;
  angle : Q;
  speed : Q;
  distance : Q;
  size : Q
}.

End Asteroid.

Module Web.

Definition WORLD_WIDTH : Q := 1024.
Definition WORLD_HEIGHT : Q := 768.
Definition CELL_SIZE : Q := 64.
Definition MIN_ENTITY_SIZE : Q := 10.
Definition MAX_ENTITY_SIZE : Q := 50.
Definition MAX_VELOCITY : Q := 5 # 2.
Definition BRUTE_FORCE_UPDATE_INTERVAL : Z := 10.

(** The variables of the script that [createEntities] and
    [updateSimulation] read or write. [collisionPairs] and the detectors
    hold entities as the detector saw them at its last [update]. *)
Record State := mkState {
  entities : list SimEntity.t;
  stars : list Star.t;
  asteroids : list Asteroid.t;
  collisionPairs : list (Entity * Entity);
  spatialGrid : SpatialGridBroadPhase.t;
  bruteForce : BruteForceBroadPhase.t;
  bruteForceTests : nat;
  gridTests : nat;
  bruteForceFrameCounter : Z
}.

(** The body of the loop over the entities in [updateSimulation]. *)
Definition moveEntity (entity : SimEntity.t) : SimEntity.t :=
  let a := SimEntity.aabb entity in
  let vx := SimEntity.vx entity in
  let vy := SimEntity.vy entity in
  let minX := (a.(min).(x) + vx)%Q in
  let minY := (a.(min).(y) + vy)%Q in
  let maxX := (a.(max).(x) + vx)%Q in
  let maxY := (a.(max).(y) + vy)%Q in
  let '(vx, minX, maxX) :=
    if Qltb minX 0 || Qltb WORLD_WIDTH maxX then
      let vx := (- vx)%Q in
      let minX := Qmax 0 (Qmin (WORLD_WIDTH - (maxX - minX)) minX) in
      let maxX := (minX + (maxX - minX))%Q in
      (vx, minX, maxX)
    else (vx, minX, maxX) in
  let '(vy, minY, maxY) :=
    if Qltb minY 0 || Qltb WORLD_HEIGHT maxY then
      let vy := (- vy)%Q in
      let minY := Qmax 0 (Qmin (WORLD_HEIGHT - (maxY - minY)) minY) in
      let maxY := (minY + (maxY - minY))%Q in
      (vy, minY, maxY)
    else (vy, minY, maxY) in
  {| SimEntity.id := SimEntity.id entity;
     SimEntity.aabb := {| min := {| x := minX; y := minY |};
                          max := {| x := maxX; y := maxY |} |};
     SimEntity.vx := vx;
     SimEntity.vy := vy |}.

Section Simulation.

(** [Math.sin]. *)
Variable sin : Q -> Q.

(** [random n] is what the call number [n] of [Math.random()] returns. *)
Variable random : nat -> Q.

Definition createEntities (count : Z) (s : State) (n : nat)
  : Result (State * nat) :=
  let (entities, n) :=
    foldl (fun (st : list SimEntity.t * nat) (i : Z) =>
             let n := st.2 in
             let width := (MIN_ENTITY_SIZE
                           + random n * (MAX_ENTITY_SIZE - MIN_ENTITY_SIZE))%Q in
             let height := (MIN_ENTITY_SIZE
                            + random (n + 1)
                              * (MAX_ENTITY_SIZE - MIN_ENTITY_SIZE))%Q in
             let x := (random (n + 2) * (WORLD_WIDTH - width))%Q in
             let y := (random (n + 3) * (WORLD_HEIGHT - height))%Q in
             (st.1 ++ [ {| SimEntity.id := IdNum i;
                           SimEntity.aabb :=
                             {| min := {| x := x; y := y |};
                                max := {| x := (x + width)%Q;
                                          y := (y + height)%Q |} |};
                           SimEntity.vx :=
                             ((random (n + 4) - (1 # 2)) * MAX_VELOCITY * 2)%Q;
                           SimEntity.vy :=
                             ((random (n + 5) - (1 # 2)) * MAX_VELOCITY * 2)%Q
                        |} ],
              (n + 6)%nat))
      ([], n) (seqZ 0 count) in
  let* spatialGrid :=
    SpatialGridBroadPhase.update (SimEntity.toEntity <$> entities)
      s.(spatialGrid) in
  let bruteForce :=
    BruteForceBroadPhase.update (SimEntity.toEntity <$> entities)
      s.(bruteForce) in
  ret ({| entities := entities; stars := s.(stars);
          asteroids := s.(asteroids); collisionPairs := s.(collisionPairs);
          spatialGrid := spatialGrid; bruteForce := bruteForce;
          bruteForceTests := s.(bruteForceTests);
          gridTests := s.(gridTests);
          bruteForceFrameCounter := s.(bruteForceFrameCounter) |}, n).

Definition updateSimulation (s : State) : Result State :=
  let entities := moveEntity <$> s.(entities) in
  let* spatialGrid :=
    SpatialGridBroadPhase.update (SimEntity.toEntity <$> entities)
      s.(spatialGrid) in
  let* queried := SpatialGridBroadPhase.queryPairs spatialGrid in
  let collisionPairs := queried.1 in
  let spatialGrid := queried.2 in
  let gridTests := SpatialGridBroadPhase.collisionTests spatialGrid in
  let bruteForceFrameCounter := s.(bruteForceFrameCounter) + 1 in
  let* brute :=
    if BRUTE_FORCE_UPDATE_INTERVAL <=? bruteForceFrameCounter then
      let bruteForce :=
        BruteForceBroadPhase.update (SimEntity.toEntity <$> entities)
          s.(bruteForce) in
      let* queried := BruteForceBroadPhase.queryPairs bruteForce in
      let bruteForce := queried.2 in
      ret (bruteForce, BruteForceBroadPhase.collisionTests bruteForce, 0)
    else ret (s.(bruteForce), s.(bruteForceTests), bruteForceFrameCounter) in
  let stars :=
    (fun star : Star.t =>
       let twinklePhase := (Star.twinklePhase star + (5 # 100))%Q in
       {| Star.x := Star.x star; Star.y := Star.y star;
          Star.radius := Star.radius star;
          Star.twinklePhase := twinklePhase;
          Star.depth := Star.depth star;
          Star.alpha := ((5 # 10) + sin twinklePhase * (3 # 10))%Q |})
      <$> s.(stars) in
  let asteroids :=
    (fun asteroid : Asteroid.t =>
       {| Asteroid.radius := Asteroid.radius asteroid;
          Asteroid.angle := (Asteroid.angle asteroid
                             + Asteroid.speed asteroid)%Q;
          Asteroid.speed := Asteroid.speed asteroid;
          Asteroid.distance := Asteroid.distance asteroid;
          Asteroid.size := Asteroid.size asteroid |})
      <$> s.(asteroids) in
  ret {| entities := entities; stars := stars; asteroids := asteroids;
         collisionPairs := collisionPairs; spatialGrid := spatialGrid;
         bruteForce := brute.1.1; bruteForceTests := brute.1.2;
         gridTests := gridTests; bruteForceFrameCounter := brute.2 |}.

(** [k] calls of [updateSimulation] in a row. *)
Fixpoint frames (k : nat) (s : State) : Result State :=
  match k with
  | O => ret s
  | Datatypes.S k' => let* s' := updateSimulation s in frames k' s'
  end.

End Simulation.

(** The configuration [init] gives the grid detector. *)
Definition options : SpatialGridOptions.t :=
  {| SpatialGridOptions.cellSize := CELL_SIZE;
     SpatialGridOptions.minX := Some 0%Q;
     SpatialGridOptions.minY := Some 0%Q;
     SpatialGridOptions.maxX := WORLD_WIDTH;
     SpatialGridOptions.maxY := WORLD_HEIGHT |}.

End Web.

(** Two entities of the page, the first about to bounce off the left
    edge. *)
Definition exampleSimEntities : list SimEntity.t :=
  [ {| SimEntity.id := IdNum 0; SimEntity.aabb := box 1 5 21 25;
       SimEntity.vx := -2; SimEntity.vy := 1 |};
    {| SimEntity.id := IdNum 1; SimEntity.aabb := box 15 20 40 40;
       SimEntity.vx := 1; SimEntity.vy := -1 |} ].

(** A state of the page with these entities, a star and an asteroid, one
    frame before the run of the brute-force detector. *)
Definition exampleState : Web.State :=
  {| Web.entities := exampleSimEntities;
     Web.stars :=
       [ {| Star.x := 100; Star.y := 50; Star.radius := 1;
            Star.twinklePhase := 0; Star.depth := 1 # 2; Star.alpha := 1 |} ];
     Web.asteroids :=
       [ {| Asteroid.radius := 300; Asteroid.angle := 0;
            Asteroid.speed := 1 # 100; Asteroid.distance := 300;
            Asteroid.size := 3 |} ];
     Web.collisionPairs := [];
     Web.spatialGrid := demoGrid;
     Web.bruteForce :=
       BruteForceBroadPhase.update (SimEntity.toEntity <$> exampleSimEntities)
         BruteForceBroadPhase.new;
     Web.bruteForceTests := 0;
     Web.gridTests := 0;
     Web.bruteForceFrameCounter := 9 |}.

(** ** Double arithmetic *)

(** A finite double is a rational, and an operation on doubles is the
    operation on rationals followed by [round], the rounding of IEEE 754
    binary64 to the nearest double, ties to the even significand, with
    gradual underflow. Results beyond the largest double, for which the
    code gives [Infinity], are not modelled. *)

Definition pow2 (e : Z) : Q := (2 ^ e)%Q.

(** The binade of a positive number: [pow2 (ilog2 q) <= q < pow2 (ilog2 q + 1)]. *)
Definition ilog2 (q : Q) : Z :=
  let k := Z.log2 (Qnum q) - Z.log2 (Zpos (Qden q)) in
  if Qle_bool (pow2 k) q then k else k - 1.

(** The nearest integer, the even one at a tie. *)
Definition rne (q : Q) : Z :=
  let f := Qfloor q in
  match (q - inject_Z f ?= 1 # 2)%Q with
  | Lt => f
  | Eq => if Z.even f then f else f + 1
  | Gt => f + 1
  end.

(** A positive number rounded to 53 significant bits, or to a multiple of
    [pow2 (-1074)] in the subnormal range. *)
Definition roundPos (q : Q) : Q :=
  let e := Z.max (ilog2 q - 52) (-1074) in
  (inject_Z (rne (q / pow2 e)) * pow2 e)%Q.

Definition round (q : Q) : Q :=
  match (q ?= 0)%Q with
  | Eq => 0%Q
  | Gt => roundPos q
  | Lt => (- roundPos (- q))%Q
  end.

(** [p + q], [p - q] and [p / q] on doubles. *)
Definition fadd (p q : Q) : Q := round (p + q).

Definition fsub (p q : Q) : Q := round (p - q).

Definition fdiv (p q : Q) : Q := round (p / q).

(** ** spatial-grid.ts in double arithmetic *)

(** The constructor, [worldToGrid] and [update] with the rounding of their
    subtractions and divisions; the rest of the class does no arithmetic on
    coordinates and is shared with [SpatialGridBroadPhase]. *)
Module Double.

Import SpatialGridBroadPhase.

Definition new (options : SpatialGridOptions.t) : Result t :=
  if Qleb options.(SpatialGridOptions.cellSize) 0
  then throw (ThrownError "cellSize must be greater than 0")
  else if Qleb options.(SpatialGridOptions.maxX)
               (orZero options.(SpatialGridOptions.minX))
  then throw (ThrownError "maxX must be greater than minX")
  else if Qleb options.(SpatialGridOptions.maxY)
               (orZero options.(SpatialGridOptions.minY))
  then throw (ThrownError "maxY must be greater than minY")
  else
    let cellSize := options.(SpatialGridOptions.cellSize) in
    let minX := orZero options.(SpatialGridOptions.minX) in
    let minY := orZero options.(SpatialGridOptions.minY) in
    let maxX := options.(SpatialGridOptions.maxX) in
    let maxY := options.(SpatialGridOptions.maxY) in
    let numCols := Qceiling (fdiv (fsub maxX minX) cellSize) in
    let numRows := Qceiling (fdiv (fsub maxY minY) cellSize) in
    let* grid := forRange 0 numCols (fun col grid =>
              let* grid := arraySet grid col [] in
              forRange 0 numRows (fun row grid => setCell grid col row [])
                grid) [] in
    ret {| cellSize := cellSize; minX := minX; minY := minY;
           maxX := maxX; maxY := maxY;
           numCols := numCols; numRows := numRows;
           grid := grid; _collisionTests := 0 |}.

Definition worldToGrid (this : t) (x y : Q) : Cell :=
  let col := Qfloor (fdiv (fsub x this.(minX)) this.(cellSize)) in
  let row := Qfloor (fdiv (fsub y this.(minY)) this.(cellSize)) in
  {| col := Z.max 0 (Z.min col (this.(numCols) - 1));
     row := Z.max 0 (Z.min row (this.(numRows) - 1)) |}.

(** The body of the population loop of [update], for one entity. *)
Definition insertEntity (this : t) (entity : Entity)
  (grid : list (list (list Entity))) : Result (list (list (list Entity))) :=
  let aabb := entity.(aabb) in
  let minCell := worldToGrid this aabb.(min).(x) aabb.(min).(y) in
  let maxCell := worldToGrid this aabb.(max).(x) aabb.(max).(y) in
  forRange minCell.(col) (maxCell.(col) + 1) (fun col grid =>
    forRange minCell.(row) (maxCell.(row) + 1) (fun row grid =>
      pushCell grid col row entity) grid) grid.

Definition update (entities : list Entity) (this : t) : Result t :=
  let* grid := clearGrid this this.(grid) in
  let* grid := forEach (insertEntity this) entities grid in
  ret {| cellSize := this.(cellSize); minX := this.(minX);
         minY := this.(minY); maxX := this.(maxX); maxY := this.(maxY);
         numCols := this.(numCols); numRows := this.(numRows);
         grid := grid; _collisionTests := this.(_collisionTests) |}.

(** The states of a detector built from [options]. *)
Inductive Reachable (options : SpatialGridOptions.t) : t -> Prop :=
| Reachable_new this :
    new options = inr this ->
    Reachable options this
| Reachable_update this entities this' :
    Reachable options this ->
    update entities this = inr this' ->
    Reachable options this'
| Reachable_queryPairs this pairs this' :
    Reachable options this ->
    queryPairs this = inr (pairs, this') ->
    Reachable options this'.

(** The cell [(c, r)] lies in the rectangle of cells [update] gives to
    [entity]. *)
Definition covers (this : t) (c r : Z) (entity : Entity) : Prop :=
  let a := entity.(aabb) in
  let minCell := worldToGrid this a.(min).(x) a.(min).(y) in
  let maxCell := worldToGrid this a.(max).(x) a.(max).(y) in
  (minCell.(col) <= c <= maxCell.(col)) /\ (minCell.(row) <= r <= maxCell.(row)).

#[global] Instance covers_dec this c r entity : Decision (covers this c r entity).
Proof. unfold covers. apply _. Defined.

(** The grid [update] leaves for a snapshot. *)
Definition populatedGrid (this : t) (entities : list Entity)
  : list (list (list Entity)) :=
  gridOf this.(numCols) this.(numRows)
    (fun c r => filter (covers this c r) entities).

(** The locals of [queryPairs] at its end, on that grid. *)
Definition gridResult (this : t) (entities : list Entity) : Locals :=
  runCandidates (candidates (populatedGrid this entities))
    {| pairs := []; checked := ∅; tests := 0 |}.

(** What holds of every state of a detector built from [options]: the
    configuration is the one given, with a positive cell size and bounds in
    order; the dimensions are those the constructor computed; and a grid
    with at least one column and one row has its shape. *)
Definition gridInvariant (options : SpatialGridOptions.t) (this : t) : Prop :=
  this.(cellSize) = options.(SpatialGridOptions.cellSize) /\
  this.(minX) = orZero options.(SpatialGridOptions.minX) /\
  this.(minY) = orZero options.(SpatialGridOptions.minY) /\
  this.(maxX) = options.(SpatialGridOptions.maxX) /\
  this.(maxY) = options.(SpatialGridOptions.maxY) /\
  this.(numCols)
    = Qceiling (fdiv (fsub this.(maxX) this.(minX)) this.(cellSize)) /\
  this.(numRows)
    = Qceiling (fdiv (fsub this.(maxY) this.(minY)) this.(cellSize)) /\
  validOptions options /\
  (1 <= this.(numCols) -> 1 <= this.(numRows) ->
   exists f, this.(grid) = gridOf this.(numCols) this.(numRows) f).

End Double.

(** ** web/main.ts in double arithmetic *)

Module DoubleWeb.

(** The body of the loop over the entities in [updateSimulation], with the
    rounding of its sums and differences. *)
Definition moveEntity (entity : SimEntity.t) : SimEntity.t :=
  let a := SimEntity.aabb entity in
  let vx := SimEntity.vx entity in
  let vy := SimEntity.vy entity in
  let minX := fadd a.(min).(x) vx in
  let minY := fadd a.(min).(y) vy in
  let maxX := fadd a.(max).(x) vx in
  let maxY := fadd a.(max).(y) vy in
  let '(vx, minX, maxX) :=
    if Qltb minX 0 || Qltb Web.WORLD_WIDTH maxX then
      let vx := (- vx)%Q in
      let minX :=
        Qmax 0 (Qmin (fsub Web.WORLD_WIDTH (fsub maxX minX)) minX) in
      let maxX := fadd minX (fsub maxX minX) in
      (vx, minX, maxX)
    else (vx, minX, maxX) in
  let '(vy, minY, maxY) :=
    if Qltb minY 0 || Qltb Web.WORLD_HEIGHT maxY then
      let vy := (- vy)%Q in
      let minY :=
        Qmax 0 (Qmin (fsub Web.WORLD_HEIGHT (fsub maxY minY)) minY) in
      let maxY := fadd minY (fsub maxY minY) in
      (vy, minY, maxY)
    else (vy, minY, maxY) in
  {| SimEntity.id := SimEntity.id entity;
     SimEntity.aabb := {| min := {| x := minX; y := minY |};
                          max := {| x := maxX; y := maxY |} |};
     SimEntity.vx := vx;
     SimEntity.vy := vy |}.

End DoubleWeb.

(** A valid configuration whose extent in cells rounds to zero: the cell
    size is the double [1e200], [maxX] and [maxY] the double [1e-200]. *)
Definition underflowOptions : SpatialGridOptions.t :=
  {| SpatialGridOptions.cellSize := round (10 ^ 200);
     SpatialGridOptions.minX := None;
     SpatialGridOptions.minY := None;
     SpatialGridOptions.maxX := round (/ 10 ^ 200);
     SpatialGridOptions.maxY := round (/ 10 ^ 200) |}.

(** The detector the constructor returns for it: no column, no row. *)
Definition underflowGrid : SpatialGridBroadPhase.t :=
  {| SpatialGridBroadPhase.cellSize := round (10 ^ 200);
     SpatialGridBroadPhase.minX := 0;
     SpatialGridBroadPhase.minY := 0;
     SpatialGridBroadPhase.maxX := round (/ 10 ^ 200);
     SpatialGridBroadPhase.maxY := round (/ 10 ^ 200);
     SpatialGridBroadPhase.numCols := 0;
     SpatialGridBroadPhase.numRows := 0;
     SpatialGridBroadPhase.grid := [];
     SpatialGridBroadPhase._collisionTests := 0 |}.

(** A configuration whose extent in cells is rounded: the cell size is the
    double [0.3], [maxX] and [maxY] the double [0.9]. The quotient of the
    two doubles lies above 3, and the machine rounds it to 3. *)
Definition roundedOptions : SpatialGridOptions.t :=
  {| SpatialGridOptions.cellSize := round (3 # 10);
     SpatialGridOptions.minX := None;
     SpatialGridOptions.minY := None;
     SpatialGridOptions.maxX := round (9 # 10);
     SpatialGridOptions.maxY := round (9 # 10) |}.

(** The detector the constructor returns for it: three columns of three
    cells. *)
Definition roundedGrid : SpatialGridBroadPhase.t :=
  {| SpatialGridBroadPhase.cellSize := round (3 # 10);
     SpatialGridBroadPhase.minX := 0;
     SpatialGridBroadPhase.minY := 0;
     SpatialGridBroadPhase.maxX := round (9 # 10);
     SpatialGridBroadPhase.maxY := round (9 # 10);
     SpatialGridBroadPhase.numCols := 3;
     SpatialGridBroadPhase.numRows := 3;
     SpatialGridBroadPhase.grid := gridOf 3 3 (fun _ _ => []);
     SpatialGridBroadPhase._collisionTests := 0 |}.

(** ** Proof automation *)

(** Equalities between cells given by case distinctions on indices. *)
Ltac solve_cells :=
  repeat case_bool_decide; try reflexivity; try (exfalso; lia).

(** ** Facts about numbers *)

Lemma Qltb_lt p q : Qltb p q = true <-> (p < q)%Q.
Proof.
  unfold Qltb. rewrite negb_true_iff, <- not_true_iff_false, Qle_bool_iff.
  split; [apply Qnot_le_lt | apply Qlt_not_le].
Qed.

Lemma Qltb_ge p q : Qltb p q = false <-> (q <= p)%Q.
Proof.
  unfold Qltb. rewrite negb_false_iff. apply Qle_bool_iff.
Qed.

Lemma Qleb_le p q : Qleb p q = true <-> (p <= q)%Q.
Proof. apply Qle_bool_iff. Qed.

(** ** The overlap predicate *)

Lemma aabbIntersects_false a b : aabbIntersects a b = false <-> separated a b.
Proof.
  unfold aabbIntersects, separated.
  destruct (Qltb (x (max a)) (x (min b))) eqn:E1;
    destruct (Qltb (x (max b)) (x (min a))) eqn:E2;
    destruct (Qltb (y (max a)) (y (min b))) eqn:E3;
    destruct (Qltb (y (max b)) (y (min a))) eqn:E4; simpl;
    rewrite ?Qltb_lt, ?Qltb_ge in *;
    try (split; [intros _; tauto | reflexivity]).
  split; [discriminate|].
  intros [H|[H|[H|H]]]; exfalso; eapply Qlt_not_le; eauto.
Qed.

Lemma aabbIntersects_true a b :
  aabbIntersects a b = true <->
  (b.(min).(x) <= a.(max).(x))%Q /\ (a.(min).(x) <= b.(max).(x))%Q /\
  (b.(min).(y) <= a.(max).(y))%Q /\ (a.(min).(y) <= b.(max).(y))%Q.
Proof.
  unfold aabbIntersects.
  destruct (Qltb (x (max a)) (x (min b))) eqn:E1;
    destruct (Qltb (x (max b)) (x (min a))) eqn:E2;
    destruct (Qltb (y (max a)) (y (min b))) eqn:E3;
    destruct (Qltb (y (max b)) (y (min a))) eqn:E4; simpl;
    rewrite ?Qltb_lt, ?Qltb_ge in *;
    try (split; [discriminate | intros (?&?&?&?); exfalso; eapply Qlt_not_le; eauto; fail]).
  tauto.
Qed.

(** C2: [aabbIntersects a b] is [false] exactly when one of the four strict
    separations holds and [true] otherwise; boxes that merely touch along an
    edge are reported as intersecting. *)
Theorem aabbIntersects_spec (a b : AABB) :
  (aabbIntersects a b = false <-> separated a b) /\
  (aabbIntersects a b = true <-> ~ separated a b) /\
  (touching a b -> aabbIntersects a b = true).
Proof.
  pose proof (aabbIntersects_false a b) as Hf.
  assert (aabbIntersects a b = true <-> ~ separated a b) as Ht.
  { rewrite <- Hf. destruct (aabbIntersects a b); split; congruence. }
  split; [exact Hf|]. split; [exact Ht|].
  intros [_ Hns]. now apply Ht.
Qed.

(** C8: the overlap predicate is symmetric. *)
Theorem aabbIntersects_sym (a b : AABB) :
  aabbIntersects a b = aabbIntersects b a.
Proof.
  unfold aabbIntersects.
  rewrite (orb_comm (Qltb (x (max a)) (x (min b)))).
  rewrite (orb_comm (Qltb (y (max a)) (y (min b)))).
  reflexivity.
Qed.

(** ** Reasoning about the loops *)

Section Loops.

Context {I S : Type}.

(** A loop whose body keeps an invariant [P], indexed by the items already
    processed, runs to its end and establishes [P] for all the items. *)
Lemma forEach_inv (P : list I -> S -> Prop) (body : I -> S -> Result S)
  (items : list I) (s : S) :
  P [] s ->
  (forall done i rest s, items = done ++ i :: rest -> P done s ->
     exists s', body i s = inr s' /\ P (done ++ [i]) s') ->
  exists s', forEach body items s = inr s' /\ P items s'.
Proof.
  revert P s. induction items as [|i items IH]; intros P s H0 Hstep.
  - exists s. split; [reflexivity | exact H0].
  - destruct (Hstep [] i items s eq_refl H0) as (s1 & E & H1).
    simpl. rewrite E. simpl.
    apply (IH (fun done => P (i :: done)) s1 H1).
    intros done j rest s2 -> H2.
    apply (Hstep (i :: done) j rest s2 eq_refl H2).
Qed.

End Loops.

Section Ranges.

Context {S : Type}.

Lemma forRange_empty (lo hi : Z) (body : Z -> S -> Result S) (s : S) :
  hi <= lo -> forRange lo hi body s = inr s.
Proof. intros H. unfold forRange. now rewrite seqZ_nil by lia. Qed.

(** The invariant rule for a counting loop: [P i] holds before the
    iteration at [i]. *)
Lemma forRange_inv (P : Z -> S -> Prop) (lo hi : Z)
  (body : Z -> S -> Result S) (s : S) :
  lo <= hi ->
  P lo s ->
  (forall i s, lo <= i < hi -> P i s ->
     exists s', body i s = inr s' /\ P (i + 1) s') ->
  exists s', forRange lo hi body s = inr s' /\ P hi s'.
Proof.
  intros Hle H0 Hstep. unfold forRange.
  destruct (forEach_inv (fun done s => P (lo + Z.of_nat (length done)) s)
              body (seqZ lo (hi - lo)) s) as (s' & E & H').
  - simpl. now rewrite Z.add_0_r.
  - intros done i rest s1 Hsplit H1.
    assert (seqZ lo (hi - lo) !! length done = Some i) as Hi.
    { rewrite Hsplit. rewrite lookup_app_r by lia.
      now rewrite Nat.sub_diag. }
    apply lookup_seqZ in Hi as [-> Hlt].
    destruct (Hstep (lo + Z.of_nat (length done)) s1) as (s2 & E2 & H2);
      [lia | exact H1 |].
    exists s2. split; [exact E2|].
    rewrite length_app. simpl.
    replace (lo + Z.of_nat (length done + 1)) with (lo + Z.of_nat (length done) + 1)
      by lia.
    exact H2.
  - exists s'. split; [exact E|].
    rewrite length_seqZ in H'.
    replace (lo + Z.of_nat (Z.to_nat (hi - lo))) with hi in H' by lia.
    exact H'.
Qed.

End Ranges.

(** ** Arrays *)

Section Arrays.

Context {A : Type}.

Lemma arrayGet_nat (l : list A) (i : nat) : arrayGet l (Z.of_nat i) = l !! i.
Proof.
  unfold arrayGet. destruct (Z.ltb_spec (Z.of_nat i) 0); [lia|].
  now rewrite Nat2Z.id.
Qed.

Lemma arrayGet_tabulate (g : Z -> A) (n i : Z) :
  0 <= i < n -> arrayGet (g <$> seqZ 0 n) i = Some (g i).
Proof.
  intros H. unfold arrayGet. destruct (Z.ltb_spec i 0); [lia|].
  rewrite list_lookup_fmap, lookup_seqZ_lt by lia.
  simpl. f_equal. f_equal. lia.
Qed.

Lemma tabulate_ext (g h : Z -> A) (n : Z) :
  (forall i, 0 <= i < n -> g i = h i) -> g <$> seqZ 0 n = h <$> seqZ 0 n.
Proof.
  intros H. apply list_fmap_ext. intros k i Hi.
  apply lookup_seqZ in Hi. apply H. lia.
Qed.

Lemma arraySet_tabulate (g : Z -> A) (n i : Z) (v : A) :
  0 <= i < n ->
  arraySet (g <$> seqZ 0 n) i v
  = inr ((fun j => if bool_decide (j = i) then v else g j) <$> seqZ 0 n).
Proof.
  intros H. unfold arraySet.
  rewrite length_fmap, length_seqZ.
  destruct (Z.leb_spec 0 i); [|lia].
  destruct (Z.ltb_spec i (Z.of_nat (Z.to_nat n))); [|lia]. simpl.
  unfold ret. f_equal. apply list_eq. intros k.
  destruct (decide (k = Z.to_nat i)) as [->|Hne].
  - rewrite list_lookup_insert_eq by (rewrite length_fmap, length_seqZ; lia).
    rewrite list_lookup_fmap, lookup_seqZ_lt by lia. simpl.
    rewrite bool_decide_eq_true_2 by lia. reflexivity.
  - rewrite list_lookup_insert_ne by congruence.
    rewrite !list_lookup_fmap.
    destruct (seqZ 0 n !! k) as [j|] eqn:Hj; [|reflexivity]. simpl.
    apply lookup_seqZ in Hj.
    rewrite bool_decide_eq_false_2 by lia. reflexivity.
Qed.

(** Assigning at the index [length] appends. *)
Lemma arraySet_push (g : Z -> A) (n : Z) (v : A) :
  0 <= n ->
  arraySet (g <$> seqZ 0 n) n v
  = inr ((fun j => if bool_decide (j = n) then v else g j) <$> seqZ 0 (n + 1)).
Proof.
  intros H. unfold arraySet.
  rewrite length_fmap, length_seqZ.
  destruct (Z.ltb_spec n (Z.of_nat (Z.to_nat n))); [lia|].
  rewrite andb_false_r.
  destruct (Z.eqb_spec n (Z.of_nat (Z.to_nat n))); [|lia].
  unfold ret. f_equal.
  rewrite seqZ_app, fmap_app by lia.
  rewrite (seqZ_cons _ 1) by lia. rewrite (seqZ_nil _ (Z.pred 1)) by lia. simpl.
  rewrite bool_decide_eq_true_2 by lia. f_equal.
  apply list_fmap_ext. intros k j Hj. apply lookup_seqZ in Hj.
  rewrite bool_decide_eq_false_2 by lia. reflexivity.
Qed.

End Arrays.

(** ** The nested loop over the pairs of an array *)

Section PairLoop.

Context {A St : Type}.

Lemma orderedPairs_length (l : list A) :
  (2 * length (orderedPairs l) = length l * (length l - 1))%nat.
Proof.
  induction l as [|a l IH]; [reflexivity|].
  simpl. rewrite length_app, length_fmap. nia.
Qed.

Lemma innerLoop (l : list A) (h : A -> St -> St) (k : nat) (s : St) :
  (k <= length l)%nat ->
  forRange (Z.of_nat k) (Z.of_nat (length l))
    (fun j st => let* b := deref (arrayGet l j) in ret (h b st)) s
  = inr (foldl (fun st b => h b st) s (drop k l)).
Proof.
  unfold forRange.
  remember (length l - k)%nat as n eqn:Hn.
  revert k s Hn. induction n as [|n IH]; intros k s Hn Hk.
  - rewrite seqZ_nil by lia. rewrite drop_ge by lia. reflexivity.
  - destruct (l !! k) as [b|] eqn:Hb;
      [|apply lookup_ge_None in Hb; lia].
    rewrite seqZ_cons by lia. simpl.
    rewrite arrayGet_nat, Hb. simpl.
    rewrite (drop_S _ _ _ Hb). simpl.
    replace (Z.succ (Z.of_nat k)) with (Z.of_nat (S k)) by lia.
    replace (Z.pred (Z.of_nat (length l) - Z.of_nat k))
      with (Z.of_nat (length l) - Z.of_nat (S k)) by lia.
    apply IH; lia.
Qed.

Lemma outerLoop (l : list A) (g : A -> A -> St -> St) (k : nat) (s : St) :
  (k <= length l)%nat ->
  forRange (Z.of_nat k) (Z.of_nat (length l))
    (fun i st =>
       let* a := deref (arrayGet l i) in
       forRange (i + 1) (Z.of_nat (length l))
         (fun j st => let* b := deref (arrayGet l j) in ret (g a b st)) st) s
  = inr (foldl (fun st p => g p.1 p.2 st) s (orderedPairs (drop k l))).
Proof.
  unfold forRange at 1.
  remember (length l - k)%nat as n eqn:Hn.
  revert k s Hn. induction n as [|n IH]; intros k s Hn Hk.
  - rewrite seqZ_nil by lia. rewrite drop_ge by lia. reflexivity.
  - destruct (l !! k) as [a|] eqn:Ha;
      [|apply lookup_ge_None in Ha; lia].
    rewrite seqZ_cons by lia. simpl.
    rewrite arrayGet_nat, Ha. simpl.
    replace (Z.of_nat k + 1) with (Z.of_nat (S k)) by lia.
    rewrite innerLoop by (apply lookup_lt_Some in Ha; lia). simpl.
    replace (Z.succ (Z.of_nat k)) with (Z.of_nat (S k)) by lia.
    replace (Z.pred (Z.of_nat (length l) - Z.of_nat k))
      with (Z.of_nat (length l) - Z.of_nat (S k)) by lia.
    rewrite IH by (apply lookup_lt_Some in Ha; lia).
    rewrite (drop_S _ _ _ Ha). simpl.
    rewrite foldl_app, foldl_fmap. reflexivity.
Qed.

(** The nested loops [for i; for j = i + 1] run the body on the ordered
    pairs of the array. *)
Lemma pairLoop (l : list A) (g : A -> A -> St -> St) (s : St) :
  forRange 0 (Z.of_nat (length l))
    (fun i st =>
       let* a := deref (arrayGet l i) in
       forRange (i + 1) (Z.of_nat (length l))
         (fun j st => let* b := deref (arrayGet l j) in ret (g a b st)) st) s
  = inr (foldl (fun st p => g p.1 p.2 st) s (orderedPairs l)).
Proof. apply (outerLoop l g 0%nat s). lia. Qed.

End PairLoop.

(** ** The brute-force detector *)

Section BruteForce.

Import BruteForceBroadPhase.

Lemma brute_fold (cands : list (Entity * Entity)) (st : Locals) :
  let st' := foldl (fun st p => testPair p.1 p.2 st) st cands in
  pairs st' = pairs st ++ filter overlapping cands /\
  tests st' = (tests st + length cands)%nat.
Proof.
  revert st. induction cands as [|[a b] cands IH]; intros st; simpl.
  - now rewrite app_nil_r, Nat.add_0_r.
  - destruct (IH (testPair a b st)) as [Hp Ht]. simpl in Hp, Ht.
    rewrite Hp, Ht. unfold testPair, filter. simpl.
    destruct (decide (overlapping (a, b))) as [Ho|Ho];
      unfold overlapping in Ho; simpl in Ho.
    + rewrite Ho. simpl. rewrite <- app_assoc. split; [reflexivity | lia].
    + apply not_true_is_false in Ho. rewrite Ho. simpl. split; [reflexivity | lia].
Qed.

(** [queryPairs] always returns: the overlapping ordered pairs of the
    snapshot, and a counter equal to the number of ordered pairs. *)
Lemma brute_queryPairs (this : t) :
  queryPairs this
  = inr (filter overlapping (orderedPairs (_entities this)),
         {| _entities := _entities this;
            _collisionTests := length (orderedPairs (_entities this)) |}).
Proof.
  unfold queryPairs. rewrite pairLoop.
  destruct (brute_fold (orderedPairs (_entities this))
              {| pairs := []; tests := 0 |}) as [Hp Ht].
  simpl in *. rewrite Hp, Ht. reflexivity.
Qed.

End BruteForce.

(** C3: after [update] with [n] entities, one [queryPairs] of the
    brute-force detector leaves [collisionTests] equal to [n * (n - 1) / 2]. *)
Theorem brute_force_test_count (this : BruteForceBroadPhase.t)
  (entities : list Entity) :
  exists pairs this',
    BruteForceBroadPhase.queryPairs
      (BruteForceBroadPhase.update entities this) = inr (pairs, this') /\
    BruteForceBroadPhase.collisionTests this'
    = (length entities * (length entities - 1) / 2)%nat.
Proof.
  eexists _, _. split; [apply brute_queryPairs|].
  unfold BruteForceBroadPhase.collisionTests, BruteForceBroadPhase.update.
  cbn [BruteForceBroadPhase._collisionTests BruteForceBroadPhase._entities].
  pose proof (orderedPairs_length entities) as H.
  rewrite <- H, Nat.mul_comm. symmetry. apply Nat.div_mul. lia.
Qed.

(** ** Cells of a grid *)

Section GridCells.

Import SpatialGridBroadPhase.

Lemma gridOf_ext (nc nr : Z) (f g : Z -> Z -> list Entity) :
  (forall c r, 0 <= c < nc -> 0 <= r < nr -> f c r = g c r) ->
  gridOf nc nr f = gridOf nc nr g.
Proof.
  intros H. unfold gridOf. apply tabulate_ext. intros c Hc.
  apply tabulate_ext. intros r Hr. now apply H.
Qed.

Lemma arrayGet_gridOf (nc nr : Z) (f : Z -> Z -> list Entity) (c : Z) :
  0 <= c < nc -> arrayGet (gridOf nc nr f) c = Some (f c <$> seqZ 0 nr).
Proof. intros H. unfold gridOf. now rewrite arrayGet_tabulate. Qed.

(** Assigning a cell of a column that is being built: the column of [c]
    has [r] cells so far and gets one more. *)
Lemma setCell_extend (nc r c : Z) (cols : Z -> list (list Entity))
  (cell : Z -> list Entity) (v : list Entity) :
  0 <= c < nc -> 0 <= r ->
  cols c = cell <$> seqZ 0 r ->
  setCell (cols <$> seqZ 0 nc) c r v
  = inr ((fun j => if bool_decide (j = c)
                   then (fun k => if bool_decide (k = r) then v else cell k)
                          <$> seqZ 0 (r + 1)
                   else cols j) <$> seqZ 0 nc).
Proof.
  intros Hc Hr Hcol. unfold setCell.
  rewrite arrayGet_tabulate by lia. simpl.
  rewrite Hcol, arraySet_push by lia. simpl.
  now rewrite arraySet_tabulate by lia.
Qed.

Lemma setCell_gridOf (nc nr : Z) (f : Z -> Z -> list Entity) (c r : Z)
  (v : list Entity) :
  0 <= c < nc -> 0 <= r < nr ->
  setCell (gridOf nc nr f) c r v
  = inr (gridOf nc nr
           (fun c' r' => if bool_decide (c' = c /\ r' = r) then v else f c' r')).
Proof.
  intros Hc Hr. unfold setCell.
  rewrite arrayGet_gridOf by lia. simpl.
  rewrite arraySet_tabulate by lia. simpl.
  unfold gridOf at 1. rewrite arraySet_tabulate by lia.
  unfold gridOf. f_equal. apply tabulate_ext. intros c' Hc'.
  destruct (decide (c' = c)) as [->|Hne].
  - rewrite bool_decide_eq_true_2 by reflexivity.
    apply tabulate_ext. intros r' Hr'.
    destruct (decide (r' = r)) as [->|Hne].
    + now rewrite !bool_decide_eq_true_2 by tauto.
    + now rewrite !bool_decide_eq_false_2 by tauto.
  - rewrite bool_decide_eq_false_2 by assumption.
    apply tabulate_ext. intros r' Hr'.
    now rewrite bool_decide_eq_false_2 by tauto.
Qed.

Lemma pushCell_gridOf (nc nr : Z) (f : Z -> Z -> list Entity) (c r : Z)
  (entity : Entity) :
  0 <= c < nc -> 0 <= r < nr ->
  pushCell (gridOf nc nr f) c r entity
  = inr (gridOf nc nr
           (fun c' r' => if bool_decide (c' = c /\ r' = r)
                         then f c' r' ++ [entity] else f c' r')).
Proof.
  intros Hc Hr. unfold pushCell.
  rewrite arrayGet_gridOf by lia. simpl.
  rewrite arrayGet_tabulate by lia. simpl.
  rewrite setCell_gridOf by lia. f_equal.
  apply gridOf_ext. intros c' r' _ _.
  destruct (decide (c' = c /\ r' = r)) as [[-> ->]|Hne].
  - now rewrite !bool_decide_eq_true_2 by tauto.
  - now rewrite !bool_decide_eq_false_2 by tauto.
Qed.

(** The loops of the constructor build the grid of empty cells. *)
Lemma emptyGrid_built (nc nr : Z) :
  0 <= nc -> 0 <= nr ->
  forRange 0 nc (fun col grid =>
    let* grid := arraySet grid col [] in
    forRange 0 nr (fun row grid => setCell grid col row []) grid) []
  = inr (gridOf nc nr (fun _ _ => [])).
Proof.
  intros Hnc Hnr.
  destruct (forRange_inv (fun c grid => grid = gridOf c nr (fun _ _ => []))
              0 nc (fun col grid =>
                 let* grid := arraySet grid col [] in
                 forRange 0 nr (fun row grid => setCell grid col row []) grid)
              []) as (g & E & ->); [lia | reflexivity | | exact E].
  intros c g Hc ->. unfold gridOf at 1.
  rewrite arraySet_push by lia. simpl.
  destruct (forRange_inv
              (fun r grid => grid =
                 (fun j => if bool_decide (j = c)
                           then (fun _ => []) <$> seqZ 0 r
                           else (fun _ => []) <$> seqZ 0 nr) <$> seqZ 0 (c + 1))
              0 nr (fun row grid => setCell grid c row [])
              ((fun j => if bool_decide (j = c) then []
                         else (fun _ : Z => []) <$> seqZ 0 nr) <$> seqZ 0 (c + 1)))
    as (g & E & ->); [lia | reflexivity | |].
  - intros r g Hr ->.
    eexists. split.
    + apply (setCell_extend (c + 1) r c _ (fun _ => [])); [lia | lia |].
      now rewrite bool_decide_eq_true_2.
    + apply tabulate_ext. intros j Hj.
      destruct (decide (j = c)) as [->|Hne].
      * rewrite !bool_decide_eq_true_2 by reflexivity.
        apply tabulate_ext. intros k Hk. now destruct (bool_decide (k = r)).
      * now rewrite !bool_decide_eq_false_2 by assumption.
  - exists (gridOf (c + 1) nr (fun _ _ => [])). split; [|reflexivity].
    rewrite E. f_equal. apply tabulate_ext. intros j Hj.
    now destruct (bool_decide (j = c)).
Qed.

(** The clearing loop of [update] empties every cell and keeps the shape. *)
Lemma clearGrid_gridOf (this : t) (f : Z -> Z -> list Entity) :
  0 <= numCols this -> 0 <= numRows this ->
  clearGrid this (gridOf (numCols this) (numRows this) f)
  = inr (gridOf (numCols this) (numRows this) (fun _ _ => [])).
Proof.
  intros Hnc Hnr. unfold clearGrid.
  set (nc := numCols this) in *. set (nr := numRows this) in *.
  destruct (forRange_inv
              (fun c grid => grid =
                 gridOf nc nr (fun c' r' => if bool_decide (c' < c) then [] else f c' r'))
              0 nc (fun col grid =>
                 forRange 0 nr (fun row grid => setCell grid col row []) grid)
              (gridOf nc nr f)) as (g & E & ->); [lia | | |].
  - apply gridOf_ext. intros c r Hc Hr. now rewrite bool_decide_eq_false_2 by lia.
  - intros c g Hc ->.
    destruct (forRange_inv
                (fun r grid => grid =
                   gridOf nc nr (fun c' r' =>
                     if bool_decide (c' < c \/ (c' = c /\ r' < r)) then []
                     else f c' r'))
                0 nr (fun row grid => setCell grid c row [])
                (gridOf nc nr (fun c' r' =>
                   if bool_decide (c' < c) then [] else f c' r')))
      as (g & E & ->); [lia | | |].
    + apply gridOf_ext. intros c' r' Hc' Hr'.
      destruct (decide (c' < c)).
      * now rewrite !bool_decide_eq_true_2 by lia.
      * now rewrite !bool_decide_eq_false_2 by lia.
    + intros r g Hr ->. eexists. split; [apply setCell_gridOf; lia|].
      apply gridOf_ext. intros c' r' Hc' Hr'.
      destruct (decide (c' = c /\ r' = r)) as [[-> ->]|Hne].
      * now rewrite !bool_decide_eq_true_2 by lia.
      * rewrite (bool_decide_eq_false_2 _ Hne).
        destruct (decide (c' < c \/ c' = c /\ r' < r)).
        -- now rewrite !bool_decide_eq_true_2 by lia.
        -- now rewrite !bool_decide_eq_false_2 by lia.
    + eexists. split; [exact E|].
      apply gridOf_ext. intros c' r' Hc' Hr'.
      destruct (decide (c' < c + 1)).
      * now rewrite !bool_decide_eq_true_2 by lia.
      * now rewrite !bool_decide_eq_false_2 by lia.
  - rewrite E. f_equal. apply gridOf_ext. intros c r Hc Hr.
    now rewrite bool_decide_eq_true_2 by lia.
Qed.

End GridCells.

(** ** Populating the grid *)

Section Populate.

Import SpatialGridBroadPhase.

Lemma worldToGrid_range (this : t) (px py : Q) :
  1 <= numCols this -> 1 <= numRows this ->
  0 <= col (worldToGrid this px py) <= numCols this - 1 /\
  0 <= row (worldToGrid this px py) <= numRows this - 1.
Proof. intros Hc Hr. unfold worldToGrid. simpl. lia. Qed.

(** One entity is appended to the cells of its rectangle, and to no other. *)
Lemma insertEntity_gridOf (this : t) (entity : Entity)
  (f : Z -> Z -> list Entity) :
  1 <= numCols this -> 1 <= numRows this ->
  insertEntity this entity (gridOf (numCols this) (numRows this) f)
  = inr (gridOf (numCols this) (numRows this)
           (fun c r => if bool_decide (covers this c r entity)
                       then f c r ++ [entity] else f c r)).
Proof.
  intros Hnc Hnr. unfold insertEntity, covers.
  destruct (worldToGrid_range this (x (min (aabb entity))) (y (min (aabb entity))))
    as [Hc0 Hr0]; [assumption..|].
  destruct (worldToGrid_range this (x (max (aabb entity))) (y (max (aabb entity))))
    as [Hc1 Hr1]; [assumption..|].
  set (minCell := worldToGrid this _ _) in *.
  set (maxCell := worldToGrid this (x (max (aabb entity))) _) in *.
  set (nc := numCols this) in *. set (nr := numRows this) in *.
  destruct (decide (col maxCell + 1 <= col minCell)) as [Hempty|Hcols].
  { rewrite forRange_empty by assumption. f_equal.
    apply gridOf_ext. intros c r Hc Hr. solve_cells. }
  destruct (forRange_inv
              (fun c grid => grid =
                 gridOf nc nr (fun c' r' =>
                   if bool_decide (col minCell <= c' < c /\
                                   row minCell <= r' <= row maxCell)
                   then f c' r' ++ [entity] else f c' r'))
              (col minCell) (col maxCell + 1)
              (fun col grid =>
                 forRange (row minCell) (row maxCell + 1)
                   (fun row grid => pushCell grid col row entity) grid)
              (gridOf nc nr f)) as (g & E & ->); [lia | | |].
  - apply gridOf_ext. intros c r Hc Hr. solve_cells.
  - intros c g Hc ->.
    destruct (decide (row maxCell + 1 <= row minCell)) as [Hempty|Hrows].
    { rewrite forRange_empty by assumption. eexists. split; [reflexivity|].
      apply gridOf_ext. intros c' r' Hc' Hr'. solve_cells. }
    destruct (forRange_inv
                (fun r grid => grid =
                   gridOf nc nr (fun c' r' =>
                     if bool_decide ((col minCell <= c' < c /\
                                      row minCell <= r' <= row maxCell) \/
                                     (c' = c /\ row minCell <= r' < r))
                     then f c' r' ++ [entity] else f c' r'))
                (row minCell) (row maxCell + 1)
                (fun row grid => pushCell grid c row entity)
                (gridOf nc nr (fun c' r' =>
                   if bool_decide (col minCell <= c' < c /\
                                   row minCell <= r' <= row maxCell)
                   then f c' r' ++ [entity] else f c' r')))
      as (g & E & ->); [lia | | |].
    + apply gridOf_ext. intros c' r' Hc' Hr'. solve_cells.
    + intros r g Hr ->. eexists. split; [apply pushCell_gridOf; lia|].
      apply gridOf_ext. intros c' r' Hc' Hr'. solve_cells.
    + eexists. split; [exact E|].
      apply gridOf_ext. intros c' r' Hc' Hr'. solve_cells.
  - rewrite E. f_equal. apply gridOf_ext. intros c r Hc Hr. solve_cells.
Qed.

(** The population loop leaves in each cell the entities covering it, in the
    order of the snapshot. *)
Lemma populate_gridOf (this : t) (entities : list Entity)
  (f : Z -> Z -> list Entity) :
  1 <= numCols this -> 1 <= numRows this ->
  forEach (insertEntity this) entities (gridOf (numCols this) (numRows this) f)
  = inr (gridOf (numCols this) (numRows this)
           (fun c r => f c r ++ filter (covers this c r) entities)).
Proof.
  intros Hnc Hnr. revert f.
  induction entities as [|entity entities IH]; intros f.
  - simpl. f_equal. apply gridOf_ext. intros c r _ _.
    now rewrite app_nil_r.
  - simpl. rewrite insertEntity_gridOf by assumption. simpl.
    rewrite IH. f_equal. apply gridOf_ext. intros c r _ _.
    unfold filter at 2. simpl. fold (filter (covers this c r) entities).
    case_bool_decide as Hcov.
    + rewrite decide_True by assumption. now rewrite <- app_assoc.
    + now rewrite decide_False by assumption.
Qed.

End Populate.

(** ** Cell indices *)

Section CellIndices.

Lemma Qdiv_pos (p cs : Q) : (0 < cs)%Q -> (0 < p)%Q -> (0 < p / cs)%Q.
Proof.
  intros Hcs Hp. apply Qlt_shift_div_l; [assumption|].
  now rewrite Qmult_0_l.
Qed.

(** A positive extent needs at least one cell. *)
Lemma Qceiling_pos (q : Q) : (0 < q)%Q -> 1 <= Qceiling q.
Proof.
  intros Hq.
  assert (inject_Z 0 < inject_Z (Qceiling q))%Q as H.
  { eapply Qlt_le_trans; [exact Hq | apply Qle_ceiling]. }
  rewrite <- Zlt_Qlt in H. lia.
Qed.

Lemma dimension_pos (lo hi cs : Q) :
  (0 < cs)%Q -> (lo < hi)%Q -> 1 <= Qceiling ((hi - lo) / cs).
Proof.
  intros Hcs Hlt. apply Qceiling_pos, Qdiv_pos; [assumption|].
  unfold Qminus. now rewrite <- Qlt_minus_iff.
Qed.

(** The unclamped cell index grows with the coordinate. *)
Lemma cellIndex_mono (lo cs p q : Q) :
  (0 < cs)%Q -> (p <= q)%Q ->
  Qfloor ((p - lo) / cs) <= Qfloor ((q - lo) / cs).
Proof.
  intros Hcs Hpq. apply Qfloor_resp_le. unfold Qdiv.
  apply Qmult_le_compat_r.
  - unfold Qminus. now apply Qplus_le_l.
  - apply Qlt_le_weak, Qinv_lt_0_compat, Hcs.
Qed.

End CellIndices.

(** ** The operations of the grid detector in closed form *)

Section GridOperations.

Import SpatialGridBroadPhase.

Lemma Qleb_gt (p q : Q) : (q < p)%Q -> Qleb p q = false.
Proof.
  intros H. apply not_true_is_false. rewrite Qleb_le.
  now apply Qlt_not_le.
Qed.

Lemma Qleb_false (p q : Q) : Qleb p q = false -> (q < p)%Q.
Proof.
  intros H. apply Qnot_le_lt. rewrite <- Qleb_le. congruence.
Qed.

(** On a valid configuration the constructor returns a detector with an
    empty grid of the computed dimensions. *)
Lemma new_valid (options : SpatialGridOptions.t) :
  validOptions options ->
  let cs := SpatialGridOptions.cellSize options in
  let x0 := orZero (SpatialGridOptions.minX options) in
  let y0 := orZero (SpatialGridOptions.minY options) in
  let x1 := SpatialGridOptions.maxX options in
  let y1 := SpatialGridOptions.maxY options in
  let nc := Qceiling ((x1 - x0) / cs) in
  let nr := Qceiling ((y1 - y0) / cs) in
  new options
  = inr {| cellSize := cs; minX := x0; minY := y0; maxX := x1; maxY := y1;
           numCols := nc; numRows := nr;
           grid := gridOf nc nr (fun _ _ => []); _collisionTests := 0 |}.
Proof.
  intros (Hcs & Hx & Hy). simpl. unfold new.
  rewrite (Qleb_gt _ _ Hcs), (Qleb_gt _ _ Hx), (Qleb_gt _ _ Hy).
  pose proof (dimension_pos _ _ _ Hcs Hx).
  pose proof (dimension_pos _ _ _ Hcs Hy).
  rewrite emptyGrid_built by lia. reflexivity.
Qed.

(** The constructor returns a detector on valid configurations only. *)
Lemma new_inr_valid (options : SpatialGridOptions.t) (this : t) :
  new options = inr this -> validOptions options.
Proof.
  unfold new, validOptions.
  destruct (Qleb (SpatialGridOptions.cellSize options) 0) eqn:E1;
    [discriminate|].
  destruct (Qleb (SpatialGridOptions.maxX options) _) eqn:E2; [discriminate|].
  destruct (Qleb (SpatialGridOptions.maxY options) _) eqn:E3; [discriminate|].
  intros _. auto using Qleb_false.
Qed.

Lemma gridInvariant_dims (options : SpatialGridOptions.t) (this : t) :
  gridInvariant options this ->
  (0 < cellSize this)%Q /\ 1 <= numCols this /\ 1 <= numRows this.
Proof.
  intros (Ecs & Ex0 & Ey0 & Ex1 & Ey1 & Enc & Enr & (Hcs & Hx & Hy) & _).
  rewrite Enc, Enr, Ecs, Ex0, Ey0, Ex1, Ey1.
  auto using dimension_pos.
Qed.

Lemma new_invariant (options : SpatialGridOptions.t) (this : t) :
  new options = inr this -> gridInvariant options this.
Proof.
  intros E. pose proof (new_inr_valid _ _ E) as Hv.
  rewrite (new_valid _ Hv) in E. simpl in E. injection E as <-.
  unfold gridInvariant. simpl. do 7 (split; [reflexivity|]).
  split; [exact Hv|]. eexists. reflexivity.
Qed.

(** [update] always returns on a detector in a regular state, with a grid
    of the same shape whose cells list the entities covering them. *)
Lemma update_closed (options : SpatialGridOptions.t) (this : t)
  (entities : list Entity) :
  gridInvariant options this ->
  update entities this
  = inr {| cellSize := cellSize this; minX := minX this; minY := minY this;
           maxX := maxX this; maxY := maxY this;
           numCols := numCols this; numRows := numRows this;
           grid := gridOf (numCols this) (numRows this)
                     (fun c r => filter (covers this c r) entities);
           _collisionTests := _collisionTests this |}.
Proof.
  intros Hinv. destruct (gridInvariant_dims _ _ Hinv) as (_ & Hnc & Hnr).
  destruct Hinv as (_ & _ & _ & _ & _ & _ & _ & _ & f & Hgrid).
  unfold update. rewrite Hgrid, clearGrid_gridOf by lia. simpl.
  rewrite populate_gridOf by assumption. reflexivity.
Qed.

Lemma update_invariant (options : SpatialGridOptions.t) (this this' : t)
  (entities : list Entity) :
  gridInvariant options this -> update entities this = inr this' ->
  gridInvariant options this'.
Proof.
  intros Hinv E. rewrite (update_closed _ _ _ Hinv) in E.
  injection E as <-. unfold gridInvariant in *. simpl.
  destruct Hinv as (? & ? & ? & ? & ? & ? & ? & ? & _).
  do 8 (split; [assumption|]). eexists. reflexivity.
Qed.

Lemma runCandidates_app (l1 l2 : list (Entity * Entity)) (st : Locals) :
  runCandidates (l1 ++ l2) st = runCandidates l2 (runCandidates l1 st).
Proof. apply foldl_app. Qed.

(** One cell: the pairs of its entities are run through [testPair]. *)
Lemma queryCell_closed (grid : list (list (list Entity))) (c r : Z)
  (column : list (list Entity)) (cell : list Entity) (st : Locals) :
  arrayGet grid c = Some column -> arrayGet column r = Some cell ->
  queryCell grid c r st = inr (runCandidates (orderedPairs cell) st).
Proof.
  intros Hcol Hcell. unfold queryCell. rewrite Hcol. simpl.
  rewrite Hcell. simpl.
  destruct (Z.ltb_spec (Z.of_nat (length cell)) 2) as [Hlt|Hge].
  - destruct cell as [|a [|b cell]]; simpl in *; [reflexivity..|lia].
  - apply pairLoop.
Qed.

(** [queryPairs] returns on a grid of the shape its dimensions say: it
    runs [testPair] on the candidates of the grid, from an empty cache. *)
Lemma queryPairs_shape (this : t) (f : Z -> Z -> list Entity) :
  0 <= numCols this -> 0 <= numRows this ->
  grid this = gridOf (numCols this) (numRows this) f ->
  let st := runCandidates (candidates (grid this))
              {| pairs := []; checked := ∅; tests := 0 |} in
  queryPairs this
  = inr (pairs st,
         {| cellSize := cellSize this; minX := minX this; minY := minY this;
            maxX := maxX this; maxY := maxY this;
            numCols := numCols this; numRows := numRows this;
            grid := grid this; _collisionTests := tests st |}).
Proof.
  intros Hnc Hnr Hgrid.
  simpl. unfold queryPairs. rewrite Hgrid.
  set (nc := numCols this) in *. set (nr := numRows this) in *.
  set (st0 := {| pairs := []; checked := ∅; tests := 0 |}).
  destruct (forRange_inv
              (fun c st => st = runCandidates (candidates (gridOf c nr f)) st0)
              0 nc
              (fun col st =>
                 forRange 0 nr (fun row st =>
                   queryCell (gridOf nc nr f) col row st) st)
              st0) as (st & E & ->); [lia | reflexivity | |].
  - intros c st Hc ->.
    destruct (forRange_inv
                (fun r st => st =
                   runCandidates ((f c <$> seqZ 0 r) ≫= orderedPairs)
                     (runCandidates (candidates (gridOf c nr f)) st0))
                0 nr
                (fun row st => queryCell (gridOf nc nr f) c row st)
                (runCandidates (candidates (gridOf c nr f)) st0))
      as (st & E & ->); [lia | reflexivity | |].
    + intros r st Hr ->. eexists. split.
      * apply (queryCell_closed _ c r (f c <$> seqZ 0 nr) (f c r)).
        -- apply arrayGet_gridOf. lia.
        -- apply arrayGet_tabulate. lia.
      * rewrite <- runCandidates_app. f_equal.
        rewrite (seqZ_app 0 r 1), fmap_app, bind_app by lia.
        f_equal. rewrite (seqZ_cons _ 1) by lia.
        rewrite (seqZ_nil _ (Z.pred 1)) by lia.
        simpl. now rewrite app_nil_r.
    + eexists. split; [exact E|].
      rewrite <- runCandidates_app. f_equal.
      unfold candidates, gridOf.
      rewrite (seqZ_app 0 c 1), fmap_app by lia.
      rewrite (seqZ_cons _ 1) by lia. rewrite (seqZ_nil _ (Z.pred 1)) by lia.
      simpl. rewrite !list_join_bind, !bind_app. simpl.
      now rewrite !app_nil_r.
  - rewrite E. reflexivity.
Qed.

(** [queryPairs] always returns on a detector in a regular state. *)
Lemma queryPairs_closed (options : SpatialGridOptions.t) (this : t) :
  gridInvariant options this ->
  let st := runCandidates (candidates (grid this))
              {| pairs := []; checked := ∅; tests := 0 |} in
  queryPairs this
  = inr (pairs st,
         {| cellSize := cellSize this; minX := minX this; minY := minY this;
            maxX := maxX this; maxY := maxY this;
            numCols := numCols this; numRows := numRows this;
            grid := grid this; _collisionTests := tests st |}).
Proof.
  intros Hinv. destruct (gridInvariant_dims _ _ Hinv) as (_ & Hnc & Hnr).
  destruct Hinv as (_ & _ & _ & _ & _ & _ & _ & _ & f & Hgrid).
  apply (queryPairs_shape this f); [lia | lia | exact Hgrid].
Qed.

Lemma queryPairs_invariant (options : SpatialGridOptions.t) (this this' : t)
  (ps : list (Entity * Entity)) :
  gridInvariant options this -> queryPairs this = inr (ps, this') ->
  gridInvariant options this'.
Proof.
  intros Hinv E. rewrite (queryPairs_closed _ _ Hinv) in E.
  injection E as _ <-. unfold gridInvariant in *. simpl.
  exact Hinv.
Qed.

(** Every state of a detector is regular. *)
Lemma Reachable_invariant (options : SpatialGridOptions.t) (this : t) :
  Reachable options this -> gridInvariant options this.
Proof.
  induction 1 as [this E | this entities this' _ IH E | this ps this' _ IH E].
  - now apply new_invariant.
  - now apply (update_invariant _ this _ entities).
  - now apply (queryPairs_invariant _ this _ ps).
Qed.

End GridOperations.

(** ** The checked-pair cache *)

Section Cache.

Import SpatialGridBroadPhase.

Lemma isChecked_insert (m : gmap string unit) (h k : string) :
  isChecked (<[h := ()]> m) k = true <-> k = h \/ isChecked m k = true.
Proof.
  unfold isChecked. destruct (decide (h = k)) as [->|Hne].
  - rewrite lookup_insert_eq. tauto.
  - rewrite lookup_insert_ne by assumption.
    split; [tauto | intros [->|H]; [congruence | exact H]].
Qed.

Lemma isChecked_empty (k : string) : isChecked ∅ k = false.
Proof. unfold isChecked. now rewrite lookup_empty. Qed.

(** Keys are made of the ids alone. *)
Lemma pairKey_ids (a b c d : Entity) :
  id a = id c -> id b = id d -> pairKey a b = pairKey c d.
Proof. unfold pairKey. now intros -> ->. Qed.

(** What [testPair] does, by cases. *)
Lemma testPair_skip (a b : Entity) (st : Locals) :
  isChecked (checked st) (pairKey a b) = true \/
  isChecked (checked st) (pairKey b a) = true ->
  testPair a b st = st.
Proof.
  intros H. unfold testPair.
  destruct (isChecked (checked st) (pairKey a b)); [reflexivity|].
  destruct (isChecked (checked st) (pairKey b a)); [reflexivity|].
  destruct H; discriminate.
Qed.

Lemma testPair_test (a b : Entity) (st : Locals) :
  isChecked (checked st) (pairKey a b) = false ->
  isChecked (checked st) (pairKey b a) = false ->
  testPair a b st
  = {| pairs := if aabbIntersects (aabb a) (aabb b)
                then pairs st ++ [(a, b)] else pairs st;
       checked := <[pairKey b a := ()]> (<[pairKey a b := ()]> (checked st));
       tests := Datatypes.S (tests st) |}.
Proof.
  intros Ha Hb. unfold testPair. rewrite Ha, Hb. simpl.
  now destruct (aabbIntersects (aabb a) (aabb b)).
Qed.

Lemma inPairSet_app (q : Id * Id) (ps1 ps2 : list (Entity * Entity)) :
  inPairSet q (ps1 ++ ps2) <-> inPairSet q ps1 \/ inPairSet q ps2.
Proof. apply Exists_app. Qed.

Lemma inPairSet_alt (q : Id * Id) (ps : list (Entity * Entity)) :
  inPairSet q ps <-> exists p, p ∈ ps /\ sameUnordered (idPair p) q.
Proof. apply Exists_exists. Qed.

Lemma sameUnordered_sym (p q : Id * Id) :
  sameUnordered p q -> sameUnordered q p.
Proof.
  destruct p as [p1 p2], q as [q1 q2]. unfold sameUnordered. simpl.
  intros [H|H]; injection H as -> ->; auto.
Qed.

(** Appending a pair that is not yet there keeps a result free of
    duplicates. *)
Lemma noDuplicatePairs_snoc (ps : list (Entity * Entity)) (p : Entity * Entity) :
  noDuplicatePairs ps -> ~ inPairSet (idPair p) ps ->
  noDuplicatePairs (ps ++ [p]).
Proof.
  induction ps as [|q ps IH]; simpl; intros Hnd Hp.
  - split; [|exact I]. intros H. apply inPairSet_alt in H as (r & Hr & _).
    now apply elem_of_nil in Hr.
  - destruct Hnd as [Hq Hnd]. split.
    + rewrite inPairSet_app. intros [H|H]; [now apply Hq|].
      apply Hp. apply inPairSet_alt in H as (r & Hr & Hsame).
      apply list_elem_of_singleton in Hr as ->.
      apply inPairSet_alt. exists q. split; [now left|].
      now apply sameUnordered_sym.
    + apply IH; [exact Hnd|]. intros H. apply Hp.
      apply inPairSet_alt in H as (r & Hr & Hsame).
      apply inPairSet_alt. exists r. split; [now right | exact Hsame].
Qed.

Lemma cacheInvariant_skip (done : list (Entity * Entity))
  (p : Entity * Entity) (st : Locals) :
  cacheInvariant done st -> cacheInvariant (done ++ [p]) st.
Proof.
  intros (Hkeys & Hpairs & Hnd). split; [|split].
  - intros k Hk. destruct (Hkeys k Hk) as (q & Hq & Hkq).
    exists q. split; [apply elem_of_app; now left | exact Hkq].
  - intros q Hq. destruct (Hpairs q Hq) as (Hin & Hov & H1 & H2).
    split; [apply elem_of_app; now left | auto].
  - exact Hnd.
Qed.

Lemma cacheInvariant_step (done : list (Entity * Entity))
  (p : Entity * Entity) (st : Locals) :
  cacheInvariant done st ->
  cacheInvariant (done ++ [p]) (testPair p.1 p.2 st).
Proof.
  destruct p as [a b]. simpl. intros Hinv.
  destruct (isChecked (checked st) (pairKey a b)) eqn:Ea.
  { rewrite testPair_skip by auto. now apply cacheInvariant_skip. }
  destruct (isChecked (checked st) (pairKey b a)) eqn:Eb.
  { rewrite testPair_skip by auto. now apply cacheInvariant_skip. }
  destruct Hinv as (Hkeys & Hpairs & Hnd).
  rewrite testPair_test by assumption.
  assert (forall q, q ∈ pairs st ->
            q ∈ done ++ [(a, b)] /\ overlapping q /\
            isChecked (<[pairKey b a := ()]> (<[pairKey a b := ()]> (checked st)))
              (pairKey q.1 q.2) = true /\
            isChecked (<[pairKey b a := ()]> (<[pairKey a b := ()]> (checked st)))
              (pairKey q.2 q.1) = true) as Hold.
  { intros q Hq. destruct (Hpairs q Hq) as (Hin & Hov & H1 & H2).
    rewrite !isChecked_insert. split; [apply elem_of_app; now left | auto]. }
  split; [|split]; simpl.
  - intros k Hk. rewrite !isChecked_insert in Hk.
    destruct Hk as [->|[->|Hk]].
    + exists (a, b). split; [apply elem_of_app; right; now left | now right].
    + exists (a, b). split; [apply elem_of_app; right; now left | now left].
    + destruct (Hkeys k Hk) as (q & Hq & Hkq).
      exists q. split; [apply elem_of_app; now left | exact Hkq].
  - intros q Hq.
    destruct (aabbIntersects (aabb a) (aabb b)) eqn:Hov; [|now apply Hold].
    apply elem_of_app in Hq as [Hq|Hq]; [now apply Hold|].
    apply list_elem_of_singleton in Hq as ->. simpl.
    rewrite !isChecked_insert.
    split; [apply elem_of_app; right; now left | auto].
  - destruct (aabbIntersects (aabb a) (aabb b)); [|exact Hnd].
    apply noDuplicatePairs_snoc; [exact Hnd|].
    intros H. apply inPairSet_alt in H as (q & Hq & Hsame).
    destruct (Hpairs q Hq) as (_ & _ & H1 & _).
    destruct q as [c d]. unfold idPair, sameUnordered in Hsame. simpl in *.
    destruct Hsame as [Hsame|Hsame]; injection Hsame as Hc Hd.
    + rewrite (pairKey_ids c d a b Hc Hd) in H1. congruence.
    + rewrite (pairKey_ids c d b a Hc Hd) in H1. congruence.
Qed.

Lemma cacheInvariant_run (cands : list (Entity * Entity)) :
  cacheInvariant cands
    (runCandidates cands {| pairs := []; checked := ∅; tests := 0 |}).
Proof.
  induction cands as [|p cands IH] using rev_ind.
  - split; [|split]; simpl.
    + intros k Hk. rewrite isChecked_empty in Hk. discriminate.
    + intros q Hq. now apply elem_of_nil in Hq.
    + exact I.
  - unfold runCandidates. rewrite foldl_snoc. now apply cacheInvariant_step.
Qed.

Lemma runCandidates_pairs_mono (cands : list (Entity * Entity)) (st : Locals)
  (p : Entity * Entity) :
  p ∈ pairs st -> p ∈ pairs (runCandidates cands st).
Proof.
  revert st. induction cands as [|[a b] cands IH]; intros st Hp; [exact Hp|].
  simpl. apply IH. unfold testPair.
  destruct (_ || _); [exact Hp|].
  destruct (aabbIntersects _ _); [|exact Hp].
  simpl. apply elem_of_app. now left.
Qed.

(** When the keys tell the candidates apart and no candidate comes in both
    orders, every overlapping candidate is in the result. *)
Lemma runCandidates_complete (cands : list (Entity * Entity)) :
  (forall p q, p ∈ cands -> q ∈ cands ->
     pairKey p.1 p.2 = pairKey q.1 q.2 \/ pairKey p.2 p.1 = pairKey q.2 q.1 ->
     p = q) ->
  (forall p q, p ∈ cands -> q ∈ cands ->
     pairKey p.1 p.2 = pairKey q.2 q.1 -> False) ->
  forall p, p ∈ cands -> overlapping p ->
    p ∈ pairs (runCandidates cands {| pairs := []; checked := ∅; tests := 0 |}).
Proof.
  induction cands as [|p cands IH] using rev_ind; intros Hsame Hrev q Hq Hov.
  { now apply elem_of_nil in Hq. }
  unfold runCandidates. rewrite foldl_snoc.
  fold (runCandidates cands {| pairs := []; checked := ∅; tests := 0 |}).
  set (st := runCandidates cands _).
  assert (forall r, r ∈ cands -> r ∈ cands ++ [p]) as Hincl.
  { intros r Hr. apply elem_of_app. now left. }
  assert (forall r, r ∈ cands -> overlapping r -> r ∈ pairs st) as IH'.
  { apply IH.
    - intros r s Hr Hs. apply Hsame; auto.
    - intros r s Hr Hs. apply Hrev; auto. }
  assert (forall r, r ∈ pairs st -> r ∈ pairs (testPair p.1 p.2 st)) as Hmono.
  { intros r Hr. apply (runCandidates_pairs_mono [p] st r Hr). }
  apply elem_of_app in Hq as [Hq|Hq]; [now apply Hmono, IH'|].
  apply list_elem_of_singleton in Hq as ->.
  destruct (cacheInvariant_run cands) as (Hkeys & _ & _). fold st in Hkeys.
  assert (p ∈ cands ++ [p]) as Hp by (apply elem_of_app; right; now left).
  destruct p as [a b]. simpl in *.
  destruct (isChecked (checked st) (pairKey a b)) eqn:Ea.
  { rewrite testPair_skip by auto.
    destruct (Hkeys _ Ea) as (r & Hr & [Hk|Hk]).
    - assert ((a, b) = r) as <-; [|now apply IH'].
      apply Hsame; auto.
    - exfalso. apply (Hrev (a, b) r); auto. }
  destruct (isChecked (checked st) (pairKey b a)) eqn:Eb.
  { rewrite testPair_skip by auto.
    destruct (Hkeys _ Eb) as (r & Hr & [Hk|Hk]).
    - exfalso. apply (Hrev r (a, b)); auto.
    - assert ((a, b) = r) as <-; [|now apply IH'].
      apply Hsame; auto. }
  rewrite testPair_test by assumption. simpl.
  unfold overlapping in Hov. simpl in Hov. rewrite Hov.
  apply elem_of_app. right. now left.
Qed.

End Cache.

(** ** Ordered pairs of a list *)

Section OrderedPairs.

Context {A : Type}.

Lemma elem_of_orderedPairs_cons (p : A * A) (a : A) (l : list A) :
  p ∈ orderedPairs (a :: l) <->
  (exists b, p = (a, b) /\ b ∈ l) \/ p ∈ orderedPairs l.
Proof.
  simpl. rewrite elem_of_app, list_elem_of_fmap. reflexivity.
Qed.

Lemma orderedPairs_elem_of (a b : A) (l : list A) :
  (a, b) ∈ orderedPairs l -> a ∈ l /\ b ∈ l.
Proof.
  induction l as [|c l IH]; [intros H; now apply elem_of_nil in H|].
  rewrite elem_of_orderedPairs_cons. intros [(d & E & Hd)|H].
  - injection E as -> ->. split; [now left | now right].
  - destruct (IH H). split; now right.
Qed.

(** The pairs of a filtered list are the pairs of the list whose two
    members pass the filter. *)
Lemma orderedPairs_filter (P : A -> Prop) `{!forall a, Decision (P a)}
  (a b : A) (l : list A) :
  (a, b) ∈ orderedPairs (filter P l) <->
  (a, b) ∈ orderedPairs l /\ P a /\ P b.
Proof.
  induction l as [|c l IH].
  - simpl. rewrite elem_of_nil. tauto.
  - rewrite elem_of_orderedPairs_cons.
    destruct (decide (P c)) as [Hc|Hc].
    + rewrite filter_cons_True by assumption.
      rewrite elem_of_orderedPairs_cons, IH. split.
      * intros [(d & E & Hd)|(Hin & Ha & Hb)]; [|tauto].
        injection E as -> ->. apply list_elem_of_filter in Hd as [Hd Hin].
        split; [left; eauto | tauto].
      * intros ([(d & E & Hd)|Hin] & Ha & Hb); [|tauto].
        injection E as -> ->. left. exists d. split; [reflexivity|].
        now apply list_elem_of_filter.
    + rewrite filter_cons_False by assumption. rewrite IH. split; [tauto|].
      intros ([(d & E & Hd)|Hin] & Ha & Hb); [|tauto].
      injection E as -> ->. contradiction.
Qed.

(** When the members of [l] are told apart by [f], no pair of [l] comes in
    both orders. *)
Lemma orderedPairs_no_reverse {B} (f : A -> B) (a b c d : A) (l : list A) :
  NoDup (f <$> l) ->
  (a, b) ∈ orderedPairs l -> (c, d) ∈ orderedPairs l ->
  f a = f d -> f b = f c -> False.
Proof.
  induction l as [|e l IH]; [intros _ H; now apply elem_of_nil in H|].
  rewrite fmap_cons, NoDup_cons, !elem_of_orderedPairs_cons.
  intros [Hne Hnd] Hab Hcd Had Hbc. apply Hne.
  destruct Hab as [(b' & E & Hb)|Hab].
  - injection E as -> ->. rewrite Had. apply list_elem_of_fmap_2.
    destruct Hcd as [(d' & E & Hd)|Hcd]; [now injection E as -> ->|].
    now apply orderedPairs_elem_of in Hcd.
  - destruct Hcd as [(d' & E & Hd)|Hcd].
    + injection E as -> ->. rewrite <- Hbc. apply list_elem_of_fmap_2.
      now apply orderedPairs_elem_of in Hab.
    + exfalso. now apply IH.
Qed.

(** A function that tells the members of [l] apart is injective on them. *)
Lemma NoDup_fmap_elem_inj {B} (f : A -> B) (a b : A) (l : list A) :
  NoDup (f <$> l) -> a ∈ l -> b ∈ l -> f a = f b -> a = b.
Proof.
  intros Hnd Ha Hb E.
  apply list_elem_of_lookup in Ha as (i & Hi).
  apply list_elem_of_lookup in Hb as (j & Hj).
  assert (i = j) as ->; [|congruence].
  apply (NoDup_lookup (f <$> l) i j (f a)); [exact Hnd | |].
  - now rewrite list_lookup_fmap, Hi.
  - now rewrite list_lookup_fmap, Hj, E.
Qed.

End OrderedPairs.

(** ** Overlapping boxes share a cell *)

Section SharedCell.

Import SpatialGridBroadPhase.

Lemma worldToGrid_col_mono (this : t) (px py px' py' : Q) :
  (0 < cellSize this)%Q -> (px <= px')%Q ->
  col (worldToGrid this px py) <= col (worldToGrid this px' py').
Proof.
  intros Hcs H. unfold worldToGrid. cbn [col].
  pose proof (cellIndex_mono (minX this) _ _ _ Hcs H). lia.
Qed.

Lemma worldToGrid_row_mono (this : t) (px py px' py' : Q) :
  (0 < cellSize this)%Q -> (py <= py')%Q ->
  row (worldToGrid this px py) <= row (worldToGrid this px' py').
Proof.
  intros Hcs H. unfold worldToGrid. cbn [row].
  pose proof (cellIndex_mono (minY this) _ _ _ Hcs H). lia.
Qed.

(** Two well-formed boxes that pass the overlap test are both listed in some
    cell of the grid. *)
Lemma overlapping_share_cell (this : t) (a b : Entity) :
  (0 < cellSize this)%Q -> 1 <= numCols this -> 1 <= numRows this ->
  wellFormed (aabb a) -> wellFormed (aabb b) ->
  aabbIntersects (aabb a) (aabb b) = true ->
  exists c r, 0 <= c < numCols this /\ 0 <= r < numRows this /\
              covers this c r a /\ covers this c r b.
Proof.
  intros Hcs Hnc Hnr [Hax Hay] [Hbx Hby] Hov.
  apply aabbIntersects_true in Hov as (Hx1 & Hx2 & Hy1 & Hy2).
  unfold covers.
  set (aMin := worldToGrid this (x (min (aabb a))) (y (min (aabb a)))).
  set (aMax := worldToGrid this (x (max (aabb a))) (y (max (aabb a)))).
  set (bMin := worldToGrid this (x (min (aabb b))) (y (min (aabb b)))).
  set (bMax := worldToGrid this (x (max (aabb b))) (y (max (aabb b)))).
  pose proof (worldToGrid_range this (x (min (aabb a))) (y (min (aabb a))) Hnc Hnr).
  pose proof (worldToGrid_range this (x (min (aabb b))) (y (min (aabb b))) Hnc Hnr).
  assert (col aMin <= col aMax) by now apply worldToGrid_col_mono.
  assert (col bMin <= col bMax) by now apply worldToGrid_col_mono.
  assert (col bMin <= col aMax) by now apply worldToGrid_col_mono.
  assert (col aMin <= col bMax) by now apply worldToGrid_col_mono.
  assert (row aMin <= row aMax) by now apply worldToGrid_row_mono.
  assert (row bMin <= row bMax) by now apply worldToGrid_row_mono.
  assert (row bMin <= row aMax) by now apply worldToGrid_row_mono.
  assert (row aMin <= row bMax) by now apply worldToGrid_row_mono.
  fold aMin bMin in H, H0.
  exists (Z.max (col aMin) (col bMin)), (Z.max (row aMin) (row bMin)).
  lia.
Qed.

(** The candidates of a grid are the pairs of its cells. *)
Lemma elem_of_candidates (nc nr : Z) (f : Z -> Z -> list Entity)
  (p : Entity * Entity) :
  p ∈ candidates (gridOf nc nr f) <->
  exists c r, 0 <= c < nc /\ 0 <= r < nr /\ p ∈ orderedPairs (f c r).
Proof.
  unfold candidates, gridOf. rewrite list_elem_of_bind. split.
  - intros (cell & Hp & Hcell).
    apply list_elem_of_join in Hcell as (column & Hcell & Hcolumn).
    apply list_elem_of_fmap in Hcolumn as (c & -> & Hc).
    apply list_elem_of_fmap in Hcell as (r & -> & Hr).
    apply elem_of_seqZ in Hc, Hr. exists c, r. repeat split; try lia. exact Hp.
  - intros (c & r & Hc & Hr & Hp). exists (f c r). split; [exact Hp|].
    apply list_elem_of_join. exists (f c <$> seqZ 0 nr). split.
    + apply list_elem_of_fmap_2, elem_of_seqZ. lia.
    + apply (list_elem_of_fmap_2 (fun c => f c <$> seqZ 0 nr)), elem_of_seqZ. lia.
Qed.

End SharedCell.

(** ** Keys that tell the pairs apart *)

Section Keys.

Import SpatialGridBroadPhase.

Lemma append_cons (c : ascii) (s t : string) :
  String c s +:+ t = String c (s +:+ t).
Proof. reflexivity. Qed.

Lemma append_nil (t : string) : "" +:+ t = t.
Proof. reflexivity. Qed.

(** A key splits at its first colon. *)
Lemma key_split (s1 s2 t1 t2 : string) :
  noColon s1 = true -> noColon t1 = true ->
  s1 +:+ ":" +:+ s2 = t1 +:+ ":" +:+ t2 -> s1 = t1 /\ s2 = t2.
Proof.
  revert t1. induction s1 as [|c s1 IH]; intros [|d t1];
    rewrite ?append_cons, ?append_nil; simpl; intros Hs Ht E.
  - now injection E as ->.
  - injection E as <- _. discriminate.
  - injection E as -> _. discriminate.
  - injection E as -> E.
    apply andb_true_iff in Hs as [_ Hs]. apply andb_true_iff in Ht as [_ Ht].
    destruct (IH t1 Hs Ht E) as [-> ->]. now split.
Qed.

Lemma noColon_digit (d : N) (s : string) :
  noColon (String (pretty_N_char d) s) = noColon s.
Proof. unfold pretty_N_char. now repeat case_match. Qed.

Lemma noColon_pretty_N_go (n : N) (s : string) :
  noColon s = true -> noColon (pretty_N_go n s) = true.
Proof.
  revert s. induction (N.lt_wf_0 n) as [n _ IH]; intros s Hs.
  destruct (decide (n = 0%N)) as [->|Hn]; [now rewrite pretty_N_go_0|].
  rewrite pretty_N_go_step by lia.
  apply IH; [apply N.div_lt; lia|].
  now rewrite noColon_digit.
Qed.

Lemma noColon_pretty_N (n : N) : noColon (pretty n) = true.
Proof.
  unfold pretty, pretty_N. case_decide; [reflexivity|].
  now apply noColon_pretty_N_go.
Qed.

(** A number printed in decimal has no colon. *)
Lemma noColon_pretty_Z (n : Z) : noColon (pretty n) = true.
Proof.
  destruct n as [|p|p]; [reflexivity | apply noColon_pretty_N |].
  unfold pretty, pretty_Z. simpl. apply (noColon_pretty_N (Npos p)).
Qed.

(** Ids with distinct colon-free texts give unambiguous keys. *)
Lemma keysUnambiguous_noColon (entities : list Entity) :
  Forall (fun e => noColon (idToString (id e)) = true) entities ->
  (forall a b, a ∈ entities -> b ∈ entities ->
     idToString (id a) = idToString (id b) -> id a = id b) ->
  keysUnambiguous entities.
Proof.
  intros Hnc Hinj a b c d Ha Hb Hc Hd E.
  rewrite Forall_forall in Hnc. unfold pairKey in E.
  apply key_split in E as [E1 E2]; auto.
Qed.

(** Numeric ids give unambiguous keys. *)
Lemma keysUnambiguous_numeric (entities : list Entity) :
  numericIds entities -> keysUnambiguous entities.
Proof.
  intros Hnum. unfold numericIds in Hnum. rewrite Forall_forall in Hnum.
  apply keysUnambiguous_noColon.
  - apply Forall_forall. intros e He. destruct (Hnum e He) as (n & ->).
    apply noColon_pretty_Z.
  - intros a b Ha Hb. destruct (Hnum a Ha) as (n & ->).
    destruct (Hnum b Hb) as (m & ->). simpl. intros E.
    now apply (inj pretty) in E as ->.
Qed.

End Keys.

(** ** The two detectors on one snapshot *)

Section CrossStrategy.

Import SpatialGridBroadPhase.

Variable this : t.
Variable entities : list Entity.

Lemma candidates_populated (p : Entity * Entity) :
  p ∈ candidates (populatedGrid this entities) <->
  p ∈ orderedPairs entities /\
  exists c r, 0 <= c < numCols this /\ 0 <= r < numRows this /\
              covers this c r p.1 /\ covers this c r p.2.
Proof.
  unfold populatedGrid. rewrite elem_of_candidates. destruct p as [a b]. simpl.
  split.
  - intros (c & r & Hc & Hr & Hp).
    apply orderedPairs_filter in Hp as (Hp & Ha & Hb). eauto 10.
  - intros (Hp & c & r & Hc & Hr & Ha & Hb). exists c, r.
    rewrite orderedPairs_filter. auto.
Qed.

(** What the grid reports, brute force reports, in the same order within
    the pair. *)
Lemma grid_pairs_sound (p : Entity * Entity) :
  p ∈ pairs (gridResult this entities) ->
  p ∈ filter overlapping (orderedPairs entities).
Proof.
  intros Hp. destruct (cacheInvariant_run (candidates (populatedGrid this entities)))
    as (_ & Hpairs & _).
  destruct (Hpairs p Hp) as (Hcand & Hov & _).
  apply candidates_populated in Hcand as [Hin _].
  now apply list_elem_of_filter.
Qed.

Hypothesis Hcs : (0 < cellSize this)%Q.
Hypothesis Hnc : 1 <= numCols this.
Hypothesis Hnr : 1 <= numRows this.
Hypothesis Hunique : uniqueIds entities.
Hypothesis Hkeys : keysUnambiguous entities.
Hypothesis Hwf : Forall (fun e => wellFormed (aabb e)) entities.

(** What brute force reports, the grid reports. *)
Lemma grid_pairs_complete (p : Entity * Entity) :
  p ∈ filter overlapping (orderedPairs entities) ->
  p ∈ pairs (gridResult this entities).
Proof.
  intros Hp. apply list_elem_of_filter in Hp as [Hov Hp].
  assert (forall q, q ∈ candidates (populatedGrid this entities) ->
            q ∈ orderedPairs entities /\ q.1 ∈ entities /\ q.2 ∈ entities)
    as Hmem.
  { intros [a b] Hq. apply candidates_populated in Hq as [Hq _].
    split; [exact Hq | now apply orderedPairs_elem_of]. }
  assert (forall a b, a ∈ entities -> b ∈ entities -> id a = id b -> a = b)
    as Hinj.
  { intros a b Ha Hb. now apply (NoDup_fmap_elem_inj id a b entities). }
  apply runCandidates_complete.
  - intros [a b] [c d] Hq Hr HE. simpl in HE.
    destruct (Hmem _ Hq) as (_ & Ha & Hb), (Hmem _ Hr) as (_ & Hc & Hd).
    simpl in *.
    destruct HE as [HE|HE]; apply Hkeys in HE as [E1 E2]; try assumption;
      f_equal; now apply Hinj.
  - intros [a b] [c d] Hq Hr HE. simpl in HE.
    destruct (Hmem _ Hq) as (Hab & Ha & Hb), (Hmem _ Hr) as (Hcd & Hc & Hd).
    simpl in *. apply Hkeys in HE as [E1 E2]; try assumption.
    now apply (orderedPairs_no_reverse id a b c d entities).
  - apply candidates_populated. split; [exact Hp|].
    destruct p as [a b]. simpl.
    apply orderedPairs_elem_of in Hp as [Ha Hb].
    rewrite Forall_forall in Hwf.
    apply overlapping_share_cell; auto.
  - exact Hov.
Qed.

End CrossStrategy.

(** ** Results without duplicates *)

Section NoDuplicates.

Lemma noDuplicatePairs_intro (ps : list (Entity * Entity)) :
  NoDup (idPair <$> ps) ->
  (forall p q, p ∈ ps -> q ∈ ps ->
     id p.1 = id q.2 -> id p.2 = id q.1 -> False) ->
  noDuplicatePairs ps.
Proof.
  induction ps as [|p ps IH]; [intros _ _; exact I|].
  rewrite fmap_cons, NoDup_cons. intros [Hp Hnd] Hrev. simpl. split.
  - intros H. apply inPairSet_alt in H as (q & Hq & [Hsame|Hsame]).
    + apply Hp. rewrite <- Hsame. now apply list_elem_of_fmap_2.
    + unfold idPair in Hsame. simpl in Hsame. injection Hsame as E1 E2.
      apply (Hrev q p); [now right | now left | assumption..].
  - apply IH; [exact Hnd|].
    intros q r Hq Hr. apply Hrev; now right.
Qed.

Lemma orderedPairs_ids_NoDup (entities : list Entity) :
  uniqueIds entities -> NoDup (idPair <$> orderedPairs entities).
Proof.
  unfold uniqueIds. induction entities as [|a entities IH]; [constructor|].
  rewrite fmap_cons, NoDup_cons. intros [Ha Hnd]. simpl.
  rewrite fmap_app, NoDup_app, <- list_fmap_compose. split; [|split].
  - change (idPair ∘ pair a) with (pair (id a) ∘ id).
    rewrite list_fmap_compose. apply NoDup_fmap_2; [|exact Hnd].
    intros i j E. now injection E.
  - intros q Hq Hq'.
    apply list_elem_of_fmap in Hq as (b & -> & Hb).
    apply list_elem_of_fmap in Hq' as ([c d] & E & Hcd).
    unfold idPair in E. simpl in E. injection E as E1 E2.
    apply Ha. rewrite E1. apply list_elem_of_fmap_2.
    now apply orderedPairs_elem_of in Hcd.
  - now apply IH.
Qed.

(** With unique ids, the overlapping ordered pairs of a snapshot hold no
    unordered id pair twice. *)
Lemma brute_noDuplicatePairs (entities : list Entity) :
  uniqueIds entities ->
  noDuplicatePairs (filter overlapping (orderedPairs entities)).
Proof.
  intros Hu. apply noDuplicatePairs_intro.
  - apply (sublist_NoDup _ (idPair <$> orderedPairs entities)).
    + now apply orderedPairs_ids_NoDup.
    + apply fmap_sublist, sublist_filter.
  - intros [a b] [c d] Hp Hq E1 E2.
    apply list_elem_of_filter in Hp as [_ Hp].
    apply list_elem_of_filter in Hq as [_ Hq].
    now apply (orderedPairs_no_reverse id a b c d entities).
Qed.

End NoDuplicates.

(** ** The shape of the grid *)

Section Shape.

Import SpatialGridBroadPhase.

Lemma candidates_empty (nc nr : Z) :
  candidates (gridOf nc nr (fun _ _ => [])) = [].
Proof.
  apply elem_of_nil_inv. intros p Hp.
  apply elem_of_candidates in Hp as (c & r & _ & _ & Hp).
  now apply elem_of_nil in Hp.
Qed.

Lemma exampleGrid_new : new exampleOptions = inr exampleGrid.
Proof. vm_compute. reflexivity. Qed.

End Shape.

(** ** The scenarios of the specification *)

(** Scenario A: one pair from both detectors; the grid tests it once
    although the two boxes share four cells. *)
Example scenarioA_bruteForce :
  bruteForceRun scenarioA = inr ([(IdNum 1, IdNum 2)], 1%nat).
Proof. vm_compute. reflexivity. Qed.

Example scenarioA_grid :
  gridRun scenarioA = inr ([(IdNum 1, IdNum 2)], 1%nat).
Proof. vm_compute. reflexivity. Qed.

(** Scenario B: two disjoint boxes, no pair, one test by brute force. *)
Example scenarioB_bruteForce :
  bruteForceRun [ {| id := IdNum 1; aabb := box 0 0 10 10 |};
                  {| id := IdNum 2; aabb := box 20 20 30 30 |} ]
  = inr ([], 1%nat).
Proof. vm_compute. reflexivity. Qed.

Example scenarioB_grid :
  gridRun [ {| id := IdNum 1; aabb := box 0 0 10 10 |};
            {| id := IdNum 2; aabb := box 20 20 30 30 |} ]
  = inr ([], 1%nat).
Proof. vm_compute. reflexivity. Qed.

(** Scenario C: no entity, or one, gives no pair and no test. *)
Example scenarioC_bruteForce :
  bruteForceRun [] = inr ([], 0%nat) /\
  bruteForceRun [ {| id := IdNum 1; aabb := box 0 0 10 10 |} ]
  = inr ([], 0%nat).
Proof. split; vm_compute; reflexivity. Qed.

Example scenarioC_grid :
  gridRun [] = inr ([], 0%nat) /\
  gridRun [ {| id := IdNum 1; aabb := box 0 0 10 10 |} ] = inr ([], 0%nat).
Proof. split; vm_compute; reflexivity. Qed.

(** ** Facts about the scenarios *)

Lemma exampleOptions_valid : validOptions exampleOptions.
Proof. unfold validOptions. simpl. repeat split. Qed.

Lemma scenarioA_unique : uniqueIds scenarioA.
Proof. unfold uniqueIds. compute_done. Qed.

Lemma scenarioA_wellFormed : Forall (fun e => wellFormed (aabb e)) scenarioA.
Proof. repeat constructor; simpl; discriminate. Qed.

Lemma scenarioA_numeric : numericIds scenarioA.
Proof. repeat constructor; eexists; reflexivity. Qed.

(** ** No duplicate pairs *)



(** ** Querying twice *)

(** C5: on either detector, a second [queryPairs] with no [update] in
    between returns the same pairs and leaves the same [collisionTests] as
    the first. *)
Theorem requery_idempotent (options : SpatialGridOptions.t)
  (gridDetector : SpatialGridBroadPhase.t)
  (bruteForce : BruteForceBroadPhase.t) :
  validOptions options ->
  Reachable options gridDetector ->
  (exists pairs bruteForce1 bruteForce2,
     BruteForceBroadPhase.queryPairs bruteForce = inr (pairs, bruteForce1) /\
     BruteForceBroadPhase.queryPairs bruteForce1 = inr (pairs, bruteForce2) /\
     BruteForceBroadPhase.collisionTests bruteForce2
     = BruteForceBroadPhase.collisionTests bruteForce1) /\
  (exists pairs gridDetector1 gridDetector2,
     SpatialGridBroadPhase.queryPairs gridDetector
       = inr (pairs, gridDetector1) /\
     SpatialGridBroadPhase.queryPairs gridDetector1
       = inr (pairs, gridDetector2) /\
     SpatialGridBroadPhase.collisionTests gridDetector2
     = SpatialGridBroadPhase.collisionTests gridDetector1).
Proof.
  intros _ Hreach. split.
  - rewrite brute_queryPairs. eexists _, _, _. split; [reflexivity|].
    rewrite brute_queryPairs. split; reflexivity.
  - pose proof (Reachable_invariant _ _ Hreach) as Hinv.
    pose proof (queryPairs_closed _ _ Hinv) as Hq. simpl in Hq.
    pose proof (queryPairs_invariant _ _ _ _ Hinv Hq) as Hinv1.
    eexists _, _, _. split; [exact Hq|].
    split; [apply (queryPairs_closed _ _ Hinv1) | reflexivity].
Qed.

Lemma scenarioA_populated :
  exists this,
    SpatialGridBroadPhase.update scenarioA exampleGrid = inr this /\
    Reachable exampleOptions this.
Proof.
  destruct (SpatialGridBroadPhase.update scenarioA exampleGrid)
    as [e|this] eqn:E; [vm_compute in E; discriminate E|].
  exists this. split; [reflexivity|].
  apply (Reachable_update _ exampleGrid scenarioA).
  - apply Reachable_new. exact exampleGrid_new.
  - exact E.
Defined.

(** Querying twice after [update] with scenario A. *)
Lemma requery_idempotent_witness :
  exists gridDetector,
    SpatialGridBroadPhase.update scenarioA exampleGrid = inr gridDetector /\
    (exists pairs bruteForce1 bruteForce2,
       BruteForceBroadPhase.queryPairs
         (BruteForceBroadPhase.update scenarioA BruteForceBroadPhase.new)
         = inr (pairs, bruteForce1) /\
       BruteForceBroadPhase.queryPairs bruteForce1 = inr (pairs, bruteForce2) /\
       BruteForceBroadPhase.collisionTests bruteForce2
       = BruteForceBroadPhase.collisionTests bruteForce1) /\
    (exists pairs gridDetector1 gridDetector2,
       SpatialGridBroadPhase.queryPairs gridDetector
         = inr (pairs, gridDetector1) /\
       SpatialGridBroadPhase.queryPairs gridDetector1
         = inr (pairs, gridDetector2) /\
       SpatialGridBroadPhase.collisionTests gridDetector2
       = SpatialGridBroadPhase.collisionTests gridDetector1).
Proof.
  destruct scenarioA_populated as (this & Hupd & Hreach).
  exists this. split; [exact Hupd|].
  apply (requery_idempotent exampleOptions).
  - exact exampleOptions_valid.
  - exact Hreach.
Defined.

(** ** Clamping *)

Lemma clamp_max_min (v hi : Z) :
  0 <= hi -> Z.max 0 (Z.min v hi) = clamp v 0 hi.
Proof.
  intros H. unfold clamp.
  destruct (Z.ltb_spec v 0); [lia|].
  destruct (Z.ltb_spec hi v); lia.
Qed.

(** ** Querying before any update *)

(** C9: on a freshly constructed detector, [queryPairs] returns no pair and
    leaves [collisionTests] at 0, for brute force and for a grid built from
    a valid configuration. *)
Theorem fresh_detector_query (options : SpatialGridOptions.t) :
  validOptions options ->
  (exists bruteForce1,
     BruteForceBroadPhase.queryPairs BruteForceBroadPhase.new
       = inr ([], bruteForce1) /\
     BruteForceBroadPhase.collisionTests bruteForce1 = 0%nat) /\
  (exists gridDetector gridDetector1,
     SpatialGridBroadPhase.new options = inr gridDetector /\
     SpatialGridBroadPhase.queryPairs gridDetector
       = inr ([], gridDetector1) /\
     SpatialGridBroadPhase.collisionTests gridDetector1 = 0%nat).
Proof.
  intros Hv. split.
  - eexists. split; reflexivity.
  - pose proof (new_valid _ Hv) as Hnew. cbv zeta in Hnew.
    pose proof (new_invariant _ _ Hnew) as Hinv.
    pose proof (queryPairs_closed _ _ Hinv) as Hq.
    cbv zeta in Hq. cbn [SpatialGridBroadPhase.grid] in Hq.
    rewrite candidates_empty in Hq.
    eexists _, _. split; [exact Hnew|]. split; [exact Hq | reflexivity].
Qed.

(** A fresh detector of the example configuration. *)
Lemma fresh_detector_query_witness :
  (exists bruteForce1,
     BruteForceBroadPhase.queryPairs BruteForceBroadPhase.new
       = inr ([], bruteForce1) /\
     BruteForceBroadPhase.collisionTests bruteForce1 = 0%nat) /\
  (exists gridDetector gridDetector1,
     SpatialGridBroadPhase.new exampleOptions = inr gridDetector /\
     SpatialGridBroadPhase.queryPairs gridDetector
       = inr ([], gridDetector1) /\
     SpatialGridBroadPhase.collisionTests gridDetector1 = 0%nat).
Proof.
  apply (fresh_detector_query exampleOptions). exact exampleOptions_valid.
Defined.

(** ** Touching boxes *)

(** Two boxes that share the edge [x = 10] intersect. *)
Lemma aabbIntersects_spec_witness :
  touching (box 0 0 10 10) (box 10 0 20 10) /\
  aabbIntersects (box 0 0 10 10) (box 10 0 20 10) = true.
Proof.
  assert (touching (box 0 0 10 10) (box 10 0 20 10)) as Ht.
  { split; [left; reflexivity|].
    intros [H|[H|[H|H]]]; discriminate H. }
  split; [exact Ht|].
  apply (aabbIntersects_spec (box 0 0 10 10) (box 10 0 20 10)). exact Ht.
Defined.

(** * Further properties of the detectors *)

(** ** The overlap test and shared points *)

Lemma Qmax_cases (p q : Q) :
  exists m, (p <= m)%Q /\ (q <= m)%Q /\ (m = p \/ m = q).
Proof.
  destruct (Qlt_le_dec p q) as [H|H].
  - exists q. split; [now apply Qlt_le_weak|]. split; [apply Qle_refl | now right].
  - exists p. split; [apply Qle_refl|]. split; [exact H | now left].
Qed.

(** Two well-formed boxes pass the overlap test exactly when some point
    lies in both, their edges included. *)
Theorem aabbIntersects_shared_point (a b : AABB) :
  wellFormed a -> wellFormed b ->
  (aabbIntersects a b = true <-> exists px py, inBox px py a /\ inBox px py b).
Proof.
  intros [Hax Hay] [Hbx Hby]. rewrite aabbIntersects_true. unfold inBox. split.
  - intros (Hx1 & Hx2 & Hy1 & Hy2).
    destruct (Qmax_cases (x (min a)) (x (min b))) as (px & Hpa & Hpb & Hpx).
    destruct (Qmax_cases (y (min a)) (y (min b))) as (py & Hqa & Hqb & Hpy).
    exists px, py.
    destruct Hpx as [->| ->], Hpy as [->| ->]; tauto.
  - intros (px & py & (A1 & A2 & A3 & A4) & (B1 & B2 & B3 & B4)).
    repeat split; eapply Qle_trans; eassumption.
Qed.

Lemma aabbIntersects_shared_point_witness :
  (aabbIntersects (box 0 0 32 32) (box 30 30 62 62) = true <->
   exists px py, inBox px py (box 0 0 32 32) /\ inBox px py (box 30 30 62 62)).
Proof.
  apply aabbIntersects_shared_point; split; simpl; discriminate.
Defined.

(** A box passes the overlap test with itself exactly when it is
    well-formed. *)
Theorem aabbIntersects_self (a : AABB) :
  aabbIntersects a a = true <-> wellFormed a.
Proof. rewrite aabbIntersects_true. unfold wellFormed. tauto. Qed.

(** Growing a box never loses an overlap: what the inner box overlaps, a box
    containing it overlaps. *)
Theorem aabbIntersects_containsBox (outer inner b : AABB) :
  containsBox outer inner ->
  aabbIntersects inner b = true -> aabbIntersects outer b = true.
Proof.
  intros (C1 & C2 & C3 & C4). rewrite !aabbIntersects_true.
  intros (H1 & H2 & H3 & H4).
  repeat split; eapply Qle_trans; eassumption.
Qed.

Lemma aabbIntersects_containsBox_witness :
  aabbIntersects (box 0 0 40 40) (box 30 30 62 62) = true.
Proof.
  apply (aabbIntersects_containsBox (box 0 0 40 40) (box 0 0 32 32)).
  - repeat split; simpl; discriminate.
  - reflexivity.
Defined.

(** ** What brute force returns *)

Lemma elem_of_orderedPairs_lookup {A} (a b : A) (l : list A) :
  (a, b) ∈ orderedPairs l <->
  exists i j : nat, (i < j)%nat /\ l !! i = Some a /\ l !! j = Some b.
Proof.
  induction l as [|c l IH].
  - simpl. rewrite elem_of_nil. split; [tauto|].
    intros (i & j & _ & Hi & _). discriminate Hi.
  - rewrite elem_of_orderedPairs_cons, IH. split.
    + intros [(d & E & Hd)|(i & j & Hij & Hi & Hj)].
      * injection E as -> ->. apply list_elem_of_lookup in Hd as (j & Hj).
        exists 0%nat, (Datatypes.S j). repeat split; [lia | exact Hj].
      * exists (Datatypes.S i), (Datatypes.S j). repeat split; [lia | assumption..].
    + intros (i & j & Hij & Hi & Hj).
      destruct j as [|j]; [lia|]. simpl in Hj.
      destruct i as [|i]; simpl in Hi.
      * injection Hi as ->. left. exists b. split; [reflexivity|].
        apply list_elem_of_lookup. eauto.
      * right. exists i, j. repeat split; [lia | assumption..].
Qed.

(** Brute force returns the pair [(a, b)] exactly when [a] stands before
    [b] in the snapshot and their boxes pass the overlap test; it returns at
    most as many pairs as it made tests. *)
Theorem brute_force_exact (this : BruteForceBroadPhase.t)
  (entities : list Entity) :
  exists pairs this',
    BruteForceBroadPhase.queryPairs
      (BruteForceBroadPhase.update entities this) = inr (pairs, this') /\
    (forall a b,
       (a, b) ∈ pairs <->
       exists i j : nat, (i < j)%nat /\ entities !! i = Some a /\
                         entities !! j = Some b /\
                         aabbIntersects (aabb a) (aabb b) = true) /\
    (length pairs <= BruteForceBroadPhase.collisionTests this')%nat.
Proof.
  eexists _, _. split; [apply brute_queryPairs|]. split.
  - intros a b. cbn [BruteForceBroadPhase.update BruteForceBroadPhase._entities].
    rewrite list_elem_of_filter, elem_of_orderedPairs_lookup.
    unfold overlapping. simpl. split.
    + intros (Hov & i & j & Hij & Hi & Hj). eauto 10.
    + intros (i & j & Hij & Hi & Hj & Hov). eauto 10.
  - apply length_filter.
Qed.

(** ** The tests the grid makes *)

Section Tested.

Import SpatialGridBroadPhase.

Lemma testedInvariant_step (done : list (Entity * Entity))
  (p : Entity * Entity) (st : Locals) :
  testedInvariant done st ->
  testedInvariant (done ++ [p]) (testPair p.1 p.2 st).
Proof.
  destruct p as [a b]. simpl. intros (tested & Ht & Hp & Hin & Hnd).
  assert (forall q, q ∈ tested -> q ∈ done ++ [(a, b)]) as Hdone.
  { intros q Hq. apply elem_of_app. left. now apply Hin. }
  destruct (isChecked (checked st) (pairKey a b)) eqn:Ea.
  { rewrite testPair_skip by auto. exists tested.
    split; [exact Ht|]. split; [exact Hp|]. split; [|exact Hnd].
    intros q Hq. destruct (Hin q Hq) as (_ & H1 & H2). auto. }
  destruct (isChecked (checked st) (pairKey b a)) eqn:Eb.
  { rewrite testPair_skip by auto. exists tested.
    split; [exact Ht|]. split; [exact Hp|]. split; [|exact Hnd].
    intros q Hq. destruct (Hin q Hq) as (_ & H1 & H2). auto. }
  rewrite testPair_test by assumption.
  exists (tested ++ [(a, b)]). cbn [tests pairs checked].
  split; [rewrite length_app; simpl; lia|]. split; [|split].
  - rewrite filter_app, Hp.
    destruct (aabbIntersects (aabb a) (aabb b)) eqn:Hov.
    + rewrite (filter_cons_True overlapping) by exact Hov. reflexivity.
    + rewrite (filter_cons_False overlapping)
        by (unfold overlapping; simpl; congruence).
      change (filter overlapping []) with (@nil (Entity * Entity)).
      now rewrite app_nil_r.
  - intros q Hq. rewrite !isChecked_insert.
    apply elem_of_app in Hq as [Hq|Hq].
    + destruct (Hin q Hq) as (_ & H1 & H2). auto.
    + apply list_elem_of_singleton in Hq as ->. simpl.
      split; [apply elem_of_app; right; now left | auto].
  - apply noDuplicatePairs_snoc; [exact Hnd|].
    intros H. apply inPairSet_alt in H as (q & Hq & Hsame).
    destruct (Hin q Hq) as (_ & H1 & _).
    destruct q as [c d]. unfold idPair, sameUnordered in Hsame. simpl in *.
    destruct Hsame as [Hsame|Hsame]; injection Hsame as Hc Hd.
    + rewrite (pairKey_ids c d a b Hc Hd) in H1. congruence.
    + rewrite (pairKey_ids c d b a Hc Hd) in H1. congruence.
Qed.

Lemma testedInvariant_run (cands : list (Entity * Entity)) :
  testedInvariant cands
    (runCandidates cands {| pairs := []; checked := ∅; tests := 0 |}).
Proof.
  induction cands as [|p cands IH] using rev_ind.
  - exists []. split; [reflexivity|]. split; [reflexivity|].
    split; [|exact I]. intros q Hq. now apply elem_of_nil in Hq.
  - unfold runCandidates. rewrite foldl_snoc. now apply testedInvariant_step.
Qed.

(** A list without a repeated unordered id pair has no repeated pair. *)
Lemma noDuplicatePairs_NoDup (ps : list (Entity * Entity)) :
  noDuplicatePairs ps -> NoDup ps.
Proof.
  induction ps as [|p ps IH]; [constructor|].
  simpl. intros [Hp Hnd]. constructor; [|now apply IH].
  intros Hin. apply Hp, inPairSet_alt. exists p. split; [exact Hin | now left].
Qed.

(** The counter of the grid is bounded by the number of candidates, and by
    the number of ordered pairs of any list the candidates are drawn
    from. *)
Lemma tests_bounded (cands all : list (Entity * Entity)) :
  (forall p, p ∈ cands -> p ∈ all) ->
  let st := runCandidates cands {| pairs := []; checked := ∅; tests := 0 |} in
  (length (pairs st) <= tests st)%nat /\ (tests st <= length all)%nat.
Proof.
  intros Hsub. cbv zeta.
  destruct (testedInvariant_run cands) as (tested & Ht & Hp & Hin & Hnd).
  rewrite Ht, Hp. split; [apply length_filter|].
  apply submseteq_length, NoDup_submseteq; [now apply noDuplicatePairs_NoDup|].
  intros q Hq. apply Hsub. now apply Hin.
Qed.

End Tested.

(** ** The grid against brute force, on any snapshot *)





(** Under the conditions of the equivalence, the result of the grid is an
    arrangement of the overlapping ordered pairs of the snapshot. *)
Lemma gridResult_Permutation (this : SpatialGridBroadPhase.t)
  (entities : list Entity) :
  (0 < SpatialGridBroadPhase.cellSize this)%Q ->
  1 <= SpatialGridBroadPhase.numCols this ->
  1 <= SpatialGridBroadPhase.numRows this ->
  uniqueIds entities ->
  keysUnambiguous entities ->
  Forall (fun e => wellFormed (aabb e)) entities ->
  SpatialGridBroadPhase.pairs (gridResult this entities)
  ≡ₚ filter overlapping (orderedPairs entities).
Proof.
  intros Hcs Hnc Hnr Hunique Hkeys Hwf.
  apply NoDup_Permutation.
  - apply noDuplicatePairs_NoDup.
    apply (cacheInvariant_run (candidates (populatedGrid this entities))).
  - apply noDuplicatePairs_NoDup. now apply brute_noDuplicatePairs.
  - intros p. split.
    + apply (grid_pairs_sound this entities).
    + now apply (grid_pairs_complete this entities).
Qed.

(** ** What update leaves in the grid *)



(** ** Snapshots of at most one entity *)



(** ** The cell of a point *)

(** Cell indices grow with the coordinates. *)
Theorem worldToGrid_monotone (options : SpatialGridOptions.t)
  (this : SpatialGridBroadPhase.t) (px py px' py' : Q) :
  validOptions options ->
  Reachable options this ->
  ((px <= px')%Q ->
   col (SpatialGridBroadPhase.worldToGrid this px py)
   <= col (SpatialGridBroadPhase.worldToGrid this px' py')) /\
  ((py <= py')%Q ->
   row (SpatialGridBroadPhase.worldToGrid this px py)
   <= row (SpatialGridBroadPhase.worldToGrid this px' py')).
Proof.
  intros _ Hreach.
  pose proof (Reachable_invariant _ _ Hreach) as Hinv.
  destruct (gridInvariant_dims _ _ Hinv) as (Hcs & _ & _).
  split; intros H.
  - now apply worldToGrid_col_mono.
  - now apply worldToGrid_row_mono.
Qed.

Lemma worldToGrid_monotone_witness :
  col (SpatialGridBroadPhase.worldToGrid exampleGrid 10 50)
  <= col (SpatialGridBroadPhase.worldToGrid exampleGrid 40 5).
Proof.
  apply (worldToGrid_monotone exampleOptions exampleGrid 10 50 40 5).
  - exact exampleOptions_valid.
  - apply Reachable_new. exact exampleGrid_new.
  - simpl. discriminate.
Defined.

(** * The demo script *)

(** ** The order of strings *)

Lemma stringLe_nil (s : string) : stringLe "" s.
Proof. now destruct s. Qed.

Lemma stringLe_cons_nil (c : ascii) (s : string) : ~ stringLe (String c s) "".
Proof. unfold stringLe. simpl. discriminate. Qed.

Lemma stringLe_cons (c1 c2 : ascii) (s1 s2 : string) :
  stringLe (String c1 s1) (String c2 s2) <->
  (N_of_ascii c1 < N_of_ascii c2)%N \/ (c1 = c2 /\ stringLe s1 s2).
Proof.
  unfold stringLe, String.leb. simpl. unfold Ascii.compare.
  destruct (N.compare_spec (N_of_ascii c1) (N_of_ascii c2)) as [E|Hlt|Hgt].
  - assert (c1 = c2) as ->.
    { rewrite <- (ascii_N_embedding c1), <- (ascii_N_embedding c2).
      now rewrite E. }
    split; [now right | intros [H|[_ H]]; [lia | exact H]].
  - split; [now left | reflexivity].
  - split; [discriminate|]. intros [H|[-> _]]; lia.
Qed.

#[global] Instance stringLe_trans : Transitive stringLe.
Proof.
  intros s1. induction s1 as [|c1 s1 IH]; intros s2 s3 H12 H23.
  - apply stringLe_nil.
  - destruct s2 as [|c2 s2]; [now apply stringLe_cons_nil in H12|].
    destruct s3 as [|c3 s3]; [now apply stringLe_cons_nil in H23|].
    apply stringLe_cons in H12, H23. apply stringLe_cons.
    destruct H12 as [H12|[-> H12]], H23 as [H23|[-> H23]]; eauto.
    left. lia.
Qed.

#[global] Instance stringLe_total : Total stringLe.
Proof. intros s t. apply String.leb_total. Qed.

#[global] Instance stringLe_antisym : AntiSymm (=) stringLe.
Proof. intros s t. apply String.leb_antisym. Qed.

(** ** Sorting *)

(** [sort()] gives the same array for any two arrangements of the same
    strings. *)
Lemma sortStrings_Permutation (l1 l2 : list string) :
  l1 ≡ₚ l2 -> sortStrings l1 = sortStrings l2.
Proof.
  intros Hperm. unfold sortStrings.
  apply (StronglySorted_unique stringLe).
  - apply StronglySorted_merge_sort; apply _.
  - apply StronglySorted_merge_sort; apply _.
  - now rewrite !merge_sort_Permutation.
Qed.

Lemma sortStrings_length (l : list string) :
  length (sortStrings l) = length l.
Proof. apply Permutation_length, merge_sort_Permutation. Qed.

(** The two ids of a pair, sorted: the smaller text first. *)
Lemma sortStrings_two (s t : string) :
  sortStrings [s; t] = if decide (stringLe s t) then [s; t] else [t; s].
Proof.
  unfold sortStrings.
  apply (StronglySorted_unique stringLe).
  - apply StronglySorted_merge_sort; apply _.
  - case_decide as Hle.
    + repeat constructor. exact Hle.
    + repeat constructor. destruct (total stringLe s t); [contradiction | assumption].
  - rewrite merge_sort_Permutation. case_decide; [reflexivity | apply perm_swap].
Qed.

Lemma normalizePair_unfold (p : Entity * Entity) :
  normalizePair p
  = if decide (stringLe (idToString (id p.1)) (idToString (id p.2)))
    then idToString (id p.1) +:+ ":" +:+ idToString (id p.2)
    else idToString (id p.2) +:+ ":" +:+ idToString (id p.1).
Proof.
  unfold normalizePair. cbv zeta. rewrite sortStrings_two.
  now case_decide.
Qed.

Lemma normalizePair_swap (a b : Entity) :
  normalizePair (b, a) = normalizePair (a, b).
Proof.
  unfold normalizePair. cbv zeta. cbn [fst snd].
  now rewrite (sortStrings_Permutation _ _ (perm_swap _ _ [])).
Qed.

(** [normalizePairs] gives one text per pair, and its result does not
    depend on the order of the pairs, nor on the order of the two entities
    in the pairs. *)
Theorem normalizePairs_order_independent (pairs1 pairs2 : list (Entity * Entity)) :
  pairs1 ≡ₚ pairs2 ->
  normalizePairs pairs1 = normalizePairs pairs2 /\
  normalizePairs ((fun p => (p.2, p.1)) <$> pairs1) = normalizePairs pairs2 /\
  length (normalizePairs pairs1) = length pairs1.
Proof.
  intros Hperm. unfold normalizePairs. split; [|split].
  - apply sortStrings_Permutation. now rewrite Hperm.
  - apply sortStrings_Permutation. rewrite <- Hperm, <- list_fmap_compose.
    erewrite list_fmap_ext; [reflexivity|].
    intros i [a b] _. simpl. apply normalizePair_swap.
  - now rewrite sortStrings_length, length_fmap.
Qed.

Lemma normalizePairs_order_independent_witness :
  normalizePairs
    [ ({| id := IdNum 1; aabb := box 0 0 1 1 |},
       {| id := IdNum 2; aabb := box 0 0 1 1 |});
      ({| id := IdStr "b"; aabb := box 0 0 1 1 |},
       {| id := IdStr "a"; aabb := box 0 0 1 1 |}) ]
  = normalizePairs
      [ ({| id := IdStr "b"; aabb := box 0 0 1 1 |},
         {| id := IdStr "a"; aabb := box 0 0 1 1 |});
        ({| id := IdNum 1; aabb := box 0 0 1 1 |},
         {| id := IdNum 2; aabb := box 0 0 1 1 |}) ].
Proof.
  apply normalizePairs_order_independent. apply perm_swap.
Defined.

(** ** Comparing two results *)

Lemma compareElements_equal (l : list string) (label1 label2 : string)
  (indices : list nat) :
  compareElements l l label1 label2 indices = (true, []).
Proof.
  induction indices as [|i indices IH]; [reflexivity|].
  simpl. now rewrite decide_True.
Qed.

Lemma compareElements_differ (l1 l2 : list string) (label1 label2 : string)
  (indices : list nat) :
  (exists i, i ∈ indices /\ l1 !! i <> l2 !! i) ->
  exists line, compareElements l1 l2 label1 label2 indices = (false, [line]).
Proof.
  induction indices as [|i indices IH]; intros (j & Hj & Hne).
  - now apply elem_of_nil in Hj.
  - simpl. case_decide as E; [|eauto].
    apply IH. exists j. split; [|exact Hne].
    apply elem_of_cons in Hj as [->|Hj]; [contradiction | exact Hj].
Qed.

(** The two outcomes of [comparePairSets]. *)
Lemma comparePairSets_cases (pairs1 pairs2 : list (Entity * Entity))
  (label1 label2 : string) :
  (normalizePairs pairs1 = normalizePairs pairs2 ->
   comparePairSets pairs1 pairs2 label1 label2 = (true, [])) /\
  (normalizePairs pairs1 <> normalizePairs pairs2 ->
   exists line,
     comparePairSets pairs1 pairs2 label1 label2 = (false, [line])).
Proof.
  unfold comparePairSets. cbv zeta. split.
  - intros ->. rewrite decide_True by reflexivity.
    apply compareElements_equal.
  - intros Hne. case_decide as Hlen; [|eauto].
    apply compareElements_differ.
    destruct (decide (Forall (fun i => normalizePairs pairs1 !! i
                                     = normalizePairs pairs2 !! i)
                        (seq 0 (length (normalizePairs pairs1)))))
      as [Hall|Hsome].
    + exfalso. apply Hne, list_eq. intros i.
      destruct (decide (i < length (normalizePairs pairs1))%nat) as [Hi|Hi].
      * rewrite Forall_forall in Hall. apply Hall, elem_of_seq. lia.
      * rewrite !lookup_ge_None_2 by lia. reflexivity.
    + apply not_Forall_Exists in Hsome; [|apply _].
      apply Exists_exists in Hsome as (i & Hi & Hd). eauto.
Qed.

(** [comparePairSets] answers [true], and writes nothing, exactly when the
    two results have the same normalized texts; otherwise it answers
    [false] and writes one line with [console.error]. *)
Theorem comparePairSets_spec (pairs1 pairs2 : list (Entity * Entity))
  (label1 label2 : string) :
  (normalizePairs pairs1 = normalizePairs pairs2 ->
   comparePairSets pairs1 pairs2 label1 label2 = (true, [])) /\
  (normalizePairs pairs1 <> normalizePairs pairs2 ->
   exists line,
     comparePairSets pairs1 pairs2 label1 label2 = (false, [line])).
Proof. apply comparePairSets_cases. Qed.

Lemma comparePairSets_spec_witness :
  comparePairSets
    [ ({| id := IdNum 1; aabb := box 0 0 1 1 |},
       {| id := IdNum 2; aabb := box 0 0 1 1 |}) ]
    [ ({| id := IdNum 2; aabb := box 5 5 6 6 |},
       {| id := IdNum 1; aabb := box 5 5 6 6 |}) ]
    "BruteForce" "SpatialGrid" = (true, []).
Proof.
  apply comparePairSets_spec. vm_compute. reflexivity.
Defined.

(** ** The check of the demo on the two detectors *)






(** ** Random entities *)

Lemma tenths_unit : unitRandom tenths.
Proof.
  intros n. unfold tenths, Qle, Qlt. simpl.
  pose proof (Z.mod_pos_bound (Z.of_nat n) 10). lia.
Qed.

(** The boxes [createRandomAABB] makes. *)
Lemma createRandomAABB_facts (random : nat -> Q) (minX minY maxX maxY : Q)
  (minSize maxSize : option Q) (n : nat) :
  unitRandom random ->
  let lo := default 10%Q minSize in
  let hi := default 50%Q maxSize in
  (0 <= lo)%Q -> (lo <= hi)%Q ->
  let a := (createRandomAABB random minX minY maxX maxY minSize maxSize n).1 in
  (createRandomAABB random minX minY maxX maxY minSize maxSize n).2
    = (n + 4)%nat /\
  wellFormed a /\
  (lo <= x (max a) - x (min a))%Q /\ (x (max a) - x (min a) <= hi)%Q /\
  (lo <= y (max a) - y (min a))%Q /\ (y (max a) - y (min a) <= hi)%Q /\
  ((hi <= maxX - minX)%Q -> (hi <= maxY - minY)%Q ->
   (minX <= x (min a))%Q /\ (x (max a) <= maxX)%Q /\
   (minY <= y (min a))%Q /\ (y (max a) <= maxY)%Q).
Proof.
  intros Hrand lo hi Hlo Hhi. unfold createRandomAABB. cbv zeta.
  cbn [fst snd min max x y]. fold lo hi.
  destruct (Hrand n) as [H0 H1], (Hrand (n + 1)%nat) as [H2 H3],
    (Hrand (n + 2)%nat) as [H4 H5], (Hrand (n + 3)%nat) as [H6 H7].
  generalize dependent (random n). generalize dependent (random (n + 1)%nat).
  generalize dependent (random (n + 2)%nat).
  generalize dependent (random (n + 3)%nat).
  intros r3 H6 H7 r2 H4 H5 r1 H2 H3 r0 H0 H1. clearbody lo hi.
  split; [reflexivity|]. unfold wellFormed. cbn [min max x y].
  assert (lo <= lo + r0 * (hi - lo) /\ lo + r0 * (hi - lo) <= hi)%Q
    as [Hw0 Hw1] by (split; nra).
  assert (lo <= lo + r1 * (hi - lo) /\ lo + r1 * (hi - lo) <= hi)%Q
    as [Hh0 Hh1] by (split; nra).
  generalize dependent (lo + r0 * (hi - lo))%Q.
  generalize dependent (lo + r1 * (hi - lo))%Q.
  intros height Hh0 Hh1 width Hw0 Hw1.
  split; [split; lra|].
  do 4 (split; [lra|]).
  intros Hw Hh. repeat split; nra.
Qed.

(** With draws in [0, 1) and sizes [0 <= minSize <= maxSize],
    [createRandomAABB] makes four draws and returns a well-formed box,
    whatever the region, also one smaller than the box. *)
Theorem createRandomAABB_spec (random : nat -> Q) (minX minY maxX maxY : Q)
  (minSize maxSize : option Q) (n : nat) :
  unitRandom random ->
  let lo := default 10%Q minSize in
  let hi := default 50%Q maxSize in
  (0 <= lo)%Q -> (lo <= hi)%Q ->
  (createRandomAABB random minX minY maxX maxY minSize maxSize n).2
    = (n + 4)%nat /\
  wellFormed
    (createRandomAABB random minX minY maxX maxY minSize maxSize n).1.
Proof.
  intros Hrand lo hi Hlo Hhi.
  destruct (createRandomAABB_facts random minX minY maxX maxY minSize maxSize
              n Hrand Hlo Hhi) as (Hn & Hwf & _).
  split; [exact Hn | exact Hwf].
Qed.

Lemma createRandomAABB_spec_witness :
  (createRandomAABB tenths 0 0 1024 768 None None 1).2 = (1 + 4)%nat /\
  wellFormed (createRandomAABB tenths 0 0 1024 768 None None 1).1.
Proof.
  apply (createRandomAABB_spec tenths 0 0 1024 768 None None 1).
  - exact tenths_unit.
  - simpl. discriminate.
  - simpl. discriminate.
Defined.

Lemma createRandomEntities_closed (random : nat -> Q) (k : nat)
  (worldWidth worldHeight : Q) (n : nat) :
  createRandomEntities random (Z.of_nat k) worldWidth worldHeight n
  = ((fun i => {| id := IdNum i;
                  aabb := (createRandomAABB random 0 0 worldWidth worldHeight
                             None None (n + 4 * Z.to_nat i)).1 |})
       <$> seqZ 0 (Z.of_nat k),
     (n + 4 * k)%nat).
Proof.
  unfold createRandomEntities. induction k as [|k IH].
  - simpl. f_equal. lia.
  - rewrite seqZ_S, foldl_app, IH, fmap_app.
    cbn [foldl fst snd fmap list_fmap].
    replace (n + 4 * Z.to_nat (0 + Z.of_nat k))%nat with (n + 4 * k)%nat by lia.
    destruct (createRandomAABB random 0 0 worldWidth worldHeight None None
                (n + 4 * k)) as [box n'] eqn:E.
    assert (n' = (n + 4 * k + 4)%nat) as ->.
    { unfold createRandomAABB in E. now injection E. }
    cbn [fst]. f_equal. lia.
Qed.

Lemma createRandomEntities_nonpositive (random : nat -> Q) (count : Z)
  (worldWidth worldHeight : Q) (n : nat) :
  count <= 0 ->
  createRandomEntities random count worldWidth worldHeight n = ([], n).
Proof.
  intros H. unfold createRandomEntities. now rewrite seqZ_nil by exact H.
Qed.

(** The entities [createRandomEntities] makes. *)
Lemma createRandomEntities_facts (random : nat -> Q) (count : Z)
  (worldWidth worldHeight : Q) (n : nat) :
  unitRandom random ->
  let r := createRandomEntities random count worldWidth worldHeight n in
  length r.1 = Z.to_nat count /\
  r.2 = (n + 4 * Z.to_nat count)%nat /\
  id <$> r.1 = IdNum <$> seqZ 0 count /\
  uniqueIds r.1 /\
  numericIds r.1 /\
  Forall (fun e => wellFormed (aabb e)) r.1 /\
  ((50 <= worldWidth)%Q -> (50 <= worldHeight)%Q ->
   Forall (fun e => inWorld worldWidth worldHeight (aabb e)) r.1).
Proof.
  intros Hrand. cbv zeta.
  destruct (Z.le_gt_cases count 0) as [Hneg|Hpos].
  { rewrite createRandomEntities_nonpositive by exact Hneg.
    rewrite seqZ_nil by exact Hneg. simpl.
    split; [lia|]. split; [lia|]. split; [reflexivity|].
    split; [constructor|]. repeat split; constructor. }
  rewrite <- (Z2Nat.id count) by lia.
  rewrite createRandomEntities_closed, Nat2Z.id. cbn [fst snd].
  set (entity := fun i => {| id := IdNum i; aabb := _ |}).
  assert (id <$> (entity <$> seqZ 0 (Z.of_nat (Z.to_nat count)))
          = IdNum <$> seqZ 0 (Z.of_nat (Z.to_nat count))) as Hids.
  { rewrite <- list_fmap_compose. now apply list_fmap_ext. }
  split; [now rewrite length_fmap, length_seqZ, Nat2Z.id|].
  split; [reflexivity|]. split; [exact Hids|].
  split; [|split; [|split]].
  - unfold uniqueIds. rewrite Hids. apply NoDup_fmap_2; [|apply NoDup_seqZ].
    intros i j E. now injection E.
  - apply Forall_fmap, Forall_forall. intros i _. now exists i.
  - apply Forall_fmap, Forall_forall. intros i _. simpl.
    now apply (createRandomAABB_facts random 0 0 worldWidth worldHeight None None).
  - intros Hw Hh. apply Forall_fmap, Forall_forall. intros i _. simpl.
    destruct (createRandomAABB_facts random 0 0 worldWidth worldHeight
                None None (n + 4 * Z.to_nat i) Hrand)
      as (_ & _ & _ & _ & _ & _ & Hin); [simpl; discriminate..|].
    simpl in Hin. unfold inWorld. apply Hin; lra.
Qed.

(** With draws in [0, 1), [createRandomEntities] returns [count] entities
    (none for a negative [count]) after four draws each, with the ids
    0, 1, ..., [count - 1] in this order, hence unique and numeric, and with
    well-formed boxes, which lie in the world when it is at least 50 wide
    and high. *)
Theorem createRandomEntities_spec (random : nat -> Q) (count : Z)
  (worldWidth worldHeight : Q) (n : nat) :
  unitRandom random ->
  let r := createRandomEntities random count worldWidth worldHeight n in
  length r.1 = Z.to_nat count /\
  r.2 = (n + 4 * Z.to_nat count)%nat /\
  id <$> r.1 = IdNum <$> seqZ 0 count /\
  uniqueIds r.1 /\
  numericIds r.1 /\
  Forall (fun e => wellFormed (aabb e)) r.1 /\
  ((50 <= worldWidth)%Q -> (50 <= worldHeight)%Q ->
   Forall (fun e => inWorld worldWidth worldHeight (aabb e)) r.1).
Proof. apply createRandomEntities_facts. Qed.

Lemma createRandomEntities_spec_witness :
  let r := createRandomEntities tenths 10 1024 768 0 in
  length r.1 = Z.to_nat 10 /\
  r.2 = (0 + 4 * Z.to_nat 10)%nat /\
  id <$> r.1 = IdNum <$> seqZ 0 10 /\
  uniqueIds r.1 /\
  numericIds r.1 /\
  Forall (fun e => wellFormed (aabb e)) r.1 /\
  ((50 <= 1024)%Q -> (50 <= 768)%Q ->
   Forall (fun e => inWorld 1024 768 (aabb e)) r.1).
Proof.
  apply (createRandomEntities_spec tenths 10 1024 768 0). exact tenths_unit.
Defined.

(** ** A round of the demo *)



(** ** What a passed check tells *)

Lemma sameUnordered_trans (p q r : Id * Id) :
  sameUnordered p q -> sameUnordered q r -> sameUnordered p r.
Proof.
  destruct p as [p1 p2], q as [q1 q2], r as [r1 r2].
  unfold sameUnordered. simpl.
  intros [H1|H1] [H2|H2]; injection H1 as -> ->; injection H2 as -> ->; auto.
Qed.

(** Two pairs of numeric ids with the same normalized text are the same
    unordered id pair. *)
Lemma normalizePair_numeric (p q : Entity * Entity) :
  numericIds [p.1; p.2] -> numericIds [q.1; q.2] ->
  normalizePair p = normalizePair q -> sameUnordered (idPair p) (idPair q).
Proof.
  unfold numericIds. rewrite !Forall_cons.
  intros ((a & Ha) & (b & Hb) & _) ((c & Hc) & (d & Hd) & _).
  rewrite !normalizePair_unfold. unfold idPair, sameUnordered.
  rewrite Ha, Hb, Hc, Hd. simpl.
  repeat case_decide; intros E;
    apply key_split in E as [E1 E2]; try apply noColon_pretty_Z;
    apply (inj pretty) in E1, E2; subst; auto.
Qed.

(** When all ids are numbers, a check that answers [true] is right: the
    two results have the same number of pairs and hold the same set of
    unordered id pairs. *)
Theorem check_exact_for_numeric_ids (pairs1 pairs2 : list (Entity * Entity))
  (label1 label2 : string) :
  Forall (fun p => numericIds [p.1; p.2]) pairs1 ->
  Forall (fun p => numericIds [p.1; p.2]) pairs2 ->
  (comparePairSets pairs1 pairs2 label1 label2).1 = true ->
  length pairs1 = length pairs2 /\ samePairSet pairs1 pairs2.
Proof.
  intros Hn1 Hn2 Htrue.
  assert (normalizePairs pairs1 = normalizePairs pairs2) as Hnorm.
  { destruct (decide (normalizePairs pairs1 = normalizePairs pairs2))
      as [E|Hne]; [exact E|].
    destruct (comparePairSets_cases pairs1 pairs2 label1 label2) as [_ Hfalse].
    destruct (Hfalse Hne) as (line & Hline).
    rewrite Hline in Htrue. discriminate Htrue. }
  assert (normalizePair <$> pairs1 ≡ₚ normalizePair <$> pairs2) as Hperm.
  { unfold normalizePairs, sortStrings in Hnorm.
    rewrite <- (merge_sort_Permutation stringLe (normalizePair <$> pairs1)).
    rewrite Hnorm. apply merge_sort_Permutation. }
  split.
  { apply Permutation_length in Hperm. now rewrite !length_fmap in Hperm. }
  assert (forall ps qs : list (Entity * Entity),
            Forall (fun p => numericIds [p.1; p.2]) ps ->
            Forall (fun p => numericIds [p.1; p.2]) qs ->
            normalizePair <$> ps ≡ₚ normalizePair <$> qs ->
            forall q, inPairSet q ps -> inPairSet q qs) as Hincl.
  { intros ps qs Hps Hqs Hpq q Hq.
    apply inPairSet_alt in Hq as (p & Hp & Hsame).
    assert (normalizePair p ∈ normalizePair <$> qs) as Hin.
    { rewrite <- Hpq. now apply list_elem_of_fmap_2. }
    apply list_elem_of_fmap in Hin as (p' & E & Hp').
    apply inPairSet_alt. exists p'. split; [exact Hp'|].
    apply (sameUnordered_trans _ (idPair p)); [|exact Hsame].
    rewrite Forall_forall in Hps, Hqs.
    apply normalizePair_numeric; auto. }
  intros q. split; [now apply Hincl | now apply Hincl].
Qed.

Lemma check_exact_for_numeric_ids_witness :
  length [ ({| id := IdNum 1; aabb := box 0 0 1 1 |},
            {| id := IdNum 2; aabb := box 0 0 1 1 |}) ]
  = length [ ({| id := IdNum 2; aabb := box 5 5 6 6 |},
              {| id := IdNum 1; aabb := box 5 5 6 6 |}) ] /\
  samePairSet
    [ ({| id := IdNum 1; aabb := box 0 0 1 1 |},
       {| id := IdNum 2; aabb := box 0 0 1 1 |}) ]
    [ ({| id := IdNum 2; aabb := box 5 5 6 6 |},
       {| id := IdNum 1; aabb := box 5 5 6 6 |}) ].
Proof.
  apply (check_exact_for_numeric_ids _ _ "BruteForce" "SpatialGrid").
  - repeat constructor; eexists; reflexivity.
  - repeat constructor; eexists; reflexivity.
  - vm_compute. reflexivity.
Defined.

(** * The simulation of the web page *)

(** ** The move of an entity *)

(** Cases on the bounce tests and on the [Math.max] and [Math.min] of
    [moveEntity], then linear arithmetic. *)
Ltac solve_move :=
  unfold Web.moveEntity, Web.WORLD_WIDTH, Web.WORLD_HEIGHT; cbv zeta;
  repeat match goal with
         | |- context [Qltb ?p ?q || Qltb ?r ?t] =>
             let E := fresh "E" in
             destruct (Qltb p q || Qltb r t) eqn:E;
             [apply orb_true_iff in E; rewrite !Qltb_lt in E
             |apply orb_false_iff in E; rewrite !Qltb_ge in E]
         end;
  cbn [SimEntity.id SimEntity.aabb SimEntity.vx SimEntity.vy min max x y];
  repeat match goal with
         | |- context [Qmin ?p ?q] =>
             let H := fresh "H" in
             pose proof (Q.min_spec p q) as H;
             generalize dependent (Qmin p q); intros
         end;
  repeat match goal with
         | |- context [Qmax ?p ?q] =>
             let H := fresh "H" in
             pose proof (Q.max_spec p q) as H;
             generalize dependent (Qmax p q); intros
         end;
  try tauto; try lra.



(** An entity that the velocity leaves within the world on an axis is
    shifted on that axis and keeps its velocity there; and an entity with a
    well-formed box keeps one as long as the velocity does not take its
    [max] corner below 0. *)
Theorem moveEntity_inside (entity : SimEntity.t) :
  let a := SimEntity.aabb entity in
  let vx := SimEntity.vx entity in
  let vy := SimEntity.vy entity in
  let moved := Web.moveEntity entity in
  let a' := SimEntity.aabb moved in
  ((0 <= x (min a) + vx)%Q -> (x (max a) + vx <= Web.WORLD_WIDTH)%Q ->
   x (min a') = (x (min a) + vx)%Q /\ x (max a') = (x (max a) + vx)%Q /\
   SimEntity.vx moved = vx) /\
  ((0 <= y (min a) + vy)%Q -> (y (max a) + vy <= Web.WORLD_HEIGHT)%Q ->
   y (min a') = (y (min a) + vy)%Q /\ y (max a') = (y (max a) + vy)%Q /\
   SimEntity.vy moved = vy) /\
  (wellFormed a -> (0 <= x (max a) + vx)%Q -> (0 <= y (max a) + vy)%Q ->
   wellFormed a').
Proof.
  cbv zeta. split; [|split].
  - intros Hlo Hhi. unfold Web.WORLD_WIDTH in Hhi. solve_move.
  - intros Hlo Hhi. unfold Web.WORLD_HEIGHT in Hhi. solve_move.
  - intros [Hx Hy] H1 H2. unfold wellFormed. split; solve_move.
Qed.

Lemma moveEntity_inside_witness :
  let entity := {| SimEntity.id := IdNum 0; SimEntity.aabb := box 10 5 30 25;
                   SimEntity.vx := -2; SimEntity.vy := 1 |} in
  x (min (SimEntity.aabb (Web.moveEntity entity))) = (10 + -2)%Q /\
  x (max (SimEntity.aabb (Web.moveEntity entity))) = (30 + -2)%Q /\
  SimEntity.vx (Web.moveEntity entity) = (-2)%Q.
Proof.
  cbv zeta.
  apply (moveEntity_inside
           {| SimEntity.id := IdNum 0; SimEntity.aabb := box 10 5 30 25;
              SimEntity.vx := -2; SimEntity.vy := 1 |}).
  - simpl. discriminate.
  - simpl. discriminate.
Defined.

(** A bounce off a wall of the world reverses the velocity on that axis,
    where the sums are those the machine computes; past the left or the top
    edge the [min] corner is put at 0; when the move leaves the [min] corner
    at or above 0, it ends at or below where the velocity took it: the
    bounce off the right or the bottom edge never pushes the box further
    out; and without a bounce on an axis the two corners are where the
    velocity took them, with the velocity kept. *)
Theorem moveEntity_bounce (entity : SimEntity.t) :
  let a := SimEntity.aabb entity in
  let vx := SimEntity.vx entity in
  let vy := SimEntity.vy entity in
  let newMinX := fadd (x (min a)) vx in
  let newMaxX := fadd (x (max a)) vx in
  let newMinY := fadd (y (min a)) vy in
  let newMaxY := fadd (y (max a)) vy in
  let moved := DoubleWeb.moveEntity entity in
  let a' := SimEntity.aabb moved in
  ((newMinX < 0)%Q \/ (Web.WORLD_WIDTH < newMaxX)%Q ->
   SimEntity.vx moved = (- vx)%Q) /\
  ((newMinX < 0)%Q -> (x (min a') == 0)%Q) /\
  ((0 <= newMinX)%Q -> (0 <= x (min a') <= newMinX)%Q) /\
  ((0 <= newMinX)%Q -> (newMaxX <= Web.WORLD_WIDTH)%Q ->
   SimEntity.vx moved = vx /\ x (min a') = newMinX /\
   x (max a') = newMaxX) /\
  ((newMinY < 0)%Q \/ (Web.WORLD_HEIGHT < newMaxY)%Q ->
   SimEntity.vy moved = (- vy)%Q) /\
  ((newMinY < 0)%Q -> (y (min a') == 0)%Q) /\
  ((0 <= newMinY)%Q -> (0 <= y (min a') <= newMinY)%Q) /\
  ((0 <= newMinY)%Q -> (newMaxY <= Web.WORLD_HEIGHT)%Q ->
   SimEntity.vy moved = vy /\ y (min a') = newMinY /\
   y (max a') = newMaxY).
Proof.
  cbv zeta. unfold DoubleWeb.moveEntity. cbv zeta.
  generalize (fadd (x (min (SimEntity.aabb entity))) (SimEntity.vx entity)).
  generalize (fadd (x (max (SimEntity.aabb entity))) (SimEntity.vx entity)).
  generalize (fadd (y (min (SimEntity.aabb entity))) (SimEntity.vy entity)).
  generalize (fadd (y (max (SimEntity.aabb entity))) (SimEntity.vy entity)).
  intros maxY minY maxX minX.
  generalize (fsub Web.WORLD_WIDTH (fsub maxX minX)).
  generalize (fsub Web.WORLD_HEIGHT (fsub maxY minY)).
  intros spanY spanX.
  unfold Web.WORLD_WIDTH, Web.WORLD_HEIGHT.
  repeat split; intros; solve_move.
Qed.

Lemma moveEntity_bounce_witness :
  let entity := {| SimEntity.id := IdNum 0; SimEntity.aabb := box 1 5 21 25;
                   SimEntity.vx := -2; SimEntity.vy := 1 |} in
  SimEntity.vx (DoubleWeb.moveEntity entity) = (- -2)%Q.
Proof.
  cbv zeta.
  apply (moveEntity_bounce
           {| SimEntity.id := IdNum 0; SimEntity.aabb := box 1 5 21 25;
              SimEntity.vx := -2; SimEntity.vy := 1 |}).
  left. vm_compute. reflexivity.
Defined.

(** ** A frame of the simulation *)

Lemma options_new : SpatialGridBroadPhase.new Web.options = inr demoGrid.
Proof. vm_compute. reflexivity. Qed.

Lemma moveEntity_id (entities : list SimEntity.t) :
  id <$> (SimEntity.toEntity <$> (Web.moveEntity <$> entities))
  = id <$> (SimEntity.toEntity <$> entities).
Proof.
  rewrite <- !list_fmap_compose. apply list_fmap_ext. intros _ e _.
  unfold compose, SimEntity.toEntity, Web.moveEntity. cbv zeta.
  do 2 destruct (_ || _); reflexivity.
Qed.

(** What [updateSimulation] leaves, on a grid detector in a regular
    state. *)
Lemma updateSimulation_closed (sin : Q -> Q) (options : SpatialGridOptions.t)
  (s : Web.State) :
  Reachable options (Web.spatialGrid s) ->
  let moved := SimEntity.toEntity <$> (Web.moveEntity <$> Web.entities s) in
  let due :=
    Web.BRUTE_FORCE_UPDATE_INTERVAL <=? Web.bruteForceFrameCounter s + 1 in
  exists s',
    Web.updateSimulation sin s = inr s' /\
    Web.entities s' = Web.moveEntity <$> Web.entities s /\
    Reachable options (Web.spatialGrid s') /\
    Web.collisionPairs s'
    = SpatialGridBroadPhase.pairs (gridResult (Web.spatialGrid s) moved) /\
    Web.gridTests s'
    = SpatialGridBroadPhase.tests (gridResult (Web.spatialGrid s) moved) /\
    SpatialGridBroadPhase.collisionTests (Web.spatialGrid s')
    = Web.gridTests s' /\
    Web.bruteForceFrameCounter s'
    = (if due then 0 else Web.bruteForceFrameCounter s + 1) /\
    Web.bruteForceTests s'
    = (if due then length (orderedPairs moved) else Web.bruteForceTests s) /\
    Web.stars s'
    = (fun star : Star.t =>
         let twinklePhase := (Star.twinklePhase star + (5 # 100))%Q in
         {| Star.x := Star.x star; Star.y := Star.y star;
            Star.radius := Star.radius star;
            Star.twinklePhase := twinklePhase;
            Star.depth := Star.depth star;
            Star.alpha := ((5 # 10) + sin twinklePhase * (3 # 10))%Q |})
        <$> Web.stars s /\
    Web.asteroids s'
    = (fun asteroid : Asteroid.t =>
         {| Asteroid.radius := Asteroid.radius asteroid;
            Asteroid.angle := (Asteroid.angle asteroid
                               + Asteroid.speed asteroid)%Q;
            Asteroid.speed := Asteroid.speed asteroid;
            Asteroid.distance := Asteroid.distance asteroid;
            Asteroid.size := Asteroid.size asteroid |})
        <$> Web.asteroids s.
Proof.
  intros Hreach. cbv zeta.
  set (moved := SimEntity.toEntity <$> (Web.moveEntity <$> Web.entities s)).
  pose proof (Reachable_invariant _ _ Hreach) as Hinv.
  pose proof (update_closed _ _ moved Hinv) as Hupd.
  pose proof (update_invariant _ _ _ _ Hinv Hupd) as Hinv1.
  pose proof (queryPairs_closed _ _ Hinv1) as Hq. cbv zeta in Hq.
  pose proof (Reachable_update _ _ _ _ Hreach Hupd) as Hr1.
  pose proof (Reachable_queryPairs _ _ _ _ Hr1 Hq) as Hr2.
  unfold Web.updateSimulation. fold moved. rewrite Hupd. cbn [bind].
  rewrite Hq. cbn [bind fst snd].
  destruct (Web.BRUTE_FORCE_UPDATE_INTERVAL <=? Web.bruteForceFrameCounter s + 1).
  - rewrite brute_queryPairs. cbn [bind fst snd ret].
    eexists. split; [reflexivity|].
    cbn [Web.entities Web.spatialGrid Web.collisionPairs Web.gridTests
         Web.bruteForceFrameCounter Web.bruteForceTests Web.stars
         Web.asteroids
         SpatialGridBroadPhase.collisionTests
         SpatialGridBroadPhase._collisionTests SpatialGridBroadPhase.grid
         BruteForceBroadPhase.collisionTests
         BruteForceBroadPhase._collisionTests BruteForceBroadPhase._entities
         BruteForceBroadPhase.update].
    repeat (split; [first [reflexivity | exact Hr2]|]). reflexivity.
  - cbn [bind fst snd ret].
    eexists. split; [reflexivity|].
    cbn [Web.entities Web.spatialGrid Web.collisionPairs Web.gridTests
         Web.bruteForceFrameCounter Web.bruteForceTests Web.stars
         Web.asteroids
         SpatialGridBroadPhase.collisionTests
         SpatialGridBroadPhase._collisionTests SpatialGridBroadPhase.grid].
    repeat (split; [first [reflexivity | exact Hr2]|]). reflexivity.
Qed.

Lemma orderedPairs_count {A} (l : list A) :
  length (orderedPairs l) = (length l * (length l - 1) / 2)%nat.
Proof.
  pose proof (orderedPairs_length l) as H.
  rewrite <- H, Nat.mul_comm. symmetry. apply Nat.div_mul. lia.
Qed.

Lemma moveEntity_wellFormed (entity : SimEntity.t) :
  wellFormed (SimEntity.aabb entity) ->
  (0 <= x (max (SimEntity.aabb entity)) + SimEntity.vx entity)%Q ->
  (0 <= y (max (SimEntity.aabb entity)) + SimEntity.vy entity)%Q ->
  wellFormed (SimEntity.aabb (Web.moveEntity entity)).
Proof.
  intros [Hx Hy] H1 H2. unfold wellFormed. split; solve_move.
Qed.

(** A frame of the page on a grid detector in a regular state ends
    normally. It moves every entity; the pairs it leaves for the display
    are overlapping pairs of the moved entities, none twice; the grid made
    at least as many tests as it found pairs, and at most [n * (n - 1) / 2]
    for [n] entities. The frame that takes the frame counter to the interval
    resets it and sets the brute-force count to [n * (n - 1) / 2]; any other
    frame adds one to the counter and keeps the count of an earlier
    frame. *)
Theorem updateSimulation_frame (sin : Q -> Q) (options : SpatialGridOptions.t)
  (s : Web.State) :
  Reachable options (Web.spatialGrid s) ->
  let n := length (Web.entities s) in
  exists s',
    Web.updateSimulation sin s = inr s' /\
    Web.entities s' = Web.moveEntity <$> Web.entities s /\
    Reachable options (Web.spatialGrid s') /\
    (forall p, p ∈ Web.collisionPairs s' ->
       p ∈ orderedPairs (SimEntity.toEntity <$> Web.entities s') /\
       overlapping p) /\
    NoDup (Web.collisionPairs s') /\
    (length (Web.collisionPairs s') <= Web.gridTests s')%nat /\
    (Web.gridTests s' <= n * (n - 1) / 2)%nat /\
    (if decide (Web.BRUTE_FORCE_UPDATE_INTERVAL
                <= Web.bruteForceFrameCounter s + 1)
     then Web.bruteForceFrameCounter s' = 0 /\
          Web.bruteForceTests s' = (n * (n - 1) / 2)%nat
     else Web.bruteForceFrameCounter s' = Web.bruteForceFrameCounter s + 1 /\
          Web.bruteForceTests s' = Web.bruteForceTests s).
Proof.
  intros Hreach. cbv zeta.
  destruct (updateSimulation_closed sin options s Hreach)
    as (s' & E & Hent & Hr & Hpairs & Htests & _ & Hcounter & Hbrute & _).
  exists s'. split; [exact E|]. split; [exact Hent|]. split; [exact Hr|].
  rewrite Hpairs, Htests, Hent.
  set (moved := SimEntity.toEntity <$> (Web.moveEntity <$> Web.entities s))
    in *.
  assert (length moved = length (Web.entities s)) as Hlen.
  { unfold moved. now rewrite !length_fmap. }
  destruct (tests_bounded
              (candidates (populatedGrid (Web.spatialGrid s) moved))
              (orderedPairs moved)) as [Hle1 Hle2].
  { intros p Hp. now apply candidates_populated in Hp as [Hp _]. }
  fold (gridResult (Web.spatialGrid s) moved) in Hle1, Hle2.
  rewrite orderedPairs_count, Hlen in Hle2.
  split; [|split; [|split; [exact Hle1|split; [exact Hle2|]]]].
  - intros p Hp.
    apply (grid_pairs_sound (Web.spatialGrid s) moved) in Hp.
    now apply list_elem_of_filter in Hp as [Hov Hin].
  - apply noDuplicatePairs_NoDup.
    apply (cacheInvariant_run
             (candidates (populatedGrid (Web.spatialGrid s) moved))).
  - rewrite Hcounter, Hbrute, orderedPairs_count, Hlen.
    case_decide as Hdue.
    + apply Z.leb_le in Hdue. rewrite Hdue. auto.
    + apply Z.nle_gt, Z.leb_gt in Hdue. rewrite Hdue. auto.
Qed.

Lemma updateSimulation_frame_witness :
  exists s',
    Web.updateSimulation (fun _ => 0%Q) exampleState = inr s' /\
    Web.entities s' = Web.moveEntity <$> Web.entities exampleState /\
    Reachable Web.options (Web.spatialGrid s') /\
    (forall p, p ∈ Web.collisionPairs s' ->
       p ∈ orderedPairs (SimEntity.toEntity <$> Web.entities s') /\
       overlapping p) /\
    NoDup (Web.collisionPairs s') /\
    (length (Web.collisionPairs s') <= Web.gridTests s')%nat /\
    (Web.gridTests s' <= 2 * (2 - 1) / 2)%nat /\
    (if decide (Web.BRUTE_FORCE_UPDATE_INTERVAL
                <= Web.bruteForceFrameCounter exampleState + 1)
     then Web.bruteForceFrameCounter s' = 0 /\
          Web.bruteForceTests s' = (2 * (2 - 1) / 2)%nat
     else Web.bruteForceFrameCounter s'
          = Web.bruteForceFrameCounter exampleState + 1 /\
          Web.bruteForceTests s' = Web.bruteForceTests exampleState).
Proof.
  apply (updateSimulation_frame (fun _ => 0%Q) Web.options exampleState).
  apply Reachable_new. exact options_new.
Defined.

(** When the ids of the entities are numbers, no two the same, and the
    boxes are well formed with [max] corners that the velocity does not
    take below 0, the pairs a frame leaves for the display are the
    overlapping pairs of the moved entities, each once and in the order of
    the entities: none is missed. *)
Theorem updateSimulation_finds_overlaps (sin : Q -> Q)
  (options : SpatialGridOptions.t) (s : Web.State) :
  Reachable options (Web.spatialGrid s) ->
  NoDup (SimEntity.id <$> Web.entities s) ->
  Forall (fun e => exists i, SimEntity.id e = IdNum i) (Web.entities s) ->
  Forall (fun e => wellFormed (SimEntity.aabb e) /\
                   (0 <= x (max (SimEntity.aabb e)) + SimEntity.vx e)%Q /\
                   (0 <= y (max (SimEntity.aabb e)) + SimEntity.vy e)%Q)
    (Web.entities s) ->
  exists s',
    Web.updateSimulation sin s = inr s' /\
    Web.collisionPairs s'
    ≡ₚ filter overlapping
         (orderedPairs (SimEntity.toEntity <$> Web.entities s')).
Proof.
  intros Hreach Hunique Hnum Hwf.
  destruct (updateSimulation_closed sin options s Hreach)
    as (s' & E & Hent & _ & Hpairs & _).
  exists s'. split; [exact E|]. rewrite Hpairs, Hent.
  destruct (gridInvariant_dims _ _ (Reachable_invariant _ _ Hreach))
    as (Hcs & Hnc & Hnr).
  assert (numericIds
            (SimEntity.toEntity <$> (Web.moveEntity <$> Web.entities s)))
    as Hnumeric.
  { unfold numericIds. rewrite <- list_fmap_compose. apply Forall_fmap.
    eapply Forall_impl; [exact Hnum|]. intros e (i & Hi). exists i.
    unfold compose, SimEntity.toEntity. cbn [id]. rewrite <- Hi.
    unfold Web.moveEntity. cbv zeta. do 2 destruct (_ || _); reflexivity. }
  apply gridResult_Permutation; try assumption.
  - unfold uniqueIds. rewrite moveEntity_id, <- list_fmap_compose.
    exact Hunique.
  - now apply keysUnambiguous_numeric.
  - rewrite <- list_fmap_compose. apply Forall_fmap.
    eapply Forall_impl; [exact Hwf|]. intros e (H1 & H2 & H3).
    unfold compose, SimEntity.toEntity. cbn [aabb].
    now apply moveEntity_wellFormed.
Qed.

Lemma updateSimulation_finds_overlaps_witness :
  exists s',
    Web.updateSimulation (fun _ => 0%Q) exampleState = inr s' /\
    Web.collisionPairs s'
    ≡ₚ filter overlapping
         (orderedPairs (SimEntity.toEntity <$> Web.entities s')).
Proof.
  apply (updateSimulation_finds_overlaps (fun _ => 0%Q) Web.options exampleState).
  - apply Reachable_new. exact options_new.
  - compute_done.
  - repeat constructor; eexists; reflexivity.
  - repeat constructor; simpl; discriminate.
Defined.

(** ** Frame after frame *)

(** Any number of frames in a row, from a grid detector in a regular state
    and a frame counter below the interval, ends normally: each entity has
    been moved once per frame, the frame counter is the number of frames
    since the last run of the brute-force detector, and the brute-force
    count is [n * (n - 1) / 2] for the [n] entities once the counter has
    reached the interval, and the count of before until then. *)
Theorem frames_spec (sin : Q -> Q) (options : SpatialGridOptions.t) (k : nat)
  (s : Web.State) :
  Reachable options (Web.spatialGrid s) ->
  0 <= Web.bruteForceFrameCounter s < Web.BRUTE_FORCE_UPDATE_INTERVAL ->
  let n := length (Web.entities s) in
  exists s',
    Web.frames sin k s = inr s' /\
    Web.entities s' = Nat.iter k (fmap Web.moveEntity) (Web.entities s) /\
    Reachable options (Web.spatialGrid s') /\
    Web.bruteForceFrameCounter s'
    = (Web.bruteForceFrameCounter s + Z.of_nat k)
      mod Web.BRUTE_FORCE_UPDATE_INTERVAL /\
    Web.bruteForceTests s'
    = (if decide (Web.BRUTE_FORCE_UPDATE_INTERVAL
                  <= Web.bruteForceFrameCounter s + Z.of_nat k)
       then (n * (n - 1) / 2)%nat else Web.bruteForceTests s).
Proof.
  cbv zeta. unfold Web.BRUTE_FORCE_UPDATE_INTERVAL.
  revert s. induction k as [|k IH]; intros s Hreach Hc.
  - exists s. split; [reflexivity|]. split; [reflexivity|].
    split; [exact Hreach|]. split.
    + rewrite Z.add_0_r, Z.mod_small by lia. reflexivity.
    + case_decide; [lia|reflexivity].
  - destruct (updateSimulation_closed sin options s Hreach)
      as (s1 & E & Hent & Hr & _ & _ & _ & Hcounter & Hbrute & _).
    cbv zeta in Hcounter, Hbrute.
    unfold Web.BRUTE_FORCE_UPDATE_INTERVAL in Hcounter, Hbrute.
    rewrite orderedPairs_count, !length_fmap in Hbrute.
    assert (0 <= Web.bruteForceFrameCounter s1 < 10) as Hc1.
    { rewrite Hcounter. destruct (Z.leb_spec 10 (Web.bruteForceFrameCounter s + 1)); lia. }
    destruct (IH s1 Hr Hc1) as (s' & E' & Hent' & Hr' & Hcounter' & Hbrute').
    exists s'. cbn [Web.frames]. rewrite E. cbn [bind].
    split; [exact E'|].
    split; [rewrite Hent', Hent; symmetry; apply Nat.iter_succ_r|].
    split; [exact Hr'|].
    rewrite Hent, length_fmap in Hbrute'.
    rewrite Hcounter', Hbrute', Hcounter, Hbrute.
    destruct (Z.leb_spec 10 (Web.bruteForceFrameCounter s + 1)) as [Hdue|Hdue].
    + assert (Web.bruteForceFrameCounter s = 9) as -> by lia.
      split.
      * replace (9 + Z.of_nat (Datatypes.S k)) with (Z.of_nat k + 1 * 10)
          by lia.
        now rewrite Z.mod_add by lia.
      * repeat case_decide; try reflexivity; lia.
    + split.
      * f_equal. lia.
      * repeat case_decide; try reflexivity; lia.
Qed.

Lemma frames_spec_witness :
  exists s',
    Web.frames (fun _ => 0%Q) 3 exampleState = inr s' /\
    Web.entities s'
    = Nat.iter 3 (fmap Web.moveEntity) (Web.entities exampleState) /\
    Reachable Web.options (Web.spatialGrid s') /\
    Web.bruteForceFrameCounter s'
    = (Web.bruteForceFrameCounter exampleState + Z.of_nat 3)
      mod Web.BRUTE_FORCE_UPDATE_INTERVAL /\
    Web.bruteForceTests s'
    = (if decide (Web.BRUTE_FORCE_UPDATE_INTERVAL
                  <= Web.bruteForceFrameCounter exampleState + Z.of_nat 3)
       then (2 * (2 - 1) / 2)%nat else Web.bruteForceTests exampleState).
Proof.
  apply (frames_spec (fun _ => 0%Q) Web.options 3 exampleState).
  - apply Reachable_new. exact options_new.
  - simpl. unfold Web.BRUTE_FORCE_UPDATE_INTERVAL. lia.
Defined.

(** ** The entities of the page *)

(** The entities [createEntities] makes, and the number of the next
    draw. *)
Lemma createEntities_closed (random : nat -> Q) (k : nat) (s : Web.State)
  (n : nat) :
  Web.createEntities random (Z.of_nat k) s n
  = let entities :=
      (fun i =>
         let m := (n + 6 * Z.to_nat i)%nat in
         let width := (Web.MIN_ENTITY_SIZE
                       + random m
                         * (Web.MAX_ENTITY_SIZE - Web.MIN_ENTITY_SIZE))%Q in
         let height := (Web.MIN_ENTITY_SIZE
                        + random (m + 1)%nat
                          * (Web.MAX_ENTITY_SIZE - Web.MIN_ENTITY_SIZE))%Q in
         let x := (random (m + 2)%nat * (Web.WORLD_WIDTH - width))%Q in
         let y := (random (m + 3)%nat * (Web.WORLD_HEIGHT - height))%Q in
         {| SimEntity.id := IdNum i;
            SimEntity.aabb :=
              {| min := {| x := x; y := y |};
                 max := {| x := (x + width)%Q; y := (y + height)%Q |} |};
            SimEntity.vx :=
              ((random (m + 4)%nat - (1 # 2)) * Web.MAX_VELOCITY * 2)%Q;
            SimEntity.vy :=
              ((random (m + 5)%nat - (1 # 2)) * Web.MAX_VELOCITY * 2)%Q |})
        <$> seqZ 0 (Z.of_nat k) in
    let* spatialGrid :=
      SpatialGridBroadPhase.update (SimEntity.toEntity <$> entities)
        (Web.spatialGrid s) in
    ret ({| Web.entities := entities; Web.stars := Web.stars s;
            Web.asteroids := Web.asteroids s;
            Web.collisionPairs := Web.collisionPairs s;
            Web.spatialGrid := spatialGrid;
            Web.bruteForce :=
              BruteForceBroadPhase.update (SimEntity.toEntity <$> entities)
                (Web.bruteForce s);
            Web.bruteForceTests := Web.bruteForceTests s;
            Web.gridTests := Web.gridTests s;
            Web.bruteForceFrameCounter := Web.bruteForceFrameCounter s |},
         (n + 6 * k)%nat).
Proof.
  unfold Web.createEntities. cbv zeta.
  match goal with
  | |- (let (_, _) := foldl ?f _ _ in _) = bind (_ (_ <$> (?g <$> _)) _) _ =>
      assert (forall j, foldl f ([], n) (seqZ 0 (Z.of_nat j))
                        = (g <$> seqZ 0 (Z.of_nat j), (n + 6 * j)%nat)) as H
  end.
  { induction j as [|j IH].
    - simpl. f_equal. lia.
    - rewrite seqZ_S, foldl_app, IH, fmap_app.
      cbn [foldl fst snd fmap list_fmap].
      replace (n + 6 * Z.to_nat (0 + Z.of_nat j))%nat with (n + 6 * j)%nat
        by lia.
      f_equal. lia. }
  rewrite H. reflexivity.
Qed.

Lemma unit_scale (r d : Q) :
  (0 <= r)%Q -> (r < 1)%Q -> (0 < d)%Q -> (0 <= r * d)%Q /\ (r * d < d)%Q.
Proof. intros H0 H1 Hd. split; nra. Qed.

Lemma createEntities_facts (random : nat -> Q)
  (options : SpatialGridOptions.t) (count : Z) (s : Web.State) (n : nat) :
  unitRandom random ->
  Reachable options (Web.spatialGrid s) ->
  exists s',
    Web.createEntities random count s n
    = inr (s', (n + 6 * Z.to_nat count)%nat) /\
    SimEntity.id <$> Web.entities s' = IdNum <$> seqZ 0 count /\
    Forall (fun e =>
              let a := SimEntity.aabb e in
              (10 <= x (max a) - x (min a))%Q /\
              (x (max a) - x (min a) < 50)%Q /\
              (10 <= y (max a) - y (min a))%Q /\
              (y (max a) - y (min a) < 50)%Q /\
              inWorld Web.WORLD_WIDTH Web.WORLD_HEIGHT a /\
              (- Web.MAX_VELOCITY <= SimEntity.vx e)%Q /\
              (SimEntity.vx e < Web.MAX_VELOCITY)%Q /\
              (- Web.MAX_VELOCITY <= SimEntity.vy e)%Q /\
              (SimEntity.vy e < Web.MAX_VELOCITY)%Q)
      (Web.entities s') /\
    Reachable options (Web.spatialGrid s') /\
    SpatialGridBroadPhase.grid (Web.spatialGrid s')
    = populatedGrid (Web.spatialGrid s)
        (SimEntity.toEntity <$> Web.entities s') /\
    BruteForceBroadPhase._entities (Web.bruteForce s')
    = SimEntity.toEntity <$> Web.entities s' /\
    Web.collisionPairs s' = Web.collisionPairs s /\
    Web.gridTests s' = Web.gridTests s /\
    Web.bruteForceTests s' = Web.bruteForceTests s /\
    Web.bruteForceFrameCounter s' = Web.bruteForceFrameCounter s.
Proof.
  intros Hrand Hreach.
  assert (seqZ 0 count = seqZ 0 (Z.of_nat (Z.to_nat count))) as Hseq.
  { unfold seqZ. now rewrite Nat2Z.id. }
  assert (Web.createEntities random count s n
          = Web.createEntities random (Z.of_nat (Z.to_nat count)) s n) as ->.
  { unfold Web.createEntities. now rewrite <- Hseq. }
  rewrite createEntities_closed, Hseq. cbv zeta.
  match goal with
  | |- context [?g <$> seqZ 0 _] => set (entity := g)
  end.
  set (created := entity <$> seqZ 0 (Z.of_nat (Z.to_nat count))).
  pose proof (Reachable_invariant _ _ Hreach) as Hinv.
  pose proof (update_closed _ _ (SimEntity.toEntity <$> created) Hinv) as Hupd.
  pose proof (Reachable_update _ _ _ _ Hreach Hupd) as Hr1.
  rewrite Hupd. cbn [bind ret]. eexists. split; [reflexivity|].
  cbn [Web.entities Web.spatialGrid Web.bruteForce Web.collisionPairs
       Web.gridTests Web.bruteForceTests Web.bruteForceFrameCounter
       SpatialGridBroadPhase.grid BruteForceBroadPhase.update
       BruteForceBroadPhase._entities].
  split; [|split; [|split; [exact Hr1|repeat split; reflexivity]]].
  - unfold created. rewrite <- list_fmap_compose. now apply list_fmap_ext.
  - apply Forall_fmap, Forall_forall. intros i _.
    unfold compose, entity, inWorld, Web.MIN_ENTITY_SIZE,
      Web.MAX_ENTITY_SIZE, Web.MAX_VELOCITY, Web.WORLD_WIDTH,
      Web.WORLD_HEIGHT.
    cbn [SimEntity.aabb SimEntity.vx SimEntity.vy min max x y].
    set (m := (n + 6 * Z.to_nat i)%nat).
    destruct (Hrand m) as [Hw0 Hw1]. destruct (Hrand (m + 1)%nat) as [Hh0 Hh1].
    destruct (Hrand (m + 2)%nat) as [Hx0 Hx1].
    destruct (Hrand (m + 3)%nat) as [Hy0 Hy1].
    destruct (Hrand (m + 4)%nat) as [Hvx0 Hvx1].
    destruct (Hrand (m + 5)%nat) as [Hvy0 Hvy1].
    destruct (unit_scale (random (m + 2)%nat)
                (1024 - (10 + random m * (50 - 10))) Hx0 Hx1) as [Hx2 Hx3];
      [lra|].
    destruct (unit_scale (random (m + 3)%nat)
                (768 - (10 + random (m + 1)%nat * (50 - 10))) Hy0 Hy1)
      as [Hy2 Hy3]; [lra|].
    generalize dependent (random (m + 2)%nat
                          * (1024 - (10 + random m * (50 - 10))))%Q.
    generalize dependent (random (m + 3)%nat
                          * (768 - (10 + random (m + 1)%nat * (50 - 10))))%Q.
    intros. repeat split; lra.
Qed.

(** With draws in [0, 1), and a grid detector in a regular state,
    [createEntities] ends normally after six draws per entity (none for a
    negative count). The entities have the ids 0, 1, ..., [count - 1] in
    this order, well-formed boxes within the world, and velocities from
    [- MAX_VELOCITY] to [MAX_VELOCITY] on each axis; both detectors hold
    them. The pairs for the display, both test counts and the frame counter
    are those of before. *)
Theorem createEntities_spec (random : nat -> Q)
  (options : SpatialGridOptions.t) (count : Z) (s : Web.State) (n : nat) :
  unitRandom random ->
  Reachable options (Web.spatialGrid s) ->
  exists s',
    Web.createEntities random count s n
    = inr (s', (n + 6 * Z.to_nat count)%nat) /\
    SimEntity.id <$> Web.entities s' = IdNum <$> seqZ 0 count /\
    Forall (fun e =>
              let a := SimEntity.aabb e in
              wellFormed a /\
              inWorld Web.WORLD_WIDTH Web.WORLD_HEIGHT a /\
              (- Web.MAX_VELOCITY <= SimEntity.vx e)%Q /\
              (SimEntity.vx e < Web.MAX_VELOCITY)%Q /\
              (- Web.MAX_VELOCITY <= SimEntity.vy e)%Q /\
              (SimEntity.vy e < Web.MAX_VELOCITY)%Q)
      (Web.entities s') /\
    Reachable options (Web.spatialGrid s') /\
    SpatialGridBroadPhase.grid (Web.spatialGrid s')
    = populatedGrid (Web.spatialGrid s)
        (SimEntity.toEntity <$> Web.entities s') /\
    BruteForceBroadPhase._entities (Web.bruteForce s')
    = SimEntity.toEntity <$> Web.entities s' /\
    Web.collisionPairs s' = Web.collisionPairs s /\
    Web.gridTests s' = Web.gridTests s /\
    Web.bruteForceTests s' = Web.bruteForceTests s /\
    Web.bruteForceFrameCounter s' = Web.bruteForceFrameCounter s.
Proof.
  intros Hrand Hreach.
  destruct (createEntities_facts random options count s n Hrand Hreach)
    as (s' & E & Hids & Hfacts & Hrest).
  exists s'. split; [exact E|]. split; [exact Hids|].
  split; [|exact Hrest].
  eapply Forall_impl; [exact Hfacts|].
  intros e (Hw & _ & Hh & _ & Hin & Hv). cbv zeta.
  split; [|split; [exact Hin | exact Hv]].
  split; lra.
Qed.

Lemma createEntities_spec_witness :
  exists s',
    Web.createEntities tenths 5 exampleState 0
    = inr (s', (0 + 6 * Z.to_nat 5)%nat) /\
    SimEntity.id <$> Web.entities s' = IdNum <$> seqZ 0 5 /\
    Forall (fun e =>
              let a := SimEntity.aabb e in
              wellFormed a /\
              inWorld Web.WORLD_WIDTH Web.WORLD_HEIGHT a /\
              (- Web.MAX_VELOCITY <= SimEntity.vx e)%Q /\
              (SimEntity.vx e < Web.MAX_VELOCITY)%Q /\
              (- Web.MAX_VELOCITY <= SimEntity.vy e)%Q /\
              (SimEntity.vy e < Web.MAX_VELOCITY)%Q)
      (Web.entities s') /\
    Reachable Web.options (Web.spatialGrid s') /\
    SpatialGridBroadPhase.grid (Web.spatialGrid s')
    = populatedGrid (Web.spatialGrid exampleState)
        (SimEntity.toEntity <$> Web.entities s') /\
    BruteForceBroadPhase._entities (Web.bruteForce s')
    = SimEntity.toEntity <$> Web.entities s' /\
    Web.collisionPairs s' = Web.collisionPairs exampleState /\
    Web.gridTests s' = Web.gridTests exampleState /\
    Web.bruteForceTests s' = Web.bruteForceTests exampleState /\
    Web.bruteForceFrameCounter s' = Web.bruteForceFrameCounter exampleState.
Proof.
  apply (createEntities_spec tenths Web.options 5 exampleState 0).
  - exact tenths_unit.
  - apply Reachable_new. exact options_new.
Defined.

(** The first frame after [createEntities], with draws in [0, 1), ends
    normally and leaves for the display the overlapping pairs of the moved
    entities, each once: the grid misses none. *)
Theorem createEntities_first_frame (sin : Q -> Q) (random : nat -> Q)
  (options : SpatialGridOptions.t) (count : Z) (s : Web.State) (n : nat) :
  unitRandom random ->
  Reachable options (Web.spatialGrid s) ->
  exists s1 n1 s2,
    Web.createEntities random count s n = inr (s1, n1) /\
    Web.updateSimulation sin s1 = inr s2 /\
    Web.entities s2 = Web.moveEntity <$> Web.entities s1 /\
    Web.collisionPairs s2
    ≡ₚ filter overlapping
         (orderedPairs (SimEntity.toEntity <$> Web.entities s2)).
Proof.
  intros Hrand Hreach.
  destruct (createEntities_facts random options count s n Hrand Hreach)
    as (s1 & E1 & Hids & Hfacts & Hr1 & _).
  destruct (updateSimulation_closed sin options s1 Hr1)
    as (s2 & E2 & Hent & _ & Hpairs & _).
  exists s1, (n + 6 * Z.to_nat count)%nat, s2.
  split; [exact E1|]. split; [exact E2|].
  split; [exact Hent|]. rewrite Hpairs, Hent.
  destruct (gridInvariant_dims _ _ (Reachable_invariant _ _ Hr1))
    as (Hcs & Hnc & Hnr).
  assert (id <$> (SimEntity.toEntity <$> Web.entities s1)
          = IdNum <$> seqZ 0 count) as Hids1.
  { now rewrite <- list_fmap_compose. }
  apply gridResult_Permutation; try assumption.
  - unfold uniqueIds. rewrite moveEntity_id, Hids1.
    apply NoDup_fmap_2; [|apply NoDup_seqZ]. intros i j E. now injection E.
  - apply keysUnambiguous_numeric. unfold numericIds.
    apply Forall_forall. intros e He.
    assert (id e ∈ IdNum <$> seqZ 0 count) as Hin.
    { rewrite <- Hids1, <- moveEntity_id. now apply list_elem_of_fmap_2. }
    apply list_elem_of_fmap in Hin as (i & Hi & _). now exists i.
  - rewrite <- list_fmap_compose. apply Forall_fmap.
    eapply Forall_impl; [exact Hfacts|].
    intros e (Hw0 & _ & Hh0 & _ & (Hx & _ & Hy & _) & Hvx & _ & Hvy & _).
    unfold compose, SimEntity.toEntity. cbn [aabb].
    unfold Web.MAX_VELOCITY in Hvx, Hvy.
    apply moveEntity_wellFormed; [split|..]; lra.
Qed.

Lemma createEntities_first_frame_witness :
  exists s1 n1 s2,
    Web.createEntities tenths 5 exampleState 0 = inr (s1, n1) /\
    Web.updateSimulation (fun _ => 0%Q) s1 = inr s2 /\
    Web.entities s2 = Web.moveEntity <$> Web.entities s1 /\
    Web.collisionPairs s2
    ≡ₚ filter overlapping
         (orderedPairs (SimEntity.toEntity <$> Web.entities s2)).
Proof.
  apply (createEntities_first_frame (fun _ => 0%Q) tenths Web.options 5
           exampleState 0).
  - exact tenths_unit.
  - apply Reachable_new. exact options_new.
Defined.

(** * The grid in double arithmetic *)

(** ** Rounding to the nearest double *)

Lemma pow2_pos (e : Z) : (0 < pow2 e)%Q.
Proof. apply Qpower_0_lt. reflexivity. Qed.

Lemma pow2_plus (a b : Z) : (pow2 (a + b) == pow2 a * pow2 b)%Q.
Proof. apply Qpower_plus. discriminate. Qed.

Lemma pow2_le (a b : Z) : a <= b -> (pow2 a <= pow2 b)%Q.
Proof. intros H. apply Qpower_le_compat_l; [exact H | discriminate]. Qed.

Lemma pow2_lt_inv (a b : Z) : (pow2 a < pow2 b)%Q -> a < b.
Proof. intros H. apply (Qpower_lt_compat_l_inv 2); [exact H | reflexivity]. Qed.

Lemma pow2_Z (n : Z) : 0 <= n -> (inject_Z (2 ^ n) == pow2 n)%Q.
Proof. intros H. now apply Zpower_Qpower. Qed.

Lemma rne_floor (q : Q) : Qfloor q <= rne q <= Qfloor q + 1.
Proof.
  unfold rne. destruct (q - inject_Z (Qfloor q) ?= 1 # 2)%Q; [|lia..].
  destruct (Z.even (Qfloor q)); lia.
Qed.

Lemma rne_ge (q : Q) (n : Z) : (inject_Z n <= q)%Q -> n <= rne q.
Proof.
  intros H. apply Qfloor_resp_le in H. rewrite Qfloor_Z in H.
  pose proof (rne_floor q). lia.
Qed.

Lemma rne_le (q : Q) (n : Z) : (q <= inject_Z n)%Q -> rne q <= n.
Proof.
  intros H. pose proof (rne_floor q) as Hf.
  pose proof (Qfloor_resp_le _ _ H) as Hle. rewrite Qfloor_Z in Hle.
  destruct (Z.eq_dec (Qfloor q) n) as [E|E]; [|lia].
  unfold rne. rewrite E.
  destruct (Qcompare_spec (q - inject_Z n) (1 # 2)) as [Hc|Hc|Hc];
    [lra|lia|lra].
Qed.

(** Rounding to the nearest integer keeps the order. *)
Lemma rne_mono (p q : Q) : (p <= q)%Q -> rne p <= rne q.
Proof.
  intros H. pose proof (Qfloor_resp_le _ _ H) as Hf.
  pose proof (rne_floor p). pose proof (rne_floor q).
  destruct (Z.eq_dec (Qfloor p) (Qfloor q)) as [E|E]; [|lia].
  unfold rne. rewrite E.
  destruct (Qcompare_spec (p - inject_Z (Qfloor q)) (1 # 2));
    destruct (Qcompare_spec (q - inject_Z (Qfloor q)) (1 # 2));
    try lia; try lra; destruct (Z.even (Qfloor q)); lia.
Qed.

Lemma Qdiv_lt_compat (x y X Y : Q) :
  (0 <= x)%Q -> (x < X)%Q -> (0 < Y)%Q -> (Y <= y)%Q -> (x / y < X / Y)%Q.
Proof.
  intros Hx HxX HY HYy.
  apply Qlt_shift_div_r; [lra|].
  assert (X / Y * y == X * (y / Y))%Q as E by (field; lra).
  rewrite E.
  assert (1 <= y / Y)%Q by (apply Qle_shift_div_l; lra).
  nra.
Qed.

(** [ilog2] gives the binade of a positive number. *)
Lemma ilog2_spec (q : Q) :
  (0 < q)%Q -> (pow2 (ilog2 q) <= q)%Q /\ (q < pow2 (ilog2 q + 1))%Q.
Proof.
  intros Hq. destruct q as [n d]. unfold ilog2. cbn [Qnum Qden].
  assert (0 < n) as Hn.
  { unfold Qlt in Hq. simpl in Hq. lia. }
  destruct (Z.log2_spec n Hn) as [Hn0 Hn1].
  destruct (Z.log2_spec (Zpos d) eq_refl) as [Hd0 Hd1].
  set (a := Z.log2 n) in *. set (b := Z.log2 (Zpos d)) in *.
  assert (0 <= a) as Ha by apply Z.log2_nonneg.
  assert (0 <= b) as Hb by apply Z.log2_nonneg.
  assert (n # d == inject_Z n / inject_Z (Zpos d))%Q as Hnd
    by apply Qmake_Qdiv.
  assert (pow2 a <= inject_Z n)%Q as Hna.
  { rewrite <- pow2_Z by lia. now rewrite <- Zle_Qle. }
  assert (inject_Z n < pow2 (a + 1))%Q as Hnb.
  { rewrite <- pow2_Z by lia. now rewrite <- Zlt_Qlt. }
  assert (pow2 b <= inject_Z (Zpos d))%Q as Hda.
  { rewrite <- pow2_Z by lia. now rewrite <- Zle_Qle. }
  assert (inject_Z (Zpos d) < pow2 (b + 1))%Q as Hdb.
  { rewrite <- pow2_Z by lia. now rewrite <- Zlt_Qlt. }
  pose proof (pow2_pos a). pose proof (pow2_pos b).
  pose proof (pow2_pos (b + 1)). pose proof (pow2_pos (a - b)).
  pose proof (pow2_pos (a - b - 1)).
  assert (n # d < pow2 (a - b + 1))%Q as Hupper.
  { rewrite Hnd.
    assert (pow2 (a - b + 1) == pow2 (a + 1) / pow2 b)%Q as E.
    { replace (a + 1) with ((a - b + 1) + b) by lia.
      rewrite (pow2_plus (a - b + 1) b).
      generalize (pow2 (a - b + 1)). intros u. field. lra. }
    rewrite E.
    apply Qdiv_lt_compat; lra. }
  assert (pow2 (a - b - 1) <= n # d)%Q as Hlower.
  { rewrite Hnd. apply Qle_shift_div_l; [lra|].
    replace a with ((a - b - 1) + (b + 1)) in Hna by lia.
    rewrite pow2_plus in Hna. nra. }
  destruct (Qle_bool (pow2 (a - b)) (n # d)) eqn:E.
  - apply Qle_bool_iff in E. split; assumption.
  - assert (n # d < pow2 (a - b))%Q as Hlt.
    { apply Qnot_le_lt. rewrite <- Qle_bool_iff. congruence. }
    replace (a - b - 1 + 1) with (a - b) by lia. split; assumption.
Qed.

Lemma ilog2_mono (p q : Q) :
  (0 < p)%Q -> (p <= q)%Q -> ilog2 p <= ilog2 q.
Proof.
  intros Hp Hpq.
  destruct (ilog2_spec p Hp) as [Hp0 _].
  destruct (ilog2_spec q) as [_ Hq1]; [lra|].
  assert (pow2 (ilog2 p) < pow2 (ilog2 q + 1))%Q as H by lra.
  apply pow2_lt_inv in H. lia.
Qed.

Lemma roundPos_nonneg (q : Q) : (0 < q)%Q -> (0 <= roundPos q)%Q.
Proof.
  intros Hq. unfold roundPos. cbv zeta.
  set (e := Z.max _ _). pose proof (pow2_pos e).
  assert (0 <= rne (q / pow2 e)) as Hr.
  { apply (rne_ge _ 0). change (inject_Z 0) with 0%Q.
    apply Qle_shift_div_l; lra. }
  rewrite Zle_Qle in Hr. change (inject_Z 0) with 0%Q in Hr. nra.
Qed.

(** Rounding a positive number keeps the order: within a binade it is
    rounding to the nearest integer at a fixed scale, and between two
    binades lies a power of two that both results respect. *)
Lemma roundPos_mono (p q : Q) :
  (0 < p)%Q -> (p <= q)%Q -> (roundPos p <= roundPos q)%Q.
Proof.
  intros Hp Hpq. assert (0 < q)%Q as Hq by lra.
  pose proof (ilog2_mono p q Hp Hpq) as Hk.
  destruct (ilog2_spec p Hp) as [_ Hp1].
  destruct (ilog2_spec q Hq) as [Hq0 _].
  unfold roundPos. cbv zeta.
  set (kp := ilog2 p) in *. set (kq := ilog2 q) in *.
  set (ep := Z.max (kp - 52) (-1074)). set (eq := Z.max (kq - 52) (-1074)).
  pose proof (pow2_pos ep). pose proof (pow2_pos eq).
  destruct (Z.eq_dec ep eq) as [E|E].
  - rewrite E.
    assert (rne (p / pow2 eq) <= rne (q / pow2 eq)) as Hr.
    { apply rne_mono. apply Qle_shift_div_l; [lra|].
      assert (p / pow2 eq * pow2 eq == p)%Q as E' by (field; lra).
      rewrite E'. exact Hpq. }
    rewrite Zle_Qle in Hr. nra.
  - assert (ep < eq) as Hlt by lia.
    assert (eq = kq - 52) as Heq by lia.
    assert (kp < kq) as Hkk by lia.
    assert (inject_Z (rne (p / pow2 ep)) * pow2 ep <= pow2 kq)%Q as Hup.
    { assert (rne (p / pow2 ep) <= 2 ^ (kq - ep)) as Hr.
      { apply rne_le. rewrite pow2_Z by lia.
        apply Qle_shift_div_r; [lra|]. rewrite <- pow2_plus.
        replace (kq - ep + ep) with kq by lia.
        pose proof (pow2_le (kp + 1) kq ltac:(lia)). lra. }
      rewrite Zle_Qle, pow2_Z in Hr by lia.
      assert (pow2 kq == pow2 (kq - ep) * pow2 ep)%Q as E2.
      { rewrite <- pow2_plus. now replace (kq - ep + ep) with kq by lia. }
      rewrite E2. nra. }
    assert (pow2 kq <= inject_Z (rne (q / pow2 eq)) * pow2 eq)%Q as Hlow.
    { assert (2 ^ 52 <= rne (q / pow2 eq)) as Hr.
      { apply rne_ge. rewrite pow2_Z by lia.
        apply Qle_shift_div_l; [lra|]. rewrite <- pow2_plus.
        replace (52 + eq) with kq by lia. exact Hq0. }
      rewrite Zle_Qle, pow2_Z in Hr by lia.
      assert (pow2 kq == pow2 52 * pow2 eq)%Q as E2.
      { rewrite <- pow2_plus. now replace (52 + eq) with kq by lia. }
      rewrite E2. nra. }
    lra.
Qed.

(** Rounding keeps the order, and the sign with it. *)
Lemma round_mono (p q : Q) : (p <= q)%Q -> (round p <= round q)%Q.
Proof.
  intros Hpq. unfold round.
  destruct (Qcompare_spec p 0) as [Hp|Hp|Hp];
    destruct (Qcompare_spec q 0) as [Hq|Hq|Hq]; try lra.
  - apply roundPos_nonneg. exact Hq.
  - pose proof (roundPos_nonneg (- p)). lra.
  - pose proof (roundPos_mono (- q) (- p)). lra.
  - pose proof (roundPos_nonneg (- p)). pose proof (roundPos_nonneg q). lra.
  - apply roundPos_mono; assumption.
Qed.

Lemma round_nonneg (q : Q) : (0 <= q)%Q -> (0 <= round q)%Q.
Proof. intros H. apply (round_mono 0 q H). Qed.

Lemma round_nonpos (q : Q) : (q <= 0)%Q -> (round q <= 0)%Q.
Proof. intros H. apply (round_mono q 0 H). Qed.

(** The rounding agrees with the machine on the quotients [0.9 / 0.3],
    which is 3 and not above it, and [1 / 0.1], which is 10 and not below
    it; and it takes [1e-200 / 1e200] to 0. *)
Example round_examples :
  Qceiling (fdiv (round (9 # 10)) (round (3 # 10))) = 3 /\
  Qceiling (round (9 # 10) / round (3 # 10)) = 4 /\
  Qfloor (fdiv 1 (round (1 # 10))) = 10 /\
  Qfloor (1 / round (1 # 10)) = 9 /\
  (fdiv (round (/ 10 ^ 200)) (round (10 ^ 200)) == 0)%Q.
Proof. vm_compute. repeat split. Qed.

(** ** Cell indices in double arithmetic *)

Section DoubleIndices.

Lemma fsub_mono (p q lo : Q) : (p <= q)%Q -> (fsub p lo <= fsub q lo)%Q.
Proof. intros H. apply round_mono. lra. Qed.

Lemma fdiv_mono (p q cs : Q) :
  (0 < cs)%Q -> (p <= q)%Q -> (fdiv p cs <= fdiv q cs)%Q.
Proof.
  intros Hcs H. apply round_mono. unfold Qdiv.
  apply Qmult_le_compat_r; [exact H|].
  apply Qlt_le_weak, Qinv_lt_0_compat, Hcs.
Qed.

(** The unclamped cell index grows with the coordinate. *)
Lemma doubleIndex_mono (lo cs p q : Q) :
  (0 < cs)%Q -> (p <= q)%Q ->
  Qfloor (fdiv (fsub p lo) cs) <= Qfloor (fdiv (fsub q lo) cs).
Proof.
  intros Hcs H. apply Qfloor_resp_le, fdiv_mono, fsub_mono; assumption.
Qed.

(** Below the lower bound the unclamped index is not positive. *)
Lemma doubleIndex_below (lo cs p : Q) :
  (0 < cs)%Q -> (p < lo)%Q -> Qfloor (fdiv (fsub p lo) cs) <= 0.
Proof.
  intros Hcs Hp.
  assert (fsub p lo <= 0)%Q as H1 by (apply round_nonpos; lra).
  assert (fdiv (fsub p lo) cs <= 0)%Q as H2.
  { apply round_nonpos. apply Qle_shift_div_r; [exact Hcs|]. lra. }
  apply Qfloor_resp_le in H2. exact H2.
Qed.

(** From the upper bound on, the unclamped index is at least the last
    cell. *)
Lemma doubleIndex_above (lo hi cs p : Q) :
  (0 < cs)%Q -> (hi <= p)%Q ->
  Qceiling (fdiv (fsub hi lo) cs) - 1 <= Qfloor (fdiv (fsub p lo) cs).
Proof.
  intros Hcs Hp.
  pose proof (doubleIndex_mono lo cs hi p Hcs Hp) as Hmono.
  pose proof (Qceiling_lt (fdiv (fsub hi lo) cs)) as Hc.
  pose proof (Qlt_floor (fdiv (fsub hi lo) cs)) as Hf.
  assert (inject_Z (Qceiling (fdiv (fsub hi lo) cs) - 1)
          < inject_Z (Qfloor (fdiv (fsub hi lo) cs) + 1))%Q as H.
  { eapply Qlt_trans; eassumption. }
  rewrite <- Zlt_Qlt in H. lia.
Qed.

(** The extent in cells is never negative; it can be zero. *)
Lemma doubleDimension_nonneg (lo hi cs : Q) :
  (0 < cs)%Q -> (lo < hi)%Q -> 0 <= Qceiling (fdiv (fsub hi lo) cs).
Proof.
  intros Hcs Hlt.
  assert (0 <= fsub hi lo)%Q as H1 by (apply round_nonneg; lra).
  assert (0 <= fdiv (fsub hi lo) cs)%Q as H2.
  { apply round_nonneg. apply Qle_shift_div_l; [exact Hcs|]. lra. }
  apply Qceiling_resp_le in H2. exact H2.
Qed.

End DoubleIndices.

(** ** The grid operations in double arithmetic *)

Section DoubleOperations.

Import SpatialGridBroadPhase.

(** The loops of the population: an entity is appended to the cells of a
    rectangle that lies in the grid, and to no other. *)
Lemma pushRectangle_gridOf (nc nr : Z) (minCell maxCell : Cell)
  (entity : Entity) (f : Z -> Z -> list Entity) :
  0 <= col minCell -> col maxCell <= nc - 1 ->
  0 <= row minCell -> row maxCell <= nr - 1 ->
  forRange (col minCell) (col maxCell + 1) (fun col grid =>
    forRange (row minCell) (row maxCell + 1) (fun row grid =>
      pushCell grid col row entity) grid) (gridOf nc nr f)
  = inr (gridOf nc nr
           (fun c r => if bool_decide ((col minCell <= c <= col maxCell) /\
                                       (row minCell <= r <= row maxCell))
                       then f c r ++ [entity] else f c r)).
Proof.
  intros Hc0 Hc1 Hr0 Hr1.
  destruct (decide (col maxCell + 1 <= col minCell)) as [Hempty|Hcols].
  { rewrite forRange_empty by assumption. f_equal.
    apply gridOf_ext. intros c r Hc Hr. solve_cells. }
  destruct (forRange_inv
              (fun c grid => grid =
                 gridOf nc nr (fun c' r' =>
                   if bool_decide (col minCell <= c' < c /\
                                   row minCell <= r' <= row maxCell)
                   then f c' r' ++ [entity] else f c' r'))
              (col minCell) (col maxCell + 1)
              (fun col grid =>
                 forRange (row minCell) (row maxCell + 1)
                   (fun row grid => pushCell grid col row entity) grid)
              (gridOf nc nr f)) as (g & E & ->); [lia | | |].
  - apply gridOf_ext. intros c r Hc Hr. solve_cells.
  - intros c g Hc ->.
    destruct (decide (row maxCell + 1 <= row minCell)) as [Hempty|Hrows].
    { rewrite forRange_empty by assumption. eexists. split; [reflexivity|].
      apply gridOf_ext. intros c' r' Hc' Hr'. solve_cells. }
    destruct (forRange_inv
                (fun r grid => grid =
                   gridOf nc nr (fun c' r' =>
                     if bool_decide ((col minCell <= c' < c /\
                                      row minCell <= r' <= row maxCell) \/
                                     (c' = c /\ row minCell <= r' < r))
                     then f c' r' ++ [entity] else f c' r'))
                (row minCell) (row maxCell + 1)
                (fun row grid => pushCell grid c row entity)
                (gridOf nc nr (fun c' r' =>
                   if bool_decide (col minCell <= c' < c /\
                                   row minCell <= r' <= row maxCell)
                   then f c' r' ++ [entity] else f c' r')))
      as (g & E & ->); [lia | | |].
    + apply gridOf_ext. intros c' r' Hc' Hr'. solve_cells.
    + intros r g Hr ->. eexists. split; [apply pushCell_gridOf; lia|].
      apply gridOf_ext. intros c' r' Hc' Hr'. solve_cells.
    + eexists. split; [exact E|].
      apply gridOf_ext. intros c' r' Hc' Hr'. solve_cells.
  - rewrite E. f_equal. apply gridOf_ext. intros c r Hc Hr. solve_cells.
Qed.

Lemma double_worldToGrid_range (this : t) (px py : Q) :
  1 <= numCols this -> 1 <= numRows this ->
  0 <= col (Double.worldToGrid this px py) <= numCols this - 1 /\
  0 <= row (Double.worldToGrid this px py) <= numRows this - 1.
Proof. intros Hc Hr. unfold Double.worldToGrid. simpl. lia. Qed.

Lemma double_insertEntity_gridOf (this : t) (entity : Entity)
  (f : Z -> Z -> list Entity) :
  1 <= numCols this -> 1 <= numRows this ->
  Double.insertEntity this entity (gridOf (numCols this) (numRows this) f)
  = inr (gridOf (numCols this) (numRows this)
           (fun c r => if bool_decide (Double.covers this c r entity)
                       then f c r ++ [entity] else f c r)).
Proof.
  intros Hnc Hnr. unfold Double.insertEntity, Double.covers. cbv zeta.
  destruct (double_worldToGrid_range this (x (min (aabb entity)))
              (y (min (aabb entity))) Hnc Hnr) as [Hc0 Hr0].
  destruct (double_worldToGrid_range this (x (max (aabb entity)))
              (y (max (aabb entity))) Hnc Hnr) as [Hc1 Hr1].
  apply pushRectangle_gridOf; lia.
Qed.

(** The population loop leaves in each cell the entities covering it, in
    the order of the snapshot. *)
Lemma double_populate_gridOf (this : t) (entities : list Entity)
  (f : Z -> Z -> list Entity) :
  1 <= numCols this -> 1 <= numRows this ->
  forEach (Double.insertEntity this) entities
    (gridOf (numCols this) (numRows this) f)
  = inr (gridOf (numCols this) (numRows this)
           (fun c r => f c r ++ filter (Double.covers this c r) entities)).
Proof.
  intros Hnc Hnr. revert f.
  induction entities as [|entity entities IH]; intros f.
  - simpl. f_equal. apply gridOf_ext. intros c r _ _.
    now rewrite app_nil_r.
  - simpl. rewrite double_insertEntity_gridOf by assumption. simpl.
    rewrite IH. f_equal. apply gridOf_ext. intros c r _ _.
    unfold filter at 2. simpl.
    fold (filter (Double.covers this c r) entities).
    case_bool_decide as Hcov.
    + rewrite decide_True by assumption. now rewrite <- app_assoc.
    + now rewrite decide_False by assumption.
Qed.

(** On a grid with at least one column and one row, of the shape its
    dimensions say, [update] returns, and each cell lists the entities
    covering it. *)
Lemma double_update_closed (this : t) (entities : list Entity)
  (f : Z -> Z -> list Entity) :
  1 <= numCols this -> 1 <= numRows this ->
  grid this = gridOf (numCols this) (numRows this) f ->
  Double.update entities this
  = inr {| cellSize := cellSize this; minX := minX this; minY := minY this;
           maxX := maxX this; maxY := maxY this;
           numCols := numCols this; numRows := numRows this;
           grid := Double.populatedGrid this entities;
           _collisionTests := _collisionTests this |}.
Proof.
  intros Hnc Hnr Hgrid.
  unfold Double.update. rewrite Hgrid, clearGrid_gridOf by lia. simpl.
  rewrite double_populate_gridOf by assumption. reflexivity.
Qed.

(** [update] and [queryPairs] leave the configuration and the dimensions
    as they are. *)
Lemma double_update_config (this this' : t) (entities : list Entity) :
  Double.update entities this = inr this' ->
  cellSize this' = cellSize this /\ minX this' = minX this /\
  minY this' = minY this /\ maxX this' = maxX this /\
  maxY this' = maxY this /\ numCols this' = numCols this /\
  numRows this' = numRows this /\
  _collisionTests this' = _collisionTests this.
Proof.
  unfold Double.update.
  destruct (clearGrid this (grid this)) as [e|g]; [discriminate|].
  cbn [bind].
  destruct (forEach (Double.insertEntity this) entities g) as [e|g'];
    [discriminate|].
  cbn [bind ret]. intros E. injection E as <-. repeat split.
Qed.

Lemma queryPairs_config (this this' : t) (ps : list (Entity * Entity)) :
  queryPairs this = inr (ps, this') ->
  cellSize this' = cellSize this /\ minX this' = minX this /\
  minY this' = minY this /\ maxX this' = maxX this /\
  maxY this' = maxY this /\ numCols this' = numCols this /\
  numRows this' = numRows this /\ grid this' = grid this.
Proof.
  unfold queryPairs.
  destruct (forRange 0 (numCols this) _ _) as [e|st]; [discriminate|].
  cbn [bind ret]. intros E. injection E as _ <-. repeat split.
Qed.

Lemma double_new_invariant (options : SpatialGridOptions.t) (this : t) :
  Double.new options = inr this -> Double.gridInvariant options this.
Proof.
  unfold Double.new.
  destruct (Qleb (SpatialGridOptions.cellSize options) 0) eqn:E1;
    [discriminate|].
  destruct (Qleb (SpatialGridOptions.maxX options) _) eqn:E2; [discriminate|].
  destruct (Qleb (SpatialGridOptions.maxY options) _) eqn:E3; [discriminate|].
  apply Qleb_false in E1, E2, E3. cbv zeta.
  rewrite emptyGrid_built by (apply doubleDimension_nonneg; assumption).
  cbn [bind ret]. intros E. injection E as <-.
  unfold Double.gridInvariant, validOptions.
  cbn [cellSize minX minY maxX maxY numCols numRows grid].
  do 7 (split; [reflexivity|]). split; [auto|].
  intros _ _. eexists. reflexivity.
Qed.

Lemma double_update_invariant (options : SpatialGridOptions.t)
  (this this' : t) (entities : list Entity) :
  Double.gridInvariant options this ->
  Double.update entities this = inr this' ->
  Double.gridInvariant options this'.
Proof.
  intros (Ecs & Ex0 & Ey0 & Ex1 & Ey1 & Enc & Enr & Hv & Hshape) E.
  destruct (double_update_config _ _ _ E)
    as (Hcs & Hx0 & Hy0 & Hx1 & Hy1 & Hnc & Hnr & _).
  unfold Double.gridInvariant.
  rewrite Hcs, Hx0, Hy0, Hx1, Hy1, Hnc, Hnr.
  do 7 (split; [assumption|]). split; [exact Hv|].
  intros H1 H2. destruct (Hshape H1 H2) as [f Hf].
  rewrite (double_update_closed _ _ f H1 H2 Hf) in E. injection E as <-.
  eexists. reflexivity.
Qed.

Lemma double_queryPairs_invariant (options : SpatialGridOptions.t)
  (this this' : t) (ps : list (Entity * Entity)) :
  Double.gridInvariant options this ->
  queryPairs this = inr (ps, this') ->
  Double.gridInvariant options this'.
Proof.
  intros Hinv E.
  destruct (queryPairs_config _ _ _ E)
    as (Hcs & Hx0 & Hy0 & Hx1 & Hy1 & Hnc & Hnr & Hgrid).
  unfold Double.gridInvariant in *.
  rewrite Hcs, Hx0, Hy0, Hx1, Hy1, Hnc, Hnr, Hgrid. exact Hinv.
Qed.

(** Every state of a detector is regular. *)
Lemma double_Reachable_invariant (options : SpatialGridOptions.t) (this : t) :
  Double.Reachable options this -> Double.gridInvariant options this.
Proof.
  induction 1 as [this E | this entities this' _ IH E | this ps this' _ IH E].
  - now apply double_new_invariant.
  - now apply (double_update_invariant _ this _ entities).
  - now apply (double_queryPairs_invariant _ this _ ps).
Qed.

Lemma double_cellSize_pos (options : SpatialGridOptions.t) (this : t) :
  Double.gridInvariant options this -> (0 < cellSize this)%Q.
Proof. intros (Ecs & _ & _ & _ & _ & _ & _ & (Hcs & _) & _). now rewrite Ecs. Qed.

Lemma double_worldToGrid_col_mono (this : t) (px py px' py' : Q) :
  (0 < cellSize this)%Q -> (px <= px')%Q ->
  col (Double.worldToGrid this px py) <= col (Double.worldToGrid this px' py').
Proof.
  intros Hcs H. unfold Double.worldToGrid. cbn [col].
  pose proof (doubleIndex_mono (minX this) _ _ _ Hcs H). lia.
Qed.

Lemma double_worldToGrid_row_mono (this : t) (px py px' py' : Q) :
  (0 < cellSize this)%Q -> (py <= py')%Q ->
  row (Double.worldToGrid this px py) <= row (Double.worldToGrid this px' py').
Proof.
  intros Hcs H. unfold Double.worldToGrid. cbn [row].
  pose proof (doubleIndex_mono (minY this) _ _ _ Hcs H). lia.
Qed.

(** Two well-formed boxes that pass the overlap test are both listed in some
    cell of the grid: that of the larger of their [min] corners. *)
Lemma double_overlapping_share_cell (this : t) (a b : Entity) :
  (0 < cellSize this)%Q -> 1 <= numCols this -> 1 <= numRows this ->
  wellFormed (aabb a) -> wellFormed (aabb b) ->
  aabbIntersects (aabb a) (aabb b) = true ->
  exists c r, 0 <= c < numCols this /\ 0 <= r < numRows this /\
              Double.covers this c r a /\ Double.covers this c r b.
Proof.
  intros Hcs Hnc Hnr [Hax Hay] [Hbx Hby] Hov.
  apply aabbIntersects_true in Hov as (Hx1 & Hx2 & Hy1 & Hy2).
  unfold Double.covers.
  set (aMin := Double.worldToGrid this (x (min (aabb a))) (y (min (aabb a)))).
  set (aMax := Double.worldToGrid this (x (max (aabb a))) (y (max (aabb a)))).
  set (bMin := Double.worldToGrid this (x (min (aabb b))) (y (min (aabb b)))).
  set (bMax := Double.worldToGrid this (x (max (aabb b))) (y (max (aabb b)))).
  pose proof (double_worldToGrid_range this (x (min (aabb a)))
                (y (min (aabb a))) Hnc Hnr) as Ha.
  pose proof (double_worldToGrid_range this (x (min (aabb b)))
                (y (min (aabb b))) Hnc Hnr) as Hb.
  assert (col aMin <= col aMax) by now apply double_worldToGrid_col_mono.
  assert (col bMin <= col bMax) by now apply double_worldToGrid_col_mono.
  assert (col bMin <= col aMax) by now apply double_worldToGrid_col_mono.
  assert (col aMin <= col bMax) by now apply double_worldToGrid_col_mono.
  assert (row aMin <= row aMax) by now apply double_worldToGrid_row_mono.
  assert (row bMin <= row bMax) by now apply double_worldToGrid_row_mono.
  assert (row bMin <= row aMax) by now apply double_worldToGrid_row_mono.
  assert (row aMin <= row bMax) by now apply double_worldToGrid_row_mono.
  fold aMin bMin in Ha, Hb.
  exists (Z.max (col aMin) (col bMin)), (Z.max (row aMin) (row bMin)).
  lia.
Qed.

End DoubleOperations.

(** ** The two detectors on one snapshot, in double arithmetic *)

Section DoubleCrossStrategy.

Import SpatialGridBroadPhase.

Variable this : t.
Variable entities : list Entity.

Lemma double_candidates_populated (p : Entity * Entity) :
  p ∈ candidates (Double.populatedGrid this entities) <->
  p ∈ orderedPairs entities /\
  exists c r, 0 <= c < numCols this /\ 0 <= r < numRows this /\
              Double.covers this c r p.1 /\ Double.covers this c r p.2.
Proof.
  unfold Double.populatedGrid. rewrite elem_of_candidates.
  destruct p as [a b]. simpl. split.
  - intros (c & r & Hc & Hr & Hp).
    apply orderedPairs_filter in Hp as (Hp & Ha & Hb). eauto 10.
  - intros (Hp & c & r & Hc & Hr & Ha & Hb). exists c, r.
    rewrite orderedPairs_filter. auto.
Qed.

(** What the grid reports, brute force reports, in the same order within
    the pair. *)
Lemma double_grid_pairs_sound (p : Entity * Entity) :
  p ∈ pairs (Double.gridResult this entities) ->
  p ∈ filter overlapping (orderedPairs entities).
Proof.
  intros Hp.
  destruct (cacheInvariant_run
              (candidates (Double.populatedGrid this entities)))
    as (_ & Hpairs & _).
  destruct (Hpairs p Hp) as (Hcand & Hov & _).
  apply double_candidates_populated in Hcand as [Hin _].
  now apply list_elem_of_filter.
Qed.

Hypothesis Hcs : (0 < cellSize this)%Q.
Hypothesis Hnc : 1 <= numCols this.
Hypothesis Hnr : 1 <= numRows this.
Hypothesis Hunique : uniqueIds entities.
Hypothesis Hkeys : keysUnambiguous entities.
Hypothesis Hwf : Forall (fun e => wellFormed (aabb e)) entities.

(** What brute force reports, the grid reports. *)
Lemma double_grid_pairs_complete (p : Entity * Entity) :
  p ∈ filter overlapping (orderedPairs entities) ->
  p ∈ pairs (Double.gridResult this entities).
Proof.
  intros Hp. apply list_elem_of_filter in Hp as [Hov Hp].
  assert (forall q, q ∈ candidates (Double.populatedGrid this entities) ->
            q ∈ orderedPairs entities /\ q.1 ∈ entities /\ q.2 ∈ entities)
    as Hmem.
  { intros [a b] Hq. apply double_candidates_populated in Hq as [Hq _].
    split; [exact Hq | now apply orderedPairs_elem_of]. }
  assert (forall a b, a ∈ entities -> b ∈ entities -> id a = id b -> a = b)
    as Hinj.
  { intros a b Ha Hb. now apply (NoDup_fmap_elem_inj id a b entities). }
  apply runCandidates_complete.
  - intros [a b] [c d] Hq Hr HE. simpl in HE.
    destruct (Hmem _ Hq) as (_ & Ha & Hb), (Hmem _ Hr) as (_ & Hc & Hd).
    simpl in *.
    destruct HE as [HE|HE]; apply Hkeys in HE as [E1 E2]; try assumption;
      f_equal; now apply Hinj.
  - intros [a b] [c d] Hq Hr HE. simpl in HE.
    destruct (Hmem _ Hq) as (Hab & Ha & Hb), (Hmem _ Hr) as (Hcd & Hc & Hd).
    simpl in *. apply Hkeys in HE as [E1 E2]; try assumption.
    now apply (orderedPairs_no_reverse id a b c d entities).
  - apply double_candidates_populated. split; [exact Hp|].
    destruct p as [a b]. simpl.
    apply orderedPairs_elem_of in Hp as [Ha Hb].
    rewrite Forall_forall in Hwf.
    apply double_overlapping_share_cell; auto.
  - exact Hov.
Qed.

(** The result of the grid is an arrangement of the overlapping ordered
    pairs of the snapshot. *)
Lemma double_gridResult_Permutation :
  pairs (Double.gridResult this entities)
  ≡ₚ filter overlapping (orderedPairs entities).
Proof.
  apply NoDup_Permutation.
  - apply noDuplicatePairs_NoDup.
    apply (cacheInvariant_run
             (candidates (Double.populatedGrid this entities))).
  - apply noDuplicatePairs_NoDup. now apply brute_noDuplicatePairs.
  - intros p. split.
    + apply double_grid_pairs_sound.
    + apply double_grid_pairs_complete.
Qed.

End DoubleCrossStrategy.

(** ** Facts about the example configurations *)

Lemma double_exampleGrid_new : Double.new exampleOptions = inr exampleGrid.
Proof. vm_compute. reflexivity. Qed.

Lemma underflowOptions_valid : validOptions underflowOptions.
Proof. unfold validOptions. vm_compute. repeat split. Qed.

Lemma underflowGrid_new : Double.new underflowOptions = inr underflowGrid.
Proof. vm_compute. reflexivity. Qed.

Lemma underflow_worldToGrid (px py : Q) :
  Double.worldToGrid underflowGrid px py = {| col := 0; row := 0 |}.
Proof.
  unfold Double.worldToGrid, underflowGrid.
  cbn [SpatialGridBroadPhase.numCols SpatialGridBroadPhase.numRows].
  f_equal; lia.
Qed.

Lemma gridOf_shape (this : SpatialGridBroadPhase.t)
  (f : Z -> Z -> list Entity) :
  SpatialGridBroadPhase.grid this
  = gridOf (SpatialGridBroadPhase.numCols this)
      (SpatialGridBroadPhase.numRows this) f ->
  gridShape this.
Proof.
  intros Hgrid. unfold gridShape. rewrite Hgrid. unfold gridOf. split.
  - now rewrite length_fmap, length_seqZ.
  - apply Forall_fmap, Forall_forall. intros c _. simpl.
    now rewrite length_fmap, length_seqZ.
Qed.

(** ** Construction *)

(** C6: a cell size of zero or less makes the constructor throw the
    cell-size error; [maxX <= minX] or [maxY <= minY] makes it throw too,
    the bounds error when the cell size is positive, and the cell-size
    error, which the constructor checks first, when that is at fault as
    well. The result of a failed construction is the error alone: there is
    no detector. *)
Theorem construction_validation (options : SpatialGridOptions.t) :
  ((options.(SpatialGridOptions.cellSize) <= 0)%Q ->
   exists e, Double.new options = inl e /\ InvalidCellSize e) /\
  ((options.(SpatialGridOptions.maxX)
      <= SpatialGridBroadPhase.orZero options.(SpatialGridOptions.minX))%Q \/
   (options.(SpatialGridOptions.maxY)
      <= SpatialGridBroadPhase.orZero options.(SpatialGridOptions.minY))%Q ->
   exists e, Double.new options = inl e /\
             (InvalidCellSize e \/ InvalidBounds e) /\
             ((0 < options.(SpatialGridOptions.cellSize))%Q ->
              InvalidBounds e)).
Proof.
  split.
  - intros Hcs. apply Qleb_le in Hcs. unfold Double.new.
    rewrite Hcs. eexists. split; reflexivity.
  - intros Hb. unfold Double.new.
    destruct (Qleb (SpatialGridOptions.cellSize options) 0) eqn:E0.
    { apply Qleb_le in E0. eexists. split; [reflexivity|].
      split; [left; reflexivity|]. intros Hcs. lra. }
    destruct (Qleb (SpatialGridOptions.maxX options) _) eqn:E1.
    { eexists. split; [reflexivity|].
      split; [right; now left | intros _; now left]. }
    destruct Hb as [Hb|Hb]; apply Qleb_le in Hb; [congruence|].
    rewrite Hb. eexists. split; [reflexivity|].
    split; [right; now right | intros _; now right].
Qed.

(** Construction fails at a zero cell size, and at [maxX = minX]. *)
Lemma construction_validation_witness :
  (exists e, Double.new doublyInvalidOptions = inl e /\ InvalidCellSize e) /\
  (exists e,
     Double.new
       {| SpatialGridOptions.cellSize := 32;
          SpatialGridOptions.minX := Some 64%Q;
          SpatialGridOptions.minY := None;
          SpatialGridOptions.maxX := 64;
          SpatialGridOptions.maxY := 64 |} = inl e /\
     (InvalidCellSize e \/ InvalidBounds e) /\
     ((0 < 32)%Q -> InvalidBounds e)).
Proof.
  split.
  - apply (construction_validation doublyInvalidOptions).
    simpl. discriminate.
  - apply (construction_validation
             {| SpatialGridOptions.cellSize := 32;
                SpatialGridOptions.minX := Some 64%Q;
                SpatialGridOptions.minY := None;
                SpatialGridOptions.maxX := 64;
                SpatialGridOptions.maxY := 64 |}).
    left. simpl. discriminate.
Defined.

(** ** Two pairs with one key *)

(** C1: the entities with the ids [a], [b:c], [a:b] and [c] have unique
    ids and well-formed boxes, all at the same place, and the configuration
    is valid. The pairs [(a, b:c)] and [(a:b, c)] have the same key
    [a:b:c]; brute force returns both, and the grid, which takes the second
    for one it has checked, does not return it: the two sets of unordered
    id pairs differ. *)
Theorem pair_key_collision :
  uniqueIds ambiguousIds /\
  Forall (fun e => wellFormed (aabb e)) ambiguousIds /\
  validOptions exampleOptions /\
  SpatialGridBroadPhase.pairKey
    {| id := IdStr "a"; aabb := box 0 0 10 10 |}
    {| id := IdStr "b:c"; aabb := box 0 0 10 10 |}
  = SpatialGridBroadPhase.pairKey
      {| id := IdStr "a:b"; aabb := box 0 0 10 10 |}
      {| id := IdStr "c"; aabb := box 0 0 10 10 |} /\
  exists gridDetector gridDetector1 gridPairs gridDetector2 brutePairs
         bruteForce2,
    Double.new exampleOptions = inr gridDetector /\
    Double.update ambiguousIds gridDetector = inr gridDetector1 /\
    SpatialGridBroadPhase.queryPairs gridDetector1
      = inr (gridPairs, gridDetector2) /\
    BruteForceBroadPhase.queryPairs
      (BruteForceBroadPhase.update ambiguousIds BruteForceBroadPhase.new)
      = inr (brutePairs, bruteForce2) /\
    inPairSet (IdStr "a:b", IdStr "c") brutePairs /\
    ~ inPairSet (IdStr "a:b", IdStr "c") gridPairs /\
    ~ samePairSet brutePairs gridPairs.
Proof.
  split; [unfold uniqueIds; compute_done|].
  split; [repeat constructor; simpl; discriminate|].
  split; [exact exampleOptions_valid|].
  split; [reflexivity|].
  eexists _, _, _, _, _, _.
  split; [vm_compute; reflexivity|].
  split; [vm_compute; reflexivity|].
  split; [vm_compute; reflexivity|].
  split; [vm_compute; reflexivity|].
  assert (forall ps1 ps2 : list (Entity * Entity),
            inPairSet (IdStr "a:b", IdStr "c") ps1 ->
            ~ inPairSet (IdStr "a:b", IdStr "c") ps2 ->
            ~ samePairSet ps1 ps2) as Hdiff.
  { intros ps1 ps2 H1 H2 Hsame. apply H2, Hsame, H1. }
  match goal with
  | |- ?A /\ ?B /\ _ => assert A as Hin; [|assert B as Hout]
  end.
  - unfold inPairSet. rewrite Exists_exists.
    eexists. split; [do 5 right; left | now left].
  - unfold inPairSet. intros Hin'.
    repeat (apply Exists_cons in Hin' as [[Hin'|Hin']|Hin'];
            [discriminate Hin'..|]).
    inversion Hin'.
  - split; [exact Hin|]. split; [exact Hout|]. now apply Hdiff.
Qed.

(** ** A grid without cells *)

(** C7: the configuration with the cell size [1e200] and [maxX] and [maxY]
    at [1e-200] is valid, and its extent in cells rounds to 0: the
    constructor returns a detector with no column and no row. There
    [worldToGrid] returns the cell (0, 0) for every coordinate, which is
    neither the clamp of the index into [0 .. numCols - 1], nor a cell of
    the grid. *)
Theorem zero_column_mapping :
  validOptions underflowOptions /\
  Double.new underflowOptions = inr underflowGrid /\
  SpatialGridBroadPhase.numCols underflowGrid = 0 /\
  SpatialGridBroadPhase.numRows underflowGrid = 0 /\
  SpatialGridBroadPhase.grid underflowGrid = [] /\
  (forall px py,
     Double.worldToGrid underflowGrid px py = {| col := 0; row := 0 |}) /\
  clamp (Qfloor (fdiv (fsub 1 (SpatialGridBroadPhase.minX underflowGrid))
                   (SpatialGridBroadPhase.cellSize underflowGrid)))
    0 (SpatialGridBroadPhase.numCols underflowGrid - 1) = -1 /\
  arrayGet (SpatialGridBroadPhase.grid underflowGrid) 0 = None.
Proof.
  split; [exact underflowOptions_valid|].
  split; [exact underflowGrid_new|].
  do 3 (split; [reflexivity|]).
  split; [exact underflow_worldToGrid|].
  split; [vm_compute; reflexivity | reflexivity].
Qed.

(** C10: the same valid configuration gives a detector with neither a
    column nor a row, and on it [update] with any snapshot that is not
    empty reads the column 0, which the grid does not have: it throws a
    [TypeError]. *)
Theorem zero_column_update_throws :
  validOptions underflowOptions /\
  Double.new underflowOptions = inr underflowGrid /\
  ~ 1 <= SpatialGridBroadPhase.numCols underflowGrid /\
  ~ 1 <= SpatialGridBroadPhase.numRows underflowGrid /\
  forall entity entities,
    Double.update (entity :: entities) underflowGrid = inl TypeError.
Proof.
  split; [exact underflowOptions_valid|].
  split; [exact underflowGrid_new|].
  split; [simpl; lia|]. split; [simpl; lia|].
  intros entity entities. unfold Double.update.
  assert (SpatialGridBroadPhase.clearGrid underflowGrid
            (SpatialGridBroadPhase.grid underflowGrid) = inr []) as ->
    by reflexivity.
  cbn [bind forEach]. unfold Double.insertEntity.
  rewrite !underflow_worldToGrid. reflexivity.
Qed.

Lemma roundedGrid_new : Double.new roundedOptions = inr roundedGrid.
Proof. vm_compute. reflexivity. Qed.

(** ** Grid dimensions and the cell mapping *)

(** In every state of a detector, the numbers of columns and rows are the
    ceilings of the quotients of the extents by the cell size, as the
    machine rounds them, and a coordinate below the lower bound is mapped to
    the index 0. On an axis with at least one cell, [worldToGrid] is the
    clamp of the floor of the rounded quotient into the indices of the grid,
    and a coordinate at or above the upper bound is mapped to the last
    index. *)
Theorem grid_dimensions_and_mapping (options : SpatialGridOptions.t)
  (this : SpatialGridBroadPhase.t) :
  Double.Reachable options this ->
  let cs := options.(SpatialGridOptions.cellSize) in
  let x0 := SpatialGridBroadPhase.orZero options.(SpatialGridOptions.minX) in
  let y0 := SpatialGridBroadPhase.orZero options.(SpatialGridOptions.minY) in
  let x1 := options.(SpatialGridOptions.maxX) in
  let y1 := options.(SpatialGridOptions.maxY) in
  let numCols := this.(SpatialGridBroadPhase.numCols) in
  let numRows := this.(SpatialGridBroadPhase.numRows) in
  numCols = Qceiling (fdiv (fsub x1 x0) cs) /\
  numRows = Qceiling (fdiv (fsub y1 y0) cs) /\
  (forall px py,
     ((px < x0)%Q -> col (Double.worldToGrid this px py) = 0) /\
     ((py < y0)%Q -> row (Double.worldToGrid this px py) = 0)) /\
  (1 <= numCols ->
   forall px py,
     col (Double.worldToGrid this px py)
     = clamp (Qfloor (fdiv (fsub px x0) cs)) 0 (numCols - 1) /\
     ((x1 <= px)%Q -> col (Double.worldToGrid this px py) = numCols - 1)) /\
  (1 <= numRows ->
   forall px py,
     row (Double.worldToGrid this px py)
     = clamp (Qfloor (fdiv (fsub py y0) cs)) 0 (numRows - 1) /\
     ((y1 <= py)%Q -> row (Double.worldToGrid this px py) = numRows - 1)).
Proof.
  intros Hreach. cbv zeta.
  pose proof (double_Reachable_invariant _ _ Hreach) as Hinv.
  pose proof (double_cellSize_pos _ _ Hinv) as Hcs.
  destruct Hinv as (Ecs & Ex0 & Ey0 & Ex1 & Ey1 & Enc & Enr & _ & _).
  rewrite Ecs in Hcs. rewrite Ecs, Ex0, Ex1 in Enc. rewrite Ecs, Ey0, Ey1 in Enr.
  split; [exact Enc|]. split; [exact Enr|].
  split; [|split].
  - intros px py. unfold Double.worldToGrid. cbn [col row].
    rewrite Ecs, Ex0, Ey0. split; intros H.
    + pose proof (doubleIndex_below _ _ _ Hcs H). lia.
    + pose proof (doubleIndex_below _ _ _ Hcs H). lia.
  - intros Hnc px py. unfold Double.worldToGrid. cbn [col].
    rewrite Ecs, Ex0. split; [apply clamp_max_min; lia|].
    intros H.
    pose proof (doubleIndex_above
                  (SpatialGridBroadPhase.orZero (SpatialGridOptions.minX options))
                  _ _ _ Hcs H) as Habove.
    rewrite <- Enc in Habove. lia.
  - intros Hnr px py. unfold Double.worldToGrid. cbn [row].
    rewrite Ecs, Ey0. split; [apply clamp_max_min; lia|].
    intros H.
    pose proof (doubleIndex_above
                  (SpatialGridBroadPhase.orZero (SpatialGridOptions.minY options))
                  _ _ _ Hcs H) as Habove.
    rewrite <- Enr in Habove. lia.
Qed.

(** Cell size 0.3 on a world of 0.9 by 0.9: three columns of three cells. *)
Lemma grid_dimensions_and_mapping_witness :
  SpatialGridBroadPhase.numCols roundedGrid
  = Qceiling (fdiv (fsub (round (9 # 10)) 0) (round (3 # 10))) /\
  SpatialGridBroadPhase.numCols roundedGrid = 3.
Proof.
  split; [|reflexivity].
  apply (grid_dimensions_and_mapping roundedOptions roundedGrid).
  apply Double.Reachable_new. exact roundedGrid_new.
Defined.

(** ** Cell accesses stay in the grid *)

(** In every state of a detector with at least one column and one row,
    [worldToGrid] returns indices of the grid, the cells [update] gives to
    an entity are cells of the grid, and [update] and [queryPairs] run to
    their end without reading or writing outside the grid, which keeps its
    shape. *)
Theorem grid_accesses_in_bounds (options : SpatialGridOptions.t)
  (this : SpatialGridBroadPhase.t) :
  Double.Reachable options this ->
  let numCols := this.(SpatialGridBroadPhase.numCols) in
  let numRows := this.(SpatialGridBroadPhase.numRows) in
  1 <= numCols -> 1 <= numRows ->
  (forall px py,
     0 <= col (Double.worldToGrid this px py) <= numCols - 1 /\
     0 <= row (Double.worldToGrid this px py) <= numRows - 1) /\
  (forall entity c r,
     Double.covers this c r entity -> 0 <= c < numCols /\ 0 <= r < numRows) /\
  gridShape this /\
  (forall entities, exists this',
     Double.update entities this = inr this' /\ gridShape this') /\
  (exists pairs this',
     SpatialGridBroadPhase.queryPairs this = inr (pairs, this') /\
     gridShape this').
Proof.
  intros Hreach numCols numRows Hnc Hnr. subst numCols numRows.
  pose proof (double_Reachable_invariant _ _ Hreach) as Hinv.
  destruct Hinv as (_ & _ & _ & _ & _ & _ & _ & _ & Hshape).
  destruct (Hshape Hnc Hnr) as [f Hgrid].
  split; [intros px py; now apply double_worldToGrid_range|].
  split; [|split; [|split]].
  - intros entity c r [Hc Hr].
    pose proof (double_worldToGrid_range this (x (min (aabb entity)))
                  (y (min (aabb entity))) Hnc Hnr).
    pose proof (double_worldToGrid_range this (x (max (aabb entity)))
                  (y (max (aabb entity))) Hnc Hnr).
    lia.
  - exact (gridOf_shape this f Hgrid).
  - intros entities. eexists.
    split; [exact (double_update_closed this entities f Hnc Hnr Hgrid)|].
    eapply gridOf_shape. reflexivity.
  - pose proof (queryPairs_shape this f ltac:(lia) ltac:(lia) Hgrid) as Hq.
    cbv zeta in Hq. eexists _, _. split; [exact Hq|].
    eapply gridOf_shape. exact Hgrid.
Qed.

(** Accesses on the example grid. *)
Lemma grid_accesses_in_bounds_witness :
  (forall px py,
     0 <= col (Double.worldToGrid exampleGrid px py) <= 2 - 1 /\
     0 <= row (Double.worldToGrid exampleGrid px py) <= 2 - 1) /\
  (forall entity c r,
     Double.covers exampleGrid c r entity -> 0 <= c < 2 /\ 0 <= r < 2) /\
  gridShape exampleGrid /\
  (forall entities, exists this',
     Double.update entities exampleGrid = inr this' /\ gridShape this') /\
  (exists pairs this',
     SpatialGridBroadPhase.queryPairs exampleGrid = inr (pairs, this') /\
     gridShape this').
Proof.
  apply (grid_accesses_in_bounds exampleOptions exampleGrid).
  - apply Double.Reachable_new. exact double_exampleGrid_new.
  - simpl. lia.
  - simpl. lia.
Defined.

(** ** What update leaves in the grid, in double arithmetic *)

(** On a detector with at least one column and one row, [update] returns
    and leaves, whatever the grid held before, in the cell [(c, r)] exactly
    the entities of the snapshot whose cell rectangle covers it, in the
    order of the snapshot; the dimensions and the counter are unchanged. *)
Theorem update_cell_contents (options : SpatialGridOptions.t)
  (this : SpatialGridBroadPhase.t) (entities : list Entity) :
  Double.Reachable options this ->
  1 <= SpatialGridBroadPhase.numCols this ->
  1 <= SpatialGridBroadPhase.numRows this ->
  exists this',
    Double.update entities this = inr this' /\
    SpatialGridBroadPhase.numCols this' = SpatialGridBroadPhase.numCols this /\
    SpatialGridBroadPhase.numRows this' = SpatialGridBroadPhase.numRows this /\
    SpatialGridBroadPhase.collisionTests this'
      = SpatialGridBroadPhase.collisionTests this /\
    forall c r,
      0 <= c < SpatialGridBroadPhase.numCols this ->
      0 <= r < SpatialGridBroadPhase.numRows this ->
      exists column,
        arrayGet (SpatialGridBroadPhase.grid this') c = Some column /\
        arrayGet column r = Some (filter (Double.covers this c r) entities).
Proof.
  intros Hreach Hnc Hnr.
  pose proof (double_Reachable_invariant _ _ Hreach) as Hinv.
  destruct Hinv as (_ & _ & _ & _ & _ & _ & _ & _ & Hshape).
  destruct (Hshape Hnc Hnr) as [f Hgrid].
  eexists. split; [exact (double_update_closed this entities f Hnc Hnr Hgrid)|].
  do 3 (split; [reflexivity|]).
  intros c r Hc Hr. cbn [SpatialGridBroadPhase.grid].
  unfold Double.populatedGrid.
  eexists. split; [now apply arrayGet_gridOf|].
  now apply (arrayGet_tabulate
               (fun r => filter (Double.covers this c r) entities)).
Qed.

Lemma update_cell_contents_witness :
  exists this',
    Double.update scenarioA exampleGrid = inr this' /\
    SpatialGridBroadPhase.numCols this' = 2 /\
    SpatialGridBroadPhase.numRows this' = 2 /\
    SpatialGridBroadPhase.collisionTests this' = 0%nat /\
    forall c r,
      0 <= c < 2 -> 0 <= r < 2 ->
      exists column,
        arrayGet (SpatialGridBroadPhase.grid this') c = Some column /\
        arrayGet column r
        = Some (filter (Double.covers exampleGrid c r) scenarioA).
Proof.
  apply (update_cell_contents exampleOptions exampleGrid scenarioA).
  - apply Double.Reachable_new. exact double_exampleGrid_new.
  - simpl. lia.
  - simpl. lia.
Defined.

(** On a detector with at least one column and one row, an entity with a
    well-formed box is never dropped by [update]: it is listed in the cell
    of its [min] corner and in the cell of its [max] corner, wherever the
    box lies. *)
Theorem update_keeps_well_formed (options : SpatialGridOptions.t)
  (this : SpatialGridBroadPhase.t) (entities : list Entity)
  (entity : Entity) :
  Double.Reachable options this ->
  1 <= SpatialGridBroadPhase.numCols this ->
  1 <= SpatialGridBroadPhase.numRows this ->
  entity ∈ entities ->
  wellFormed (aabb entity) ->
  let a := aabb entity in
  let minCell := Double.worldToGrid this (x (min a)) (y (min a)) in
  let maxCell := Double.worldToGrid this (x (max a)) (y (max a)) in
  exists this' minColumn maxColumn atMin atMax,
    Double.update entities this = inr this' /\
    arrayGet (SpatialGridBroadPhase.grid this') (col minCell) = Some minColumn /\
    arrayGet minColumn (row minCell) = Some atMin /\
    entity ∈ atMin /\
    arrayGet (SpatialGridBroadPhase.grid this') (col maxCell) = Some maxColumn /\
    arrayGet maxColumn (row maxCell) = Some atMax /\
    entity ∈ atMax.
Proof.
  intros Hreach Hnc Hnr Hin [Hwx Hwy]. cbv zeta.
  pose proof (double_Reachable_invariant _ _ Hreach) as Hinv.
  pose proof (double_cellSize_pos _ _ Hinv) as Hcs.
  destruct Hinv as (_ & _ & _ & _ & _ & _ & _ & _ & Hshape).
  destruct (Hshape Hnc Hnr) as [f Hgrid].
  pose proof (double_update_closed this entities f Hnc Hnr Hgrid) as Hupd.
  assert (forall c r,
            0 <= c < SpatialGridBroadPhase.numCols this ->
            0 <= r < SpatialGridBroadPhase.numRows this ->
            exists column,
              arrayGet (Double.populatedGrid this entities) c = Some column /\
              arrayGet column r
              = Some (filter (Double.covers this c r) entities))
    as Hcells.
  { intros c r Hc Hr. eexists. split; [now apply arrayGet_gridOf|].
    now apply (arrayGet_tabulate
                 (fun r => filter (Double.covers this c r) entities)). }
  set (minCell := Double.worldToGrid this
                    (x (min (aabb entity))) (y (min (aabb entity)))).
  set (maxCell := Double.worldToGrid this
                    (x (max (aabb entity))) (y (max (aabb entity)))).
  pose proof (double_worldToGrid_range this (x (min (aabb entity)))
                (y (min (aabb entity))) Hnc Hnr) as Hmin.
  pose proof (double_worldToGrid_range this (x (max (aabb entity)))
                (y (max (aabb entity))) Hnc Hnr) as Hmax.
  fold minCell in Hmin. fold maxCell in Hmax.
  assert (col minCell <= col maxCell) as Hcol
    by now apply double_worldToGrid_col_mono.
  assert (row minCell <= row maxCell) as Hrow
    by now apply double_worldToGrid_row_mono.
  destruct (Hcells (col minCell) (row minCell)) as (c1 & Hc1 & Hr1); [lia..|].
  destruct (Hcells (col maxCell) (row maxCell)) as (c2 & Hc2 & Hr2); [lia..|].
  eexists _, c1, c2, _, _.
  split; [exact Hupd|]. split; [exact Hc1|]. split; [exact Hr1|].
  split; [|split; [exact Hc2|split; [exact Hr2|]]].
  - apply list_elem_of_filter. split; [|exact Hin].
    unfold Double.covers. fold minCell maxCell. lia.
  - apply list_elem_of_filter. split; [|exact Hin].
    unfold Double.covers. fold minCell maxCell. lia.
Qed.

Lemma update_keeps_well_formed_witness :
  let entity := {| id := IdNum 2; aabb := box 30 30 62 62 |} in
  let a := aabb entity in
  let minCell := Double.worldToGrid exampleGrid (x (min a)) (y (min a)) in
  let maxCell := Double.worldToGrid exampleGrid (x (max a)) (y (max a)) in
  exists this' minColumn maxColumn atMin atMax,
    Double.update scenarioA exampleGrid = inr this' /\
    arrayGet (SpatialGridBroadPhase.grid this') (col minCell) = Some minColumn /\
    arrayGet minColumn (row minCell) = Some atMin /\
    entity ∈ atMin /\
    arrayGet (SpatialGridBroadPhase.grid this') (col maxCell) = Some maxColumn /\
    arrayGet maxColumn (row maxCell) = Some atMax /\
    entity ∈ atMax.
Proof.
  apply (update_keeps_well_formed exampleOptions exampleGrid scenarioA
           {| id := IdNum 2; aabb := box 30 30 62 62 |}).
  - apply Double.Reachable_new. exact double_exampleGrid_new.
  - simpl. lia.
  - simpl. lia.
  - right. left.
  - split; simpl; discriminate.
Defined.

(** ** The grid against brute force, in double arithmetic *)

(** On a detector with at least one column and one row, for a snapshot with
    unique ids, well-formed boxes and unambiguous keys, the grid returns the
    very pairs brute force returns, each once and in the same order within
    the pair: the two results are permutations of each other. *)
Theorem grid_pairs_permutation (options : SpatialGridOptions.t)
  (gridDetector : SpatialGridBroadPhase.t)
  (bruteForce : BruteForceBroadPhase.t) (entities : list Entity) :
  Double.Reachable options gridDetector ->
  1 <= SpatialGridBroadPhase.numCols gridDetector ->
  1 <= SpatialGridBroadPhase.numRows gridDetector ->
  uniqueIds entities ->
  Forall (fun e => wellFormed (aabb e)) entities ->
  keysUnambiguous entities ->
  exists gridDetector1 gridPairs gridDetector2 brutePairs bruteForce2,
    Double.update entities gridDetector = inr gridDetector1 /\
    SpatialGridBroadPhase.queryPairs gridDetector1
      = inr (gridPairs, gridDetector2) /\
    BruteForceBroadPhase.queryPairs
      (BruteForceBroadPhase.update entities bruteForce)
      = inr (brutePairs, bruteForce2) /\
    gridPairs ≡ₚ brutePairs.
Proof.
  intros Hreach Hnc Hnr Hunique Hwf Hkeys.
  pose proof (double_Reachable_invariant _ _ Hreach) as Hinv.
  pose proof (double_cellSize_pos _ _ Hinv) as Hcs.
  destruct Hinv as (_ & _ & _ & _ & _ & _ & _ & _ & Hshape).
  destruct (Hshape Hnc Hnr) as [f Hgrid].
  pose proof (double_update_closed gridDetector entities f Hnc Hnr Hgrid)
    as Hupd.
  eexists _, _, _, _, _.
  split; [exact Hupd|].
  split.
  { apply (queryPairs_shape _
             (fun c r => filter (Double.covers gridDetector c r) entities));
      cbn [SpatialGridBroadPhase.numCols SpatialGridBroadPhase.numRows
           SpatialGridBroadPhase.grid]; [lia | lia | reflexivity]. }
  split; [apply brute_queryPairs|].
  cbn [SpatialGridBroadPhase.grid BruteForceBroadPhase.update
       BruteForceBroadPhase._entities].
  fold (Double.gridResult gridDetector entities).
  now apply double_gridResult_Permutation.
Qed.

Lemma grid_pairs_permutation_witness :
  exists gridDetector1 gridPairs gridDetector2 brutePairs bruteForce2,
    Double.update scenarioA exampleGrid = inr gridDetector1 /\
    SpatialGridBroadPhase.queryPairs gridDetector1
      = inr (gridPairs, gridDetector2) /\
    BruteForceBroadPhase.queryPairs
      (BruteForceBroadPhase.update scenarioA BruteForceBroadPhase.new)
      = inr (brutePairs, bruteForce2) /\
    gridPairs ≡ₚ brutePairs.
Proof.
  apply (grid_pairs_permutation exampleOptions).
  - apply Double.Reachable_new. exact double_exampleGrid_new.
  - simpl. lia.
  - simpl. lia.
  - exact scenarioA_unique.
  - exact scenarioA_wellFormed.
  - apply keysUnambiguous_numeric. exact scenarioA_numeric.
Defined.
